(** * bc-zfsonlinux-memorymanagement2: the ARC limit controller

    A shallow embedding of [bc-zfsonlinux-memorymanagement2.py] and the
    properties of its control loop.

    Numbers.  Python [int]s are [Z].  A Python [float] is the rational it
    denotes, a [Q]; the comparisons of the program are exact on such values.
    An operation on floats that can round is the exact operation followed by
    [Num.float], the rounding to the nearest double (53 bits of mantissa,
    ties to the even mantissa): the true division of two [int]s, the
    arithmetic of the percentage, of [auto_limits] and of the interpolation
    in the good band.  [round(x, n)] is the decimal rounding of the exact
    value of [x], ties to even, followed by [Num.float], as CPython computes
    it, and [int(x)] truncates.  The exponent range of a double is not
    modelled: where Python would produce [inf] or a subnormal number (beyond
    1.7e308, below 2.3e-308) the embedding goes on with the rounded value.
    A bound that [auto_limits] derived is an [int] in Python; the embedding
    holds the rational of the same value, which is the double Python
    converts it to up to 2^53.  Three operations are taken without rounding:
    the steps [limit_gb - 1] and [limit_gb + 1] of the loop, [limit_gb - 2]
    in [adjust], and the multiplications by 1024.  Multiplying by 1024 is
    exact on doubles; subtracting 1 or 2 is exact on a double from 1 (from
    2) up to 2^53; adding 1 can round in the last bit when the sum passes a
    power of two.  Rationals are compared with [==], [<] and [<=] of [Q].

    Effects.  The program talks to the operating system (it runs [free],
    [zpool], [zfs], [sysctl] and [service], reads and writes two sysfs
    files, sleeps, takes a lock).  The embedding threads a [World] through a
    state-and-exception monad; the world records every interaction in a trace
    and answers through an oracle indexed by the length of that trace.  The
    embedding delivers an interrupt signal to the program while it sleeps,
    where the loop spends its time: [time_sleep] is where
    [KeyboardInterrupt] arises, whereas CPython raises it in whichever call
    is running.  A process that a signal kills outright does not return from
    [main] and is not a run of the embedding. *)

From Stdlib Require Import ZArith QArith Qround Qabs Qpower Lqa Lia Bool List String Ascii.
Import ListNotations.

Local Open Scope Z_scope.
Local Open Scope Q_scope.

(* ================================================================== *)
(** ** Numbers *)
(* ================================================================== *)

Module Num.

(** Python's [x < y] and [x > y] on numbers. *)
Definition ltb (x y : Q) : bool := negb (Qle_bool y x).
Definition gtb (x y : Q) : bool := ltb y x.

(** [int(x)] for a float [x]: truncation toward zero. *)
Definition int (x : Q) : Z := Z.quot (Qnum x) (Z.pos (Qden x)).

(** Nearest integer, ties to the even neighbour. *)
Definition round_half_even (x : Q) : Z :=
  let f := Qfloor x in
  match Qcompare (x - inject_Z f) (1 # 2) with
  | Lt => f
  | Gt => (f + 1)%Z
  | Eq => if Z.even f then f else (f + 1)%Z
  end.

(** The exponent [e] of [x]: [2^e <= x < 2^(e+1)], for [0 < x]. *)
Definition ilog2 (x : Q) : Z :=
  let k := (Z.log2 (Qnum x) - Z.log2 (Z.pos (Qden x)))%Z in
  if Qle_bool (2 ^ k) x then k else (k - 1)%Z.

(** The distance between neighbouring doubles at [x]. *)
Definition ulp (x : Q) : Q := 2 ^ (ilog2 (Qabs x) - 52).

(** The double nearest to [x], ties to the even mantissa: what a float
    operation of Python makes of its exact result [x]. *)
Definition float (x : Q) : Q :=
  if Qeq_bool x 0 then 0
  else inject_Z (round_half_even (x / ulp x)) * ulp x.

(** [x + y], [x - y], [x * y] and [x / y] on floats, and the true division of
    two [int]s, which CPython rounds correctly as well. *)
Definition fadd (x y : Q) : Q := float (x + y).
Definition fsub (x y : Q) : Q := float (x - y).
Definition fmul (x y : Q) : Q := float (x * y).
Definition fdiv (x y : Q) : Q := float (x / y).

(** The multiple of [10^-digits] nearest to [x], ties to even. *)
Definition decimal (digits : Z) (x : Q) : Q :=
  inject_Z (round_half_even (x * 10 ^ digits)) / 10 ^ digits.

(** [round(x, digits)] on a float: CPython rounds the exact value of [x] to
    the decimal and returns the double nearest to that decimal. *)
Definition round (x : Q) (digits : Z) : Q := float (decimal digits x).

(** [round(x, 2)]. *)
Definition round2 (x : Q) : Q := round x 2.

(** 2^-53: no rounding to the nearest double changes a number by more than
    this fraction of it. *)
Definition unit_roundoff : Q := 1 # 9007199254740992.

(** A multiple of 1/100. *)
Definition centi (x : Q) : Prop := exists n : Z, x == inject_Z n / 100.

(** Bytes in one GB as the program counts them: 1024*1024*1024. *)
Definition GB : Q := 1024 * 1024 * 1024.

End Num.

#[global] Arguments Num.ilog2 : simpl never.
#[global] Arguments Num.ulp : simpl never.
#[global] Arguments Num.float : simpl never.
#[global] Arguments Num.decimal : simpl never.
#[global] Arguments Num.round : simpl never.
#[global] Arguments Num.round2 : simpl never.

Notation "x <? y" := (Num.ltb x y) : Q_scope.
Notation "x >? y" := (Num.gtb x y) : Q_scope.

(* ================================================================== *)
(** ** Python strings: [str.split()], [int(str)], [in] *)
(* ================================================================== *)

Module Py.

Local Open Scope char_scope.
Local Open Scope Z_scope.

(** The ASCII characters for which [str.isspace] holds. *)
Definition is_space (c : ascii) : bool :=
  let n := Z.of_nat (nat_of_ascii c) in
  ((9 <=? n) && (n <=? 13)) || ((28 <=? n) && (n <=? 32)).

Definition flush (acc : list ascii) : list string :=
  match acc with
  | [] => []
  | _ => [string_of_list_ascii (rev acc)]
  end.

(** [s.split()]: the maximal runs of non-blank characters, in order. *)
Fixpoint split_from (acc : list ascii) (s : string) : list string :=
  match s with
  | EmptyString => flush acc
  | String c s' =>
      if is_space c then flush acc ++ split_from [] s'
      else split_from (c :: acc) s'
  end.

Definition split (s : string) : list string := split_from [] s.

Definition digit_of (c : ascii) : option Z :=
  let n := Z.of_nat (nat_of_ascii c) in
  if (48 <=? n) && (n <=? 57) then Some (n - 48) else None.

(** Decimal digits, a single underscore allowed between two digits. *)
Fixpoint digits (acc : Z) (after_digit : bool) (cs : list ascii) : option Z :=
  match cs with
  | [] => if after_digit then Some acc else None
  | c :: cs' =>
      match digit_of c with
      | Some d => digits (10 * acc + d) true cs'
      | None =>
          if Ascii.eqb c "_" && after_digit then digits acc false cs' else None
      end
  end.

(** [int(s)] on a blank-free ASCII token: an optional sign and decimal
    digits; [None] stands for [ValueError]. *)
Definition int_of_token (s : string) : option Z :=
  match list_ascii_of_string s with
  | "-" :: cs => option_map Z.opp (digits 0 false cs)
  | "+" :: cs => digits 0 false cs
  | cs => digits 0 false cs
  end.

(** [needle in s]. *)
Definition contains (needle s : string) : bool :=
  match String.index 0 needle s with
  | Some _ => true
  | None => false
  end.

End Py.

(* ================================================================== *)
(** ** Exceptions and the monad of the program *)
(* ================================================================== *)

Inductive exn : Type :=
| IndexError
| ValueError
| ZeroDivisionError
| TypeError
| NameError
| OSError
| SystemExit (code : Z)
| KeyboardInterrupt.

(** What a computation yields: a value, a raised exception, or nothing yet
    because the fuel given to the endless loop ran out. *)
Inductive result (A : Type) : Type :=
| Ok (a : A)
| Raise (e : exn)
| OutOfFuel.

Arguments Ok {A} a.
Arguments Raise {A} e.
Arguments OutOfFuel {A}.

Definition M (S A : Type) : Type := S -> result A * S.

Definition ret {S A} (a : A) : M S A := fun s => (Ok a, s).

Definition bind {S A B} (m : M S A) (k : A -> M S B) : M S B :=
  fun s =>
    match m s with
    | (Ok a, s') => k a s'
    | (Raise e, s') => (Raise e, s')
    | (OutOfFuel, s') => (OutOfFuel, s')
    end.

Definition raise {S A} (e : exn) : M S A := fun s => (Raise e, s).

Definition gets {S A} (f : S -> A) : M S A := fun s => (Ok (f s), s).

Definition modify {S} (f : S -> S) : M S unit := fun s => (Ok tt, f s).

(** [try: body  except: handler] (the handler sees every exception). *)
Definition try_except {S A} (body : M S A) (handler : exn -> M S A) : M S A :=
  fun s =>
    match body s with
    | (Raise e, s') => handler e s'
    | other => other
    end.

(** [try: body  finally: cleanup]. *)
Definition try_finally {S A} (body : M S A) (cleanup : M S unit) : M S A :=
  fun s =>
    match body s with
    | (OutOfFuel, s') => (OutOfFuel, s')
    | (r, s') =>
        match cleanup s' with
        | (Ok _, s'') => (r, s'')
        | (Raise e, s'') => (Raise e, s'')
        | (OutOfFuel, s'') => (OutOfFuel, s'')
        end
    end.

(** A Python value that may be missing where one is required. *)
Definition of_option {S A} (o : option A) (e : exn) : M S A :=
  match o with
  | Some a => ret a
  | None => raise e
  end.

Declare Scope monad_scope.
Delimit Scope monad_scope with monad.
Notation "x <- c1 ;; c2" := (bind c1 (fun x => c2))
  (at level 61, c1 at next level, right associativity) : monad_scope.
Notation "c1 ;; c2" := (bind c1 (fun _ => c2))
  (at level 61, right associativity) : monad_scope.
Local Open Scope monad_scope.

(* ================================================================== *)
(** ** Configuration, the outside world, the state of the process *)
(* ================================================================== *)

(** The namespace [cfg] that [argparse] returns.  The four [_gb] entries
    are [None] unless given on the command line; [auto_limits] fills them. *)
Record Cfg : Type := mkCfg {
  debug : bool;
  verbose : bool;
  quiet : bool;
  dry_run : bool;
  min_percent : Q;
  max_percent : Q;
  min_good_percent : Q;
  max_good_percent : Q;
  min_gb : option Q;
  max_gb : option Q;
  min_good_gb : option Q;
  max_good_gb : option Q;
  max_panic_percent : Q;
  pools : list string
}.

Definition set_min_gb (v : option Q) (c : Cfg) : Cfg :=
  mkCfg (debug c) (verbose c) (quiet c) (dry_run c) (min_percent c)
    (max_percent c) (min_good_percent c) (max_good_percent c)
    v (max_gb c) (min_good_gb c) (max_good_gb c)
    (max_panic_percent c) (pools c).

Definition set_max_gb (v : option Q) (c : Cfg) : Cfg :=
  mkCfg (debug c) (verbose c) (quiet c) (dry_run c) (min_percent c)
    (max_percent c) (min_good_percent c) (max_good_percent c)
    (min_gb c) v (min_good_gb c) (max_good_gb c)
    (max_panic_percent c) (pools c).

Definition set_min_good_gb (v : option Q) (c : Cfg) : Cfg :=
  mkCfg (debug c) (verbose c) (quiet c) (dry_run c) (min_percent c)
    (max_percent c) (min_good_percent c) (max_good_percent c)
    (min_gb c) (max_gb c) v (max_good_gb c)
    (max_panic_percent c) (pools c).

Definition set_max_good_gb (v : option Q) (c : Cfg) : Cfg :=
  mkCfg (debug c) (verbose c) (quiet c) (dry_run c) (min_percent c)
    (max_percent c) (min_good_percent c) (max_good_percent c)
    (min_gb c) (max_gb c) (min_good_gb c) v
    (max_panic_percent c) (pools c).

(** The two sysfs files. *)
Inductive tunable : Type := zfs_arc_meta_limit | zfs_arc_max.

Definition tunable_eqb (a b : tunable) : bool :=
  match a, b with
  | zfs_arc_meta_limit, zfs_arc_meta_limit => true
  | zfs_arc_max, zfs_arc_max => true
  | _, _ => false
  end.

(** The external commands the program spawns. *)
Inductive command : Type :=
| CmdFree                               (* free -m *)
| CmdZpoolList                          (* zpool list -H -o name *)
| CmdDropCaches                         (* sysctl vm.drop_caches=3 *)
| CmdRestartCrashplan                   (* service crashplan restart *)
| CmdZfsSet (value pool : string).      (* zfs set primarycache=value pool *)

(** The reason [adjust] is told, one per call site. *)
Inductive reason : Type :=
| BeforeInitialSettings
| GtMax
| LtMin
| GtGood
| LtGood
| Good (relative_goodness6 : Q).

(** The lines written to standard output. *)
Inductive line : Type :=
| LineAdjust (percent : Q) (message : reason) (limit_gb : Q) (meta_limit max_gb : Z)
| LinePanic (percent : Q) (primarycache : string)
| LineTooLow (percent limit_gb : Q)
| LineSetAll (percent : Q)
| LineTooHigh (percent limit_gb : Q)
| LineMissing (t : tunable).

(** Everything the process does to, or asks of, the outside. *)
Inductive event : Type :=
| EvSleep (seconds : Z)
| EvRun (c : command)
| EvRead (t : tunable)
| EvWrite (t : tunable) (content : Z)
| EvExists (t : tunable)
| EvPrint (l : line)
| EvLogError
| EvOpenLock
| EvFlock
| EvRemoveLock.

(** How the outside answers.  Every answer may depend on the moment it is
    asked, given as the number of events so far. *)
Record Oracle : Type := mkOracle {
  (** standard output of a command, [None] when its return code is not 0 *)
  run_result : nat -> command -> option (list string);
  (** whether the kernel accepts this content for this file *)
  write_ok : nat -> tunable -> Z -> bool;
  (** whether the lock file can be opened for writing *)
  open_lock_ok : nat -> bool;
  (** whether an interrupt signal arrives during this sleep *)
  interrupted : nat -> bool
}.

Record World : Type := mkWorld {
  oracle : Oracle;
  trace : list event;                    (* oldest first *)
  tunables : tunable -> option Z;        (* [None]: the file does not exist *)
  lock_held_elsewhere : bool;            (* another process holds the flock *)
  lock_file_exists : bool
}.

Definition now (w : World) : nat := List.length (trace w).

Definition log (e : event) (w : World) : World :=
  mkWorld (oracle w) (trace w ++ [e]) (tunables w)
    (lock_held_elsewhere w) (lock_file_exists w).

Definition store (t : tunable) (v : Z) (w : World) : World :=
  mkWorld (oracle w) (trace w)
    (fun t' => if tunable_eqb t' t then Some v else tunables w t')
    (lock_held_elsewhere w) (lock_file_exists w).

Definition set_lock_file (b : bool) (w : World) : World :=
  mkWorld (oracle w) (trace w) (tunables w) (lock_held_elsewhere w) b.

(** The module-level state of the script. *)
Record Machine : Type := mkMachine {
  cfg : Cfg;
  free_version : option string;          (* the global [free_version] *)
  got_lock : bool;
  world : World
}.

Definition set_cfg (c : Cfg) (m : Machine) : Machine :=
  mkMachine c (free_version m) (got_lock m) (world m).

Definition set_got_lock (b : bool) (m : Machine) : Machine :=
  mkMachine (cfg m) (free_version m) b (world m).

Definition set_world (w : World) (m : Machine) : Machine :=
  mkMachine (cfg m) (free_version m) (got_lock m) w.

(** The frame of [run]: its two local variables, above the module state. *)
Record Frame : Type := mkFrame {
  limit_gb : Q;
  primarycache : option string;          (* [None] until first assigned *)
  mach : Machine
}.

Definition set_limit_gb (v : Q) (f : Frame) : Frame :=
  mkFrame v (primarycache f) (mach f).

Definition set_primarycache_var (v : string) (f : Frame) : Frame :=
  mkFrame (limit_gb f) (Some v) (mach f).

(** A computation on the module state, run from inside [run]. *)
Definition lift {A} (c : M Machine A) : M Frame A :=
  fun f =>
    let (r, m') := c (mach f) in
    (r, mkFrame (limit_gb f) (primarycache f) m').

(* ================================================================== *)
(** ** Primitive interactions *)
(* ================================================================== *)

Definition emit (e : event) : M Machine unit :=
  modify (fun m => set_world (log e (world m)) m).

Definition print (l : line) : M Machine unit := emit (EvPrint l).

(** [logger.error(...)], after [format_exception()] where the source has it. *)
Definition logger_error : M Machine unit := emit EvLogError.

(** [time.sleep(seconds)]; an interrupt signal surfaces as
    [KeyboardInterrupt].  The embedding lets the signal arrive during a
    sleep only; CPython raises [KeyboardInterrupt] in whichever call is
    running when SIGINT arrives. *)
Definition time_sleep (seconds : Z) : M Machine unit :=
  t <- gets (fun m => now (world m));;
  emit (EvSleep seconds);;
  i <- gets (fun m => interrupted (oracle (world m)) t);;
  if i : bool then raise KeyboardInterrupt else ret tt.

(** [subprocess.Popen(args, ...)], reading its output and [p.wait()]:
    the lines of standard output when the return code is 0. *)
Definition popen (c : command) : M Machine (option (list string)) :=
  t <- gets (fun m => now (world m));;
  emit (EvRun c);;
  gets (fun m => run_result (oracle (world m)) t c).

(** The error path of every command wrapper evaluates
    [read_file(p.stderr)]; no [read_file] is defined, so what is raised
    is [NameError]. *)
Definition command_failed {A} : M Machine A := raise NameError.

(** [with open(t, "r") as f: int(f.readline())]. *)
Definition read_tunable (t : tunable) : M Machine Z :=
  emit (EvRead t);;
  v <- gets (fun m => tunables (world m) t);;
  of_option v OSError.

(** [with open(t, "w") as f: f.write(str(v))]. *)
Definition write_tunable (t : tunable) (v : Z) : M Machine unit :=
  n <- gets (fun m => now (world m));;
  emit (EvWrite t v);;
  old <- gets (fun m => tunables (world m) t);;
  ok <- gets (fun m => write_ok (oracle (world m)) n t v);;
  match old with
  | None => raise OSError
  | Some _ =>
      if ok : bool then modify (fun m => set_world (store t v (world m)) m)
      else raise OSError
  end.

(** [os.path.exists(t)]. *)
Definition path_exists (t : tunable) : M Machine bool :=
  emit (EvExists t);;
  v <- gets (fun m => tunables (world m) t);;
  ret (match v with Some _ => true | None => false end).

(** [open(lockFile, "wb")]. *)
Definition open_lock : M Machine unit :=
  n <- gets (fun m => now (world m));;
  emit EvOpenLock;;
  ok <- gets (fun m => open_lock_ok (oracle (world m)) n);;
  if ok : bool then modify (fun m => set_world (set_lock_file true (world m)) m)
  else raise OSError.

(** [fcntl.flock(f, fcntl.LOCK_EX | fcntl.LOCK_NB)]. *)
Definition flock : M Machine unit :=
  emit EvFlock;;
  held <- gets (fun m => lock_held_elsewhere (world m));;
  if held : bool then raise OSError else ret tt.

(** [os.remove(lockFile)]. *)
Definition remove_lock : M Machine unit :=
  emit EvRemoveLock;;
  there <- gets (fun m => lock_file_exists (world m));;
  if there : bool then modify (fun m => set_world (set_lock_file false (world m)) m)
  else raise OSError.

(** [l[i]] and [int(token)]. *)
Definition item {S A} (l : list A) (i : nat) : M S A :=
  of_option (nth_error l i) IndexError.

Definition py_int {S} (token : string) : M S Z :=
  of_option (Py.int_of_token token) ValueError.

Fixpoint mapM {S A B} (f : A -> M S B) (l : list A) : M S (list B) :=
  match l with
  | [] => ret []
  | a :: l' => b <- f a;; bs <- mapM f l';; ret (b :: bs)
  end.

(** [for x in l: body(x)]. *)
Fixpoint for_each {S A} (l : list A) (body : A -> M S unit) : M S unit :=
  match l with
  | [] => ret tt
  | a :: l' => body a;; for_each l' body
  end.

(* ================================================================== *)
(** ** The script, function by function *)
(* ================================================================== *)

Local Open Scope string_scope.
Local Open Scope Q_scope.

Definition get_pools : M Machine (list string) :=
  out <- popen CmdZpoolList;;
  match out with
  | Some lines => ret lines
  | None => command_failed
  end.

Definition active_pools : M Machine (list string) :=
  c <- gets cfg;;
  match pools c with
  | [] => get_pools
  | configured => ret configured
  end.

Definition get_ram : M Machine (list string) :=
  out <- popen CmdFree;;
  match out with
  | Some lines => ret lines
  | None => command_failed
  end.

Definition option_string_eqb (o : option string) (s : string) : bool :=
  match o with
  | Some v => String.eqb v s
  | None => false
  end.

(** The assignments in the source bind a name local to the function (there
    is no [global free_version] statement): the module-level [free_version]
    keeps its value. *)
Definition detect_free_version : M Machine unit :=
  ram <- get_ram;;
  header <- item ram 0;;
  let free_version_local :=
    if Py.contains "available" header then "3.3.10" else "3.3.9" in
  ret tt.

Definition get_ram_total : M Machine Z :=
  ram <- get_ram;;
  v <- gets free_version;;
  if option_string_eqb v "3.3.9" then
    line <- item ram 1;;
    token <- item (Py.split line) 1;;
    py_int token
  else
    line <- item ram 1;;
    token <- item (Py.split line) 1;;
    py_int token.

Definition get_ram_used : M Machine Z :=
  ram <- get_ram;;
  v <- gets free_version;;
  if option_string_eqb v "3.3.9" then
    line <- item ram 2;;
    token <- item (Py.split line) 2;;
    py_int token
  else
    line <- item ram 1;;
    split <- mapM py_int (List.tl (Py.split line));;
    a <- item split 0;;
    b <- item split 5;;
    ret (a - b)%Z.

Definition drop_caches : M Machine unit :=
  out <- popen CmdDropCaches;;
  match out with
  | Some _ => ret tt
  | None => command_failed
  end.

Definition restart_crashplan : M Machine unit :=
  out <- popen CmdRestartCrashplan;;
  match out with
  | Some _ => ret tt
  | None => command_failed
  end.

Definition set_primarycache (value : string) : M Machine unit :=
  ps <- active_pools;;
  for_each ps (fun pool =>
    out <- popen (CmdZfsSet value pool);;
    match out with
    | Some _ => ret tt
    | None => command_failed
    end).

(** [not x] for an optional number: [None] and zero are both false-like. *)
Definition falsy (x : option Q) : bool :=
  match x with
  | None => true
  | Some v => Qeq_bool v 0
  end.

Definition auto_limits : M Machine unit :=
  total <- get_ram_total;;
  c <- gets cfg;;
  (if falsy (min_gb c) then
     modify (fun m => set_cfg (set_min_gb
       (Some (inject_Z (Num.int
          (Num.fdiv (Num.fmul (Num.fdiv (inject_Z total) 1024)
                              (Num.fdiv (min_percent (cfg m)) 100)) 4))))
       (cfg m)) m)
   else ret tt);;
  c <- gets cfg;;
  (if falsy (max_gb c) then
     modify (fun m => set_cfg (set_max_gb
       (Some (inject_Z (Num.int
          (Num.fmul (Num.fdiv (inject_Z total) 1024)
                    (Num.fdiv (max_percent (cfg m)) 100)))))
       (cfg m)) m)
   else ret tt);;
  c <- gets cfg;;
  (if falsy (min_good_gb c) then
     modify (fun m => set_cfg (set_min_good_gb
       (Some (inject_Z (Num.int
          (Num.fmul (Num.fdiv (inject_Z total) 1024)
                    (Num.fdiv (min_good_percent (cfg m)) 100)))))
       (cfg m)) m)
   else ret tt);;
  c <- gets cfg;;
  (if falsy (max_good_gb c) then
     modify (fun m => set_cfg (set_max_good_gb
       (Some (inject_Z (Num.int
          (Num.fmul (Num.fdiv (inject_Z total) 1024)
                    (Num.fdiv (max_good_percent (cfg m)) 100)))))
       (cfg m)) m)
   else ret tt).

Definition adjust (percent limit : Q) (message : reason) : M Machine unit :=
  let max_gb := Num.int (limit * 1024 * 1024 * 1024) in
  let meta_limit := Num.int ((limit - 2) * 1024 * 1024 * 1024) in
  print (LineAdjust percent message limit meta_limit max_gb);;
  write_tunable zfs_arc_meta_limit meta_limit;;
  write_tunable zfs_arc_max max_gb.

(** [round(100*used/total, 2)]; the division of two [int]s raises on 0. *)
Definition percent_of {S} (used total : Z) : M S Q :=
  if (total =? 0)%Z then raise ZeroDivisionError
  else ret (Num.round2 (Num.fdiv (inject_Z (100 * used)) (inject_Z total))).

(** A bound of [cfg] used as a number.  [run] is entered only after
    [auto_limits], which leaves the four bounds set; on an unset bound the
    arithmetic of the source raises [TypeError]. *)
Definition bound {S} (b : option Q) : M S Q := of_option b TypeError.

Definition limit_init : M Machine Q :=
  old_limit_b <- read_tunable zfs_arc_max;;
  let limit :=
    Num.round2 (Num.fdiv (Num.fdiv (Num.fdiv (inject_Z old_limit_b) 1024) 1024) 1024) in
  c <- gets cfg;;
  lo <- bound (min_gb c);;
  limit <- (if limit <? lo then ret lo
            else
              hi <- bound (max_gb c);;
              if limit >? hi then ret hi else ret limit);;
  total <- get_ram_total;;
  used <- get_ram_used;;
  percent <- percent_of used total;;
  adjust percent limit BeforeInitialSettings;;
  ret limit.

(* ------------------------------------------------------------------ *)
(** *** [run]: the main loop *)
(* ------------------------------------------------------------------ *)

Definition sleep_time_action : Z := 3.
Definition sleep_time_idle : Z := 10.

(** The six branches of the [if]/[elif] chain of the loop. *)
Inductive rule : Type :=
| Panic | AboveMax | BelowMin | AboveGood | BelowGood | Steady.

(** The conditions of the chain, tested in the order of the source. *)
Definition select_rule (c : Cfg) (percent : Q) : rule :=
  if percent >? max_panic_percent c then Panic
  else if percent >? max_percent c then AboveMax
  else if percent <? min_percent c then BelowMin
  else if percent >? max_good_percent c then AboveGood
  else if percent <? min_good_percent c then BelowGood
  else Steady.

Definition on_panic (percent : Q) : M Frame unit :=
  pc <- gets primarycache;;
  (if option_string_eqb pc "metadata"
   then modify (set_primarycache_var "none")
   else modify (set_primarycache_var "metadata"));;
  pc <- gets primarycache;;
  value <- of_option pc TypeError;;
  lift (print (LinePanic percent value));;
  lift drop_caches;;
  lift (set_primarycache value);;
  lift restart_crashplan.

Definition on_above_max (percent : Q) : M Frame unit :=
  c <- gets (fun f => cfg (mach f));;
  l <- gets limit_gb;;
  lo <- bound (min_gb c);;
  if l >? lo then
    modify (set_limit_gb (l - 1));;
    l <- gets limit_gb;;
    (if l <? lo then modify (set_limit_gb lo) else ret tt);;
    l <- gets limit_gb;;
    lift (adjust percent l GtMax)
  else
    lift (print (LineTooLow percent l));;
    lift (time_sleep sleep_time_idle).

Definition on_below_min (percent : Q) : M Frame unit :=
  c <- gets (fun f => cfg (mach f));;
  pc <- gets primarycache;;
  (if negb (option_string_eqb pc "all") then
     lift (print (LineSetAll percent));;
     lift (set_primarycache "all");;
     modify (set_primarycache_var "all")
   else ret tt);;
  l <- gets limit_gb;;
  hi <- bound (max_gb c);;
  if l <? hi then
    modify (set_limit_gb (l + 1));;
    l <- gets limit_gb;;
    (if l >? hi then modify (set_limit_gb hi) else ret tt);;
    l <- gets limit_gb;;
    lift (adjust percent l LtMin)
  else
    lift (print (LineTooHigh percent l));;
    lift (time_sleep sleep_time_idle).

Definition on_above_good (percent : Q) : M Frame unit :=
  c <- gets (fun f => cfg (mach f));;
  v <- bound (min_good_gb c);;
  modify (set_limit_gb v);;
  l <- gets limit_gb;;
  lift (adjust percent l GtGood);;
  lift (time_sleep sleep_time_idle).

Definition on_below_good (percent : Q) : M Frame unit :=
  c <- gets (fun f => cfg (mach f));;
  v <- bound (max_good_gb c);;
  modify (set_limit_gb v);;
  l <- gets limit_gb;;
  lift (adjust percent l LtGood);;
  lift (time_sleep sleep_time_idle).

(** [(percent - cfg.min_good_percent) / (cfg.max_good_percent -
    cfg.min_good_percent)]. *)
Definition relative_goodness (c : Cfg) (percent : Q) : Q :=
  Num.fdiv (Num.fsub percent (min_good_percent c))
           (Num.fsub (max_good_percent c) (min_good_percent c)).

(** The same in the program: the division of two [float]s raises on 0. *)
Definition relative_goodness_of {S} (c : Cfg) (percent : Q) : M S Q :=
  if Qeq_bool (Num.fsub (max_good_percent c) (min_good_percent c)) 0
  then raise ZeroDivisionError
  else ret (relative_goodness c percent).

(** [lo + ((1 - relative_goodness) * (hi - lo))], the limit of the good band
    before [round(_, 2)]. *)
Definition interpolate (lo hi relative_goodness : Q) : Q :=
  Num.fadd lo (Num.fmul (Num.fsub 1 relative_goodness) (Num.fsub hi lo)).

(** [round(x, 6)]. *)
Definition round6 (x : Q) : Q := Num.round x 6.

Definition on_steady (percent : Q) : M Frame unit :=
  c <- gets (fun f => cfg (mach f));;
  relative_goodness <- relative_goodness_of c percent;;
  lo <- bound (min_good_gb c);;
  hi <- bound (max_good_gb c);;
  modify (set_limit_gb (interpolate lo hi relative_goodness));;
  l <- gets limit_gb;;
  modify (set_limit_gb (Num.round2 l));;
  l <- gets limit_gb;;
  lift (adjust percent l (Good (round6 relative_goodness)));;
  lift (time_sleep sleep_time_idle).

Definition rule_body (r : rule) : Q -> M Frame unit :=
  match r with
  | Panic => on_panic
  | AboveMax => on_above_max
  | BelowMin => on_below_min
  | AboveGood => on_above_good
  | BelowGood => on_below_good
  | Steady => on_steady
  end.

(** The start of an iteration: the sleep and the two readings of [free]. *)
Definition reading : M Frame (Z * Z) :=
  lift (time_sleep sleep_time_action);;
  total <- lift get_ram_total;;
  used <- lift get_ram_used;;
  ret (total, used).

(** The rest of it: the percentage and the [if]/[elif] chain. *)
Definition act (total used : Z) : M Frame unit :=
  percent <- percent_of used total;;
  c <- gets (fun f => cfg (mach f));;
  rule_body (select_rule c percent) percent.

(** The body of [try:] in the loop. *)
Definition loop_body : M Frame unit :=
  measured <- reading;;
  act (fst measured) (snd measured).

(** [except KeyboardInterrupt: raise] and the bare [except:]. *)
Definition loop_handler (e : exn) : M Frame unit :=
  match e with
  | KeyboardInterrupt => raise KeyboardInterrupt
  | _ => lift (logger_error;; time_sleep 30)
  end.

Definition iteration : M Frame unit := try_except loop_body loop_handler.

(** [while True:], unrolled [fuel] times. *)
Fixpoint loop (fuel : nat) : M Frame unit :=
  match fuel with
  | O => fun f => (OutOfFuel, f)
  | S n => iteration;; loop n
  end.

(** The frame of [run] once [limit_init] has returned. *)
Definition enter (limit : Q) (m : Machine) : Frame := mkFrame limit None m.

Definition run (fuel : nat) : M Machine unit :=
  limit <- limit_init;;
  fun m => let (r, f) := loop fuel (enter limit m) in (r, mach f).

(* ------------------------------------------------------------------ *)
(** *** The [__main__] block, from the parsed arguments on *)
(* ------------------------------------------------------------------ *)

(** [logging_init] only configures the logger. *)
Definition logging_init : M Machine unit := ret tt.

(** [exit(code)]. *)
Definition exit {A} (code : Z) : M Machine A := raise (SystemExit code).

Definition acquire_and_run (fuel : nat) : M Machine unit :=
  open_lock;;
  try_except
    (flock;; modify (set_got_lock true))
    (fun _ =>
       c <- gets cfg;;
       (if verbose c then logger_error else ret tt);;
       logger_error;;
       exit 1);;
  got <- gets got_lock;;
  if got : bool then run fuel else ret tt.

Definition main (fuel : nat) (args : Cfg) : M Machine unit :=
  modify (set_cfg args);;
  logging_init;;
  auto_limits;;
  meta_there <- path_exists zfs_arc_meta_limit;;
  (if negb meta_there then print (LineMissing zfs_arc_meta_limit) else ret tt);;
  max_there <- path_exists zfs_arc_max;;
  (if negb max_there then print (LineMissing zfs_arc_max) else ret tt);;
  (if negb meta_there || negb max_there then exit 1 else ret tt);;
  modify (set_got_lock false);;
  try_finally
    (acquire_and_run fuel)
    (got <- gets got_lock;;
     if got : bool then remove_lock else ret tt).

(** The state of the process when the interpreter starts the script. *)
Definition boot (args : Cfg) (w : World) : Machine :=
  mkMachine args None false w.

(** The exit status the shell sees, once the process has ended. *)
Definition exit_status (r : result unit) : option Z :=
  match r with
  | Ok _ => Some 0%Z
  | Raise (SystemExit code) => Some code
  | Raise KeyboardInterrupt => Some 130%Z
  | Raise _ => Some 1%Z
  | OutOfFuel => None
  end.

(* ================================================================== *)
(** ** Concrete configurations and worlds used in the examples *)
(* ================================================================== *)

Module Sample.

(** The defaults of the argument parser. *)
Definition default_args : Cfg :=
  mkCfg false false false false 80 94 89 93 None None None None 97 [].

(** What [auto_limits] leaves on a machine with 64000 MB. *)
Definition limits_64g : Cfg :=
  mkCfg false false false false 80 94 89 93
    (Some 12) (Some 58) (Some 55) (Some 58) 97 [].

(** A good band of 10 to 20 GB between 89 and 93 percent. *)
Definition band_10_20 : Cfg :=
  mkCfg false false false false 80 94 89 93
    (Some 2) (Some 30) (Some 10) (Some 20) 97 [].

(** A good band of 10 to 11 GB. *)
Definition band_10_11 : Cfg :=
  mkCfg false false false false 80 94 89 93
    (Some 2) (Some 30) (Some 10) (Some 11) 97 [].

(** Bounds given on the command line with three decimals:
    [--min-gb 10.004 --min-good-gb 10.004 --max-good-gb 20 --max-gb 20]. *)
Definition fine_grained : Cfg :=
  mkCfg false false false false 80 94 89 93
    (Some (Num.float 10.004)) (Some 20) (Some (Num.float 10.004)) (Some 20) 97 [].

(** [-m 40 -M 58 -g 50 -G 55] with bounds of 2, 30, 10 and 20 GB. *)
Definition max_58 : Cfg :=
  mkCfg false false false false 40 58 50 55
    (Some 2) (Some 30) (Some 10) (Some 20) 97 [].

(** [free -m] as procps 3.3.10 and later print it, around its [Mem:] line. *)
Definition free_new (mem : string) : list string :=
  [ "              total        used        free      shared  buff/cache   available";
    mem;
    "Swap:          2047           0        2047" ].

(** [free -m] as procps 3.3.9 and earlier print it. *)
Definition free_old : list string :=
  [ "             total       used       free     shared    buffers     cached";
    "Mem:         64000      61000       3000          0        500      20000";
    "-/+ buffers/cache:      40500      23500";
    "Swap:         2047          0       2047" ].

(** 61000 of 64000 MB in use: 95.31 percent. *)
Definition mem_95 : string :=
  "Mem:          64000       30000        1000         100       33000        3000".

(** 62500 of 64000 MB in use: 97.66 percent. *)
Definition mem_97 : string :=
  "Mem:          64000       61000         500         100        2500        1500".

(** 93 of 100 MB in use. *)
Definition mem_93 : string :=
  "Mem:            100          50           2           0          48           7".

(** 32000 of 64000 MB in use: 50 percent. *)
Definition mem_50 : string :=
  "Mem:          64000       30000        1000         100       33000       32000".

(** 8903 of 10000 MB in use. *)
Definition mem_8903 : string :=
  "Mem:          10000        5000         100           0        4900        1097".

(** An outside where [free -m] prints [ram], every other command
    succeeds, every write is accepted and no signal arrives. *)
Definition calm (ram : list string) : Oracle :=
  mkOracle
    (fun _ c => match c with CmdFree => Some ram | _ => Some [] end)
    (fun _ _ _ => true)
    (fun _ => true)
    (fun _ => false).

(** An outside with one pool, [tank], where memory is short, then plentiful,
    then short again: [free -m] prints [mem_97], except from the 8th to the
    16th event, the second iteration of the loop, where it prints [mem_50]. *)
Definition swinging : Oracle :=
  mkOracle
    (fun n c =>
       match c with
       | CmdFree =>
           Some (free_new (if (8 <=? n)%nat && (n <? 17)%nat then mem_50 else mem_97))
       | CmdZpoolList => Some ["tank"]
       | _ => Some []
       end)
    (fun _ _ _ => true)
    (fun _ => true)
    (fun _ => false).

(** The same with a kernel that takes only what parses as an unsigned
    number. *)
Definition unsigned_only (ram : list string) : Oracle :=
  mkOracle
    (fun _ c => match c with CmdFree => Some ram | _ => Some [] end)
    (fun _ _ v => (0 <=? v)%Z)
    (fun _ => true)
    (fun _ => false).

Definition both_tunables (meta max : Z) (t : tunable) : option Z :=
  match t with
  | zfs_arc_meta_limit => Some meta
  | zfs_arc_max => Some max
  end.

(** A world in which nothing has happened yet: both sysfs files exist,
    nobody holds the lock. *)
Definition fresh (o : Oracle) (meta max : Z) : World :=
  mkWorld o [] (both_tunables meta max) false false.

(** The same world with the lock held by another process. *)
Definition locked (o : Oracle) (meta max : Z) : World :=
  mkWorld o [] (both_tunables meta max) true true.

(** [run] at its first iteration on the 64000 MB machine, limit at 12 GB. *)
Definition frame_64g : Frame :=
  enter 12 (boot limits_64g (fresh (calm (free_new mem_95)) 10737418240 12884901888)).

(** The same machine above [max_panic_percent]. *)
Definition frame_panic : Frame :=
  enter 12 (boot limits_64g (fresh (calm (free_new mem_97)) 10737418240 12884901888)).

(** [run] at its first iteration on the 64000 MB machine under [swinging]. *)
Definition frame_swinging : Frame :=
  enter 12 (boot limits_64g (fresh swinging 10737418240 12884901888)).


Definition frame_10_11 : Frame :=
  enter 10 (boot band_10_11 (fresh (calm (free_new mem_8903)) 8589934592 10737418240)).

Definition frame_10_20 : Frame :=
  enter 10 (boot band_10_20 (fresh (calm (free_new mem_8903)) 8589934592 10737418240)).

Definition frame_fine : Frame :=
  enter 15 (boot fine_grained (fresh (calm (free_new mem_93)) 13958643712 16106127360)).

(** Before [limit_init], the limit left at 20000000000 bytes. *)
Definition machine_20g : Machine :=
  boot limits_64g (fresh (calm (free_new mem_95)) 17852516352 20000000000).

(** Before [limit_init], the limit left at 5 GB and one byte. *)
Definition machine_64g : Machine :=
  boot limits_64g (fresh (calm (free_new mem_95)) 3221225472 5368709121).

(** A machine whose kernel refuses negative numbers. *)
Definition strict_machine : Machine :=
  boot limits_64g (fresh (unsigned_only (free_new mem_95)) 0 2147483648).

(** A second process: the lock is taken. *)
Definition second_process : World :=
  locked (calm (free_new mem_95)) 10737418240 12884901888.

End Sample.

(* ================================================================== *)
(** ** What the properties are stated with *)
(* ================================================================== *)

(** *** Outcomes of computations *)

(** The outcome of running [m] from [s] satisfies [Q]. *)
Definition wp {S A} (m : M S A) (Q : result A -> S -> Prop) (s : S) : Prop :=
  Q (fst (m s)) (snd (m s)).

(** What [bind] asks of its first half. *)
Definition then_wp {S A B} (k : A -> M S B) (Q : result B -> S -> Prop)
    (r : result A) (s : S) : Prop :=
  match r with
  | Ok a => wp (k a) Q s
  | Raise e => Q (Raise e) s
  | OutOfFuel => Q OutOfFuel s
  end.

(** [m] relates every start state to the state it ends in, however it
    ends. *)
Definition respects {S A} (R : S -> S -> Prop) (m : M S A) : Prop :=
  forall s, R s (snd (m s)).

(** A relation on module states that holds across every change the
    primitives make to the world. *)
Record world_step (R : Machine -> Machine -> Prop) : Prop := {
  ws_refl : forall m, R m m;
  ws_trans : forall a b c, R a b -> R b c -> R a c;
  ws_world : forall m w,
    oracle w = oracle (world m) ->
    (exists new, trace w = trace (world m) ++ new)%list ->
    R m (set_world w m)
}.

(** *** The numbers the program computes *)

(** [round(100*used/total, 2)], the percentage of a measurement. *)
Definition percentage (used total : Z) : Q :=
  Num.round2 (Num.fdiv (inject_Z (100 * used)) (inject_Z total)).

(** [round(old_limit_b / 1024/1024/1024, 2)], the content of [zfs_arc_max]
    in GB. *)
Definition gigabytes (old_limit_b : Z) : Q :=
  Num.round2 (Num.fdiv (Num.fdiv (Num.fdiv (inject_Z old_limit_b) 1024) 1024) 1024).

(** [int(total/1024 * (percent / 100))], a bound derived from the total. *)
Definition derived_gb (total : Z) (percent : Q) : Z :=
  Num.int (Num.fmul (Num.fdiv (inject_Z total) 1024) (Num.fdiv percent 100)).

(** [int(total/1024 * (percent / 100) / 4)], the derived [min_gb]. *)
Definition derived_min_gb (total : Z) (percent : Q) : Z :=
  Num.int (Num.fdiv (Num.fmul (Num.fdiv (inject_Z total) 1024)
                              (Num.fdiv percent 100)) 4).

(** *** The six rules, as the specification words them *)

(** The documented order: panic first. *)
Definition priority (r : rule) : nat :=
  match r with
  | Panic => 0
  | AboveMax => 1
  | BelowMin => 2
  | AboveGood => 3
  | BelowGood => 4
  | Steady => 5
  end.

Definition rule_condition (c : Cfg) (r : rule) (percent_used : Q) : Prop :=
  match r with
  | Panic => max_panic_percent c < percent_used
  | AboveMax => max_percent c < percent_used
  | BelowMin => percent_used < min_percent c
  | AboveGood => max_good_percent c < percent_used
  | BelowGood => percent_used < min_good_percent c
  | Steady => min_good_percent c <= percent_used <= max_good_percent c
  end.

(** First match wins: the condition of [r] holds and that of no rule
    before it does. *)
Definition applies (c : Cfg) (percent_used : Q) (r : rule) : Prop :=
  rule_condition c r percent_used /\
  forall r', (priority r' < priority r)%nat -> ~ rule_condition c r' percent_used.


(** *** The steady state *)

(** [relative] as the specification writes it, in exact arithmetic. *)
Definition relative (c : Cfg) (percent : Q) : Q :=
  (percent - min_good_percent c) / (max_good_percent c - min_good_percent c).

(** The limit of the steady branch as the specification writes it, in exact
    arithmetic. *)
Definition steady_target (c : Cfg) (lo hi percent : Q) : Q :=
  lo + (1 - relative c percent) * (hi - lo).

(** [f] tends to [y] as its argument tends to [x]. *)
Definition tends_to (f : Q -> Q) (x y : Q) : Prop :=
  forall eps, 0 < eps ->
    exists delta, 0 < delta /\
      forall p, Qabs (p - x) < delta -> Qabs (f p - y) < eps.

(** *** The bounds *)

(** The four bounds of [c] are set and ordered. *)
Definition ordered_bounds (c : Cfg) (lo glo ghi hi : Q) : Prop :=
  min_gb c = Some lo /\ min_good_gb c = Some glo /\
  max_good_gb c = Some ghi /\ max_gb c = Some hi /\
  lo <= glo /\ glo <= ghi /\ ghi <= hi.

(** [l] lies within [[min_gb, max_gb]] of [c]. *)
Definition within_limits (c : Cfg) (l : Q) : Prop :=
  exists lo hi, min_gb c = Some lo /\ max_gb c = Some hi /\ lo <= l <= hi.

Definition same_cfg (m m' : Machine) : Prop := cfg m' = cfg m.

(** The invariant of the loop: the configuration is [c] and the limit is
    between [lo] and [hi]. *)
Definition bounded (c : Cfg) (lo hi : Q) (f : Frame) : Prop :=
  cfg (mach f) = c /\ lo <= limit_gb f <= hi.

Definition keeps (c : Cfg) (lo hi : Q) {A} (_ : result A) (f : Frame) : Prop :=
  bounded c lo hi f.

(** A postcondition that accepts every interrupted run that ends within
    the invariant. *)
Definition lenient (c : Cfg) (lo hi : Q) {A}
    (Q : result A -> Frame -> Prop) : Prop :=
  forall f, bounded c lo hi f -> (forall e, Q (Raise e) f) /\ Q OutOfFuel f.

(** [limit_init]'s choice between the value read and the two bounds. *)
Definition clamp (lo hi v : Q) : Q :=
  if v <? lo then lo else if v >? hi then hi else v.

(** The two readings of [free] and the percentage, as [limit_init] takes
    them before it calls [adjust]. *)
Definition ram_percent : M Machine Q :=
  total <- get_ram_total;;
  used <- get_ram_used;;
  percent_of used total.

(** *** The panic branch *)

(** The locals of [run] are out of reach of everything called from it. *)
Definition same_locals (f f' : Frame) : Prop :=
  limit_gb f' = limit_gb f /\ primarycache f' = primarycache f.

(** The mode the panic branch switches to. *)
Definition toggled (pc : option string) : string :=
  if option_string_eqb pc "metadata" then "none" else "metadata".

(** The iteration that starts in [f] measures a percentage above
    [max_panic_percent]. *)
Definition panic_triggering (f : Frame) : Prop :=
  exists total used f1,
    reading f = (Ok (total, used), f1) /\ total <> 0%Z /\
    max_panic_percent (cfg (mach f1)) <
      percentage used total.

(** *** The two writes of [adjust] *)

(** Whether the write of [v] to [t], asked when [n] events have happened,
    goes through. *)
Definition write_succeeds (w : World) (n : nat) (t : tunable) (v : Z) : bool :=
  match tunables w t with
  | Some _ => write_ok (oracle w) n t v
  | None => false
  end.

(** A write to [t] is among [events], whatever its content. *)
Definition attempted (t : tunable) (events : list event) : Prop :=
  exists v, In (EvWrite t v) events.

(** *** The schema of [free] *)

(** The global [free_version] is the same before and after. *)
Definition same_free_version (m m' : Machine) : Prop :=
  free_version m' = free_version m.

Definition same_free_version_in_frame (f f' : Frame) : Prop :=
  same_free_version (mach f) (mach f').

(** *** Before the lock is held *)

(** What the script does before it holds the lock. *)
Definition startup_event (e : event) : Prop :=
  match e with
  | EvRun CmdFree | EvExists _ | EvPrint (LineMissing _)
  | EvOpenLock | EvFlock | EvLogError => True
  | _ => False
  end.

(** From [m] to [m'] only such events happened and no sysfs file changed. *)
Definition startup_only (m m' : Machine) : Prop :=
  oracle (world m') = oracle (world m) /\
  tunables (world m') = tunables (world m) /\
  lock_held_elsewhere (world m') = lock_held_elsewhere (world m) /\
  exists new,
    trace (world m') = (trace (world m) ++ new)%list /\ Forall startup_event new.

(** The process has ended with a status other than 0. *)
Definition failed (r : result unit) : Prop :=
  exists code, exit_status r = Some code /\ code <> 0%Z.

(** [mc] only does startup things and never asks for exit status 0. *)
Definition harmless {A} (mc : M Machine A) : Prop :=
  forall m,
    startup_only m (snd (mc m)) /\
    fst (mc m) <> OutOfFuel /\
    fst (mc m) <> Raise (SystemExit 0).

(** *** The overrides *)

(** The four [if not cfg.x: cfg.x = int(...)] statements of [auto_limits],
    as functions of [cfg] once the total is known. *)
Definition fill_min_gb (total : Z) (c : Cfg) : Cfg :=
  if falsy (min_gb c)
  then set_min_gb
         (Some (inject_Z (derived_min_gb total (min_percent c)))) c
  else c.

Definition fill_max_gb (total : Z) (c : Cfg) : Cfg :=
  if falsy (max_gb c)
  then set_max_gb
         (Some (inject_Z (derived_gb total (max_percent c)))) c
  else c.

Definition fill_min_good_gb (total : Z) (c : Cfg) : Cfg :=
  if falsy (min_good_gb c)
  then set_min_good_gb
         (Some (inject_Z (derived_gb total (min_good_percent c)))) c
  else c.

Definition fill_max_good_gb (total : Z) (c : Cfg) : Cfg :=
  if falsy (max_good_gb c)
  then set_max_good_gb
         (Some (inject_Z (derived_gb total (max_good_percent c)))) c
  else c.

Definition fill (total : Z) (c : Cfg) : Cfg :=
  fill_max_good_gb total
    (fill_min_good_gb total (fill_max_gb total (fill_min_gb total c))).

(** The process as the interpreter starts it with [c] parsed from the
    command line, everything else as in [m]. *)
Definition started_with (c : Cfg) (m : Machine) : Machine := set_cfg c m.

(* ================================================================== *)
(** ** What the further properties are stated with *)
(* ================================================================== *)

(** *** Startup *)

(** The percentages are non-negative and in their documented order. *)
Definition thresholds_ordered (c : Cfg) : Prop :=
  0 <= min_percent c /\
  min_percent c <= min_good_percent c /\
  min_good_percent c <= max_good_percent c /\
  max_good_percent c <= max_percent c.

(** No bound was given on the command line. *)
Definition no_overrides (c : Cfg) : Prop :=
  min_gb c = None /\ max_gb c = None /\
  min_good_gb c = None /\ max_good_gb c = None.

(** What [auto_limits] leaves in a bound: the override when it counts as
    given, the derived value otherwise. *)
Definition kept_or_derived (before : option Q) (derived : Q) : option Q :=
  if falsy before then Some derived else before.

(** *** The rules of the loop *)

(** What a computation called from [run] may change: the world, never the
    locals of [run] nor the configuration. *)
Definition same_run_state (f f' : Frame) : Prop :=
  limit_gb f' = limit_gb f /\ primarycache f' = primarycache f /\
  cfg (mach f') = cfg (mach f).

(** The frame after running the branch [step] once for each percentage of
    [ps], one after the other, whatever each run ends in. *)
Fixpoint repeated {S} (step : Q -> M S unit) (ps : list Q) (s : S) : S :=
  match ps with
  | [] => s
  | p :: ps' => repeated step ps' (snd (step p s))
  end.

(** *** How computations end *)

(** No sleep is ever interrupted. *)
Definition no_interrupts (o : Oracle) : Prop :=
  forall k, interrupted o k = false.

(** [m] leaves the oracle alone, does not depend on fuel, and raises
    [KeyboardInterrupt] only if a sleep can be interrupted. *)
Definition tame {S A} (ora : S -> Oracle) (m : M S A) : Prop :=
  forall s,
    ora (snd (m s)) = ora s /\
    fst (m s) <> OutOfFuel /\
    (no_interrupts (ora s) -> fst (m s) <> Raise KeyboardInterrupt).

Definition machine_oracle (m : Machine) : Oracle := oracle (world m).

Definition frame_oracle (f : Frame) : Oracle := oracle (world (mach f)).

(** *** What a computation does to the world *)

(** The events of [run] and of everything it calls. *)
Definition run_event (e : event) : Prop :=
  match e with
  | EvSleep _ | EvRun _ | EvRead _ | EvWrite _ _ | EvPrint _ | EvLogError => True
  | _ => False
  end.

(** From [m] to [m'] the world has moved by events satisfying [P] only: the
    sysfs files are as they were unless [P] allows a write, the lock file is
    as it was unless [P] allows opening or removing it. *)
Definition footprint (P : event -> Prop) (m m' : Machine) : Prop :=
  oracle (world m') = oracle (world m) /\
  lock_held_elsewhere (world m') = lock_held_elsewhere (world m) /\
  (exists new,
     trace (world m') = (trace (world m) ++ new)%list /\ Forall P new) /\
  ((forall t v, ~ P (EvWrite t v)) -> tunables (world m') = tunables (world m)) /\
  (~ P EvOpenLock -> ~ P EvRemoveLock ->
   lock_file_exists (world m') = lock_file_exists (world m)).

(** A relation on module states, seen from inside [run]. *)
Definition in_frame (R : Machine -> Machine -> Prop) (f f' : Frame) : Prop :=
  R (mach f) (mach f').

Definition same_got_lock (m m' : Machine) : Prop := got_lock m' = got_lock m.

(** What the panic branch does. *)
Definition panic_event (e : event) : Prop :=
  match e with
  | EvPrint (LinePanic _ _)
  | EvRun CmdDropCaches | EvRun CmdZpoolList | EvRun (CmdZfsSet _ _)
  | EvRun CmdRestartCrashplan => True
  | _ => False
  end.

(** What the script does before it looks at the lock. *)
Definition check_event (e : event) : Prop :=
  match e with
  | EvRun CmdFree | EvExists _ | EvPrint (LineMissing _) => True
  | _ => False
  end.

(** Everything but the removal of the lock file. *)
Definition not_removal (e : event) : Prop :=
  match e with
  | EvRemoveLock => False
  | _ => True
  end.

(* ================================================================== *)
(** ** Further configurations and worlds *)
(* ================================================================== *)

Module Scenario.



(** [-m 40 -M 58 -g 50 -G 55 --min-gb 2 --min-good-gb 10 --max-good-gb 20]
    on a machine with 102400 MB. *)
Definition machine_100g : Machine :=
  boot (set_max_gb None Sample.max_58)
    (Sample.fresh
       (Sample.calm (Sample.free_new
          "Mem:         102400       30000        1000         100       71400       70000"))
       8589934592 10737418240).

(** [-m 0.01 -g 0.01 -G 94] on a machine of 36448043830541766656 MB, of
    which 3644804383054176 are in use. *)
Definition huge_machine : Machine :=
  boot (mkCfg false false false false (Num.float 0.01) 94 (Num.float 0.01) 94
          None None None None 97 [])
    (Sample.fresh
       (Sample.calm (Sample.free_new
          "Mem: 36448043830541766656 3644804383054176 1 1 1 36444399026158712480"))
       8589934592 10737418240).

(** A machine on which the ZFS module is not loaded: neither tunable file
    exists. *)
Definition no_module : World :=
  mkWorld (Sample.calm (Sample.free_new Sample.mem_95)) [] (fun _ => None)
    false false.

(** An outside like [Sample.calm] where the first sleep is interrupted. *)
Definition stopped_at_once (ram : list string) : Oracle :=
  mkOracle
    (fun _ c => match c with CmdFree => Some ram | _ => Some [] end)
    (fun _ _ _ => true)
    (fun _ => true)
    (fun _ => true).

(** A fresh world in which the operator presses Ctrl-C during the first
    sleep. *)
Definition short_session : World :=
  Sample.fresh (stopped_at_once (Sample.free_new Sample.mem_95))
    10737418240 12884901888.

(** A machine at 89.03 percent with a good band of 10 to 20 GB and the
    limit at 10 GB. *)
Definition steady_machine : Machine :=
  boot Sample.band_10_20
    (Sample.fresh (Sample.calm (Sample.free_new Sample.mem_8903))
       8589934592 10737418240).

End Scenario.

(** *** Which exceptions a computation lets out *)

(** Every exception [m] raises satisfies [P]. *)
Definition raises_only {S A} (P : exn -> Prop) (m : M S A) : Prop :=
  forall s e, fst (m s) = Raise e -> P e.

(** Any exception but [SystemExit]. *)
Definition not_an_exit (e : exn) : Prop :=
  match e with
  | SystemExit _ => False
  | _ => True
  end.

(** *** The files and the limit *)

(** Every write to a tunable is accepted: both files exist and the kernel
    takes whatever is written. *)
Definition writable (w : World) : Prop :=
  (forall n t v, write_ok (oracle w) n t v = true) /\
  (forall t, tunables w t <> None).

(** The two files hold what [adjust] derives from the limit of [run]. *)
Definition files_follow (f : Frame) : Prop :=
  tunables (world (mach f)) zfs_arc_max =
    Some (Num.int (limit_gb f * 1024 * 1024 * 1024)) /\
  tunables (world (mach f)) zfs_arc_meta_limit =
    Some (Num.int ((limit_gb f - 2) * 1024 * 1024 * 1024)).

Definition synced (f : Frame) : Prop :=
  writable (world (mach f)) /\ files_follow f.

(** Everything but a write to a tunable. *)
Definition not_a_write (e : event) : Prop :=
  match e with
  | EvWrite _ _ => False
  | _ => True
  end.

(** *** How often a file is written *)

Definition is_write_to (t : tunable) (e : event) : bool :=
  match e with
  | EvWrite t' _ => tunable_eqb t' t
  | _ => false
  end.

(** The number of writes to [t] among [events]. *)
Definition writes_to (t : tunable) (events : list event) : nat :=
  List.length (filter (is_write_to t) events).

(** From [m] to [m'] the file [t] was written at most [k] times. *)
Definition wrote_at_most (t : tunable) (k : nat) (m m' : Machine) : Prop :=
  exists new,
    trace (world m') = (trace (world m) ++ new)%list /\
    (writes_to t new <= k)%nat.

(** No two writes to [t] among [events] without a sleep in between;
    [fresh] tells whether a write may come before the first sleep. *)
Fixpoint spaced (t : tunable) (fresh : bool) (events : list event) : bool :=
  match events with
  | [] => true
  | EvSleep _ :: rest => spaced t true rest
  | e :: rest =>
      if is_write_to t e then fresh && spaced t false rest
      else spaced t fresh rest
  end.

(* ================================================================== *)
(** ** Facts about numbers *)
(* ================================================================== *)

Lemma ltb_true (x y : Q) : (x <? y) = true <-> x < y.
Proof.
  unfold Num.ltb. rewrite negb_true_iff.
  split; intro H.
  - apply Qnot_le_lt. intro L. apply Qle_bool_iff in L. congruence.
  - destruct (Qle_bool y x) eqn:E; [|reflexivity].
    apply Qle_bool_iff in E. lra.
Qed.

Lemma ltb_false (x y : Q) : (x <? y) = false <-> y <= x.
Proof.
  unfold Num.ltb. rewrite negb_false_iff. apply Qle_bool_iff.
Qed.

Lemma gtb_true (x y : Q) : (x >? y) = true <-> y < x.
Proof. apply ltb_true. Qed.

Lemma gtb_false (x y : Q) : (x >? y) = false <-> x <= y.
Proof. apply ltb_false. Qed.

Lemma floor_bounds (x : Q) : inject_Z (Qfloor x) <= x < inject_Z (Qfloor x) + 1.
Proof.
  split; [apply Qfloor_le|].
  pose proof (Qlt_floor x) as H. rewrite inject_Z_plus in H. exact H.
Qed.

Lemma round_half_even_cases (x : Q) :
  (Num.round_half_even x = Qfloor x /\ x - inject_Z (Qfloor x) <= 1 # 2) \/
  (Num.round_half_even x = (Qfloor x + 1)%Z /\ 1 # 2 <= x - inject_Z (Qfloor x)).
Proof.
  unfold Num.round_half_even.
  destruct (Qcompare (x - inject_Z (Qfloor x)) (1 # 2)) eqn:E.
  - apply Qeq_alt in E. destruct (Z.even (Qfloor x)); [left | right]; split; auto; lra.
  - apply Qlt_alt in E. left; split; auto; lra.
  - apply Qgt_alt in E. right; split; auto; lra.
Qed.

Lemma round_half_even_lower (n : Z) (x : Q) :
  inject_Z n <= x -> (n <= Num.round_half_even x)%Z.
Proof.
  intro H. apply Qfloor_resp_le in H. rewrite Qfloor_Z in H.
  destruct (round_half_even_cases x) as [[-> _] | [-> _]]; lia.
Qed.

Lemma round_half_even_upper (n : Z) (x : Q) :
  x <= inject_Z n -> (Num.round_half_even x <= n)%Z.
Proof.
  intro H. pose proof (floor_bounds x) as [F1 F2].
  assert (L : (Qfloor x <= n)%Z).
  { apply Qfloor_resp_le in H. now rewrite Qfloor_Z in H. }
  destruct (round_half_even_cases x) as [[-> _] | [-> G]]; [lia|].
  destruct (Z.eq_dec (Qfloor x) n) as [e | ne]; [|lia].
  rewrite e in G. lra.
Qed.

Lemma round_half_even_error (x : Q) :
  - (1 # 2) <= inject_Z (Num.round_half_even x) - x <= 1 # 2.
Proof.
  pose proof (floor_bounds x) as [F1 F2].
  destruct (round_half_even_cases x) as [[-> G] | [-> G]].
  - lra.
  - rewrite inject_Z_plus. change (inject_Z 1) with 1. lra.
Qed.

Lemma Qfloor_wd (x y : Q) : x == y -> Qfloor x = Qfloor y.
Proof.
  intro H. apply Z.le_antisymm; apply Qfloor_resp_le; rewrite H; apply Qle_refl.
Qed.

Lemma round_half_even_wd (x y : Q) :
  x == y -> Num.round_half_even x = Num.round_half_even y.
Proof.
  intro H. unfold Num.round_half_even.
  rewrite (Qfloor_wd x y H).
  assert (E : x - inject_Z (Qfloor y) == y - inject_Z (Qfloor y)) by (rewrite H; reflexivity).
  rewrite E. reflexivity.
Qed.

Lemma round_half_even_Z (n : Z) : Num.round_half_even (inject_Z n) = n.
Proof.
  apply Z.le_antisymm.
  - apply round_half_even_upper, Qle_refl.
  - apply round_half_even_lower, Qle_refl.
Qed.

Lemma round_half_even_monotone (x y : Q) :
  x <= y -> (Num.round_half_even x <= Num.round_half_even y)%Z.
Proof.
  intro H.
  destruct (round_half_even_cases x) as [[Ex Gx] | [Ex Gx]].
  - rewrite Ex. apply round_half_even_lower.
    pose proof (floor_bounds x). lra.
  - destruct (Qlt_le_dec y (inject_Z (Qfloor x) + 1)) as [L | L].
    + assert (Fy : Qfloor y = Qfloor x).
      { apply Z.le_antisymm.
        - assert (A : (Qfloor y < Qfloor x + 1)%Z).
          { rewrite Zlt_Qlt. rewrite inject_Z_plus. change (inject_Z 1) with 1.
            pose proof (floor_bounds y). lra. }
          lia.
        - apply Qfloor_resp_le, H. }
      destruct (Qlt_le_dec x y) as [S | S].
      * destruct (round_half_even_cases y) as [[Ey Gy] | [Ey Gy]].
        -- rewrite Fy in Gy. lra.
        -- rewrite Ex, Ey, Fy. lia.
      * assert (E : x == y) by lra.
        rewrite (round_half_even_wd x y E). lia.
    + rewrite Ex. apply round_half_even_lower.
      rewrite inject_Z_plus. exact L.
Qed.

Lemma Qfloor_opp_frac (x : Q) :
  ~ x == inject_Z (Qfloor x) -> Qfloor (- x) = (- Qfloor x - 1)%Z.
Proof.
  intro H. pose proof (floor_bounds x) as [A B].
  pose proof (floor_bounds (- x)) as [C D].
  assert (L1 : (Qfloor (- x) < - Qfloor x)%Z).
  { rewrite Zlt_Qlt, inject_Z_opp. lra. }
  assert (L2 : (- Qfloor x - 1 < Qfloor (- x) + 1)%Z).
  { rewrite Zlt_Qlt. unfold Z.sub. rewrite !inject_Z_plus, !inject_Z_opp.
    change (inject_Z 1) with 1. lra. }
  lia.
Qed.

Ltac qcompare H :=
  match type of H with
  | (_ ?= _) = Eq => apply Qeq_alt in H
  | (_ ?= _) = Lt => apply Qlt_alt in H
  | (_ ?= _) = Gt => apply Qgt_alt in H
  end.

Lemma round_half_even_opp (x : Q) :
  Num.round_half_even (- x) = (- Num.round_half_even x)%Z.
Proof.
  destruct (Qeq_dec x (inject_Z (Qfloor x))) as [E | N].
  - rewrite (round_half_even_wd x _ E), round_half_even_Z.
    assert (E' : - x == inject_Z (- Qfloor x)) by (rewrite inject_Z_opp, <- E; reflexivity).
    rewrite (round_half_even_wd _ _ E'), round_half_even_Z. reflexivity.
  - pose proof (Qfloor_opp_frac x N) as F.
    pose proof (floor_bounds x) as [A B].
    unfold Num.round_half_even. rewrite F.
    unfold Z.sub at 1. rewrite !inject_Z_plus, !inject_Z_opp.
    change (inject_Z 1) with 1.
    destruct (Qcompare (x - inject_Z (Qfloor x)) (1 # 2)) eqn:C1;
      destruct (Qcompare (- x - (- inject_Z (Qfloor x) + - (1))) (1 # 2)) eqn:C2;
      qcompare C1; qcompare C2; try lra; try lia.
    replace (- Qfloor x - 1)%Z with (- (Qfloor x + 1))%Z by lia.
    rewrite Z.even_opp, Z.even_add. cbn.
    destruct (Z.even (Qfloor x)); cbn; lia.
Qed.

(** *** Powers of two *)

Lemma two_neq_0 : ~ (2 : Q) == 0.
Proof. discriminate. Qed.

Lemma pow2_pos (k : Z) : 0 < (2 : Q) ^ k.
Proof. apply Qpower_0_lt. reflexivity. Qed.

Lemma pow2_plus (a b : Z) : (2 : Q) ^ (a + b) == 2 ^ a * 2 ^ b.
Proof. apply Qpower_plus, two_neq_0. Qed.

Lemma pow2_succ (a : Z) : (2 : Q) ^ (a + 1) == 2 * 2 ^ a.
Proof. rewrite pow2_plus. change ((2 : Q) ^ 1) with (2 : Q). ring. Qed.

Lemma pow2_le (a b : Z) : (a <= b)%Z -> (2 : Q) ^ a <= 2 ^ b.
Proof. intro H. apply Qpower_le_compat_l; [exact H | discriminate]. Qed.

Lemma pow2_lt_inv (a b : Z) : (2 : Q) ^ a < 2 ^ b -> (a < b)%Z.
Proof. intro H. apply (Qpower_lt_compat_l_inv 2); [exact H | reflexivity]. Qed.

Lemma pow2_Z (a : Z) : (0 <= a)%Z -> (2 : Q) ^ a == inject_Z (2 ^ a).
Proof. intro H. rewrite Zpower_Qpower by exact H. reflexivity. Qed.

(** *** The binade of a number *)

Lemma ilog2_spec (x : Q) :
  0 < x -> 2 ^ Num.ilog2 x <= x /\ x < 2 ^ (Num.ilog2 x + 1).
Proof.
  intro Hx. destruct x as [n d]. unfold Num.ilog2. cbn [Qnum Qden].
  assert (Hn : (0 < n)%Z) by (unfold Qlt in Hx; cbn in Hx; lia).
  set (a := Z.log2 n). set (b := Z.log2 (Z.pos d)).
  assert (Ha : (0 <= a)%Z) by apply Z.log2_nonneg.
  assert (Hb : (0 <= b)%Z) by apply Z.log2_nonneg.
  destruct (Z.log2_spec n Hn) as [A1 A2].
  destruct (Z.log2_spec (Z.pos d) (Pos2Z.is_pos d)) as [B1 B2].
  fold a in A1, A2. fold b in B1, B2.
  rewrite Zle_Qle in A1, B1. rewrite Zlt_Qlt in A2, B2.
  rewrite <- Z.add_1_r in A2, B2.
  rewrite <- pow2_Z in A1, B1 by assumption.
  rewrite <- pow2_Z in A2, B2 by lia.
  rewrite pow2_succ in A2, B2.
  pose proof (pow2_pos a) as Pa. pose proof (pow2_pos b) as Pb.
  assert (K : (2 : Q) ^ (a - b) * 2 ^ b == 2 ^ a).
  { rewrite <- pow2_plus. replace (a - b + b)%Z with a by lia. reflexivity. }
  assert (X : (n # d) * inject_Z (Z.pos d) == inject_Z n).
  { rewrite (Qmake_Qdiv n d). field. discriminate. }
  pose proof (pow2_pos (a - b)) as Pk.
  destruct (Qle_bool (2 ^ (a - b)) (n # d)) eqn:E.
  - apply Qle_bool_iff in E. split; [exact E|].
    rewrite pow2_succ. nra.
  - assert (L : n # d < 2 ^ (a - b)).
    { apply Qnot_le_lt. intro C. apply Qle_bool_iff in C. congruence. }
    replace (a - b - 1 + 1)%Z with (a - b)%Z by lia.
    split; [| exact L].
    assert (K' : (2 : Q) ^ (a - b - 1) * 2 == 2 ^ (a - b)).
    { replace (a - b)%Z with (a - b - 1 + 1)%Z at 2 by lia.
      rewrite pow2_succ. ring. }
    pose proof (pow2_pos (a - b - 1)) as Pk'.
    nra.
Qed.

Lemma ilog2_unique (x : Q) (e : Z) :
  2 ^ e <= x -> x < 2 ^ (e + 1) -> Num.ilog2 x = e.
Proof.
  intros L U.
  assert (Hx : 0 < x) by (pose proof (pow2_pos e); lra).
  destruct (ilog2_spec x Hx) as [L' U'].
  assert (A : (e < Num.ilog2 x + 1)%Z) by (apply pow2_lt_inv; lra).
  assert (B : (Num.ilog2 x < e + 1)%Z) by (apply pow2_lt_inv; lra).
  lia.
Qed.

Lemma ilog2_wd (x y : Q) : 0 < x -> x == y -> Num.ilog2 x = Num.ilog2 y.
Proof.
  intros Hx E. destruct (ilog2_spec x Hx) as [L U].
  symmetry. apply ilog2_unique; rewrite <- E; assumption.
Qed.

Lemma ulp_pos (x : Q) : 0 < Num.ulp x.
Proof. apply pow2_pos. Qed.

Lemma ulp_wd (x y : Q) : ~ x == 0 -> x == y -> Num.ulp x == Num.ulp y.
Proof.
  intros N E. unfold Num.ulp.
  assert (P : 0 < Qabs x).
  { pose proof (Qabs_nonneg x). destruct (Qeq_dec (Qabs x) 0) as [Z0 | NZ]; [| lra].
    exfalso. apply N. revert Z0. apply Qabs_case; intros; lra. }
  rewrite (ilog2_wd (Qabs x) (Qabs y) P) by (rewrite E; reflexivity).
  reflexivity.
Qed.

Lemma ulp_opp (x : Q) : Num.ulp (- x) = Num.ulp x.
Proof.
  unfold Num.ulp. destruct (Qeq_dec x 0) as [E | N].
  - f_equal. f_equal. destruct x as [n d]. unfold Qeq in E. cbn in E.
    assert (n = 0%Z) by lia. subst n. reflexivity.
  - f_equal. f_equal. apply ilog2_wd; [| apply Qabs_opp].
    pose proof (Qabs_nonneg (- x)).
    destruct (Qeq_dec (Qabs (- x)) 0) as [Z0 | NZ]; [| lra].
    exfalso. apply N. revert Z0. apply Qabs_case; intros; lra.
Qed.

(** [x] scaled to its mantissa lies in [[2^52, 2^53)]. *)
Lemma mantissa_range (x : Q) :
  0 < x -> 2 ^ 52 <= x / Num.ulp x /\ x / Num.ulp x < 2 ^ 53.
Proof.
  intro Hx. unfold Num.ulp.
  assert (A : Qabs x == x) by (apply Qabs_pos; lra).
  rewrite (ilog2_wd (Qabs x) x) by (first [exact A | rewrite A; exact Hx]).
  destruct (ilog2_spec x Hx) as [L U].
  set (e := Num.ilog2 x) in *.
  pose proof (pow2_pos (e - 52)) as P.
  assert (K : (2 : Q) ^ 52 * 2 ^ (e - 52) == 2 ^ e).
  { rewrite <- pow2_plus. replace (52 + (e - 52))%Z with e by lia. reflexivity. }
  assert (K' : (2 : Q) ^ 53 * 2 ^ (e - 52) == 2 ^ (e + 1)).
  { rewrite <- pow2_plus. replace (53 + (e - 52))%Z with (e + 1)%Z by lia. reflexivity. }
  split.
  - apply Qle_shift_div_l; [exact P|]. rewrite K. exact L.
  - apply Qlt_shift_div_r; [exact P|]. rewrite K'. exact U.
Qed.

(** *** The nearest double *)

Lemma float_unfold (x : Q) :
  ~ x == 0 ->
  Num.float x = inject_Z (Num.round_half_even (x / Num.ulp x)) * Num.ulp x.
Proof.
  intro N. unfold Num.float.
  destruct (Qeq_bool x 0) eqn:E; [| reflexivity].
  apply Qeq_bool_iff in E. contradiction.
Qed.

Lemma float_zero (x : Q) : x == 0 -> Num.float x = 0.
Proof.
  intro E. unfold Num.float. apply Qeq_bool_iff in E. rewrite E. reflexivity.
Qed.

Lemma float_wd (x y : Q) : x == y -> Num.float x == Num.float y.
Proof.
  intro E. destruct (Qeq_dec x 0) as [Z0 | N].
  - rewrite (float_zero x Z0), (float_zero y) by (rewrite <- E; exact Z0). reflexivity.
  - assert (N' : ~ y == 0) by (rewrite <- E; exact N).
    rewrite (float_unfold x N), (float_unfold y N').
    pose proof (ulp_wd x y N E) as U.
    rewrite (round_half_even_wd (x / Num.ulp x) (y / Num.ulp y)).
    + rewrite U. reflexivity.
    + rewrite U, E. reflexivity.
Qed.

#[global] Instance float_morphism : Proper (Qeq ==> Qeq) Num.float.
Proof. intros x y E. apply float_wd, E. Qed.

Lemma float_opp (x : Q) : Num.float (- x) == - Num.float x.
Proof.
  destruct (Qeq_dec x 0) as [Z0 | N].
  - rewrite (float_zero x Z0), (float_zero (- x)) by (rewrite Z0; reflexivity). reflexivity.
  - assert (N' : ~ - x == 0) by (intro H; apply N; lra).
    rewrite (float_unfold x N), (float_unfold (- x) N'), ulp_opp.
    assert (E : - x / Num.ulp x == - (x / Num.ulp x)).
    { field. pose proof (ulp_pos x). lra. }
    rewrite (round_half_even_wd _ _ E), round_half_even_opp, inject_Z_opp. ring.
Qed.

Lemma float_binade (x : Q) :
  0 < x ->
  2 ^ Num.ilog2 x <= Num.float x /\ Num.float x <= 2 ^ (Num.ilog2 x + 1).
Proof.
  intro Hx. rewrite float_unfold by lra.
  destruct (mantissa_range x Hx) as [L U].
  assert (A : (2 ^ 52 <= Num.round_half_even (x / Num.ulp x))%Z).
  { apply round_half_even_lower. rewrite <- pow2_Z by lia. exact L. }
  assert (B : (Num.round_half_even (x / Num.ulp x) <= 2 ^ 53)%Z).
  { apply round_half_even_upper. rewrite <- pow2_Z by lia. lra. }
  rewrite Zle_Qle in A, B. rewrite <- pow2_Z in A, B by lia.
  unfold Num.ulp in *.
  assert (E : Num.ilog2 (Qabs x) = Num.ilog2 x).
  { apply ilog2_wd; [rewrite Qabs_pos; lra | apply Qabs_pos; lra]. }
  rewrite E in *.
  set (e := Num.ilog2 x) in *.
  pose proof (pow2_pos (e - 52)) as P.
  assert (K : (2 : Q) ^ 52 * 2 ^ (e - 52) == 2 ^ e).
  { rewrite <- pow2_plus. replace (52 + (e - 52))%Z with e by lia. reflexivity. }
  assert (K' : (2 : Q) ^ 53 * 2 ^ (e - 52) == 2 ^ (e + 1)).
  { rewrite <- pow2_plus. replace (53 + (e - 52))%Z with (e + 1)%Z by lia. reflexivity. }
  split.
  - rewrite <- K. apply Qmult_le_compat_r; [exact A | lra].
  - rewrite <- K'. apply Qmult_le_compat_r; [exact B | lra].
Qed.

Lemma float_pos (x : Q) : 0 < x -> 0 < Num.float x.
Proof.
  intro Hx. destruct (float_binade x Hx) as [L _].
  pose proof (pow2_pos (Num.ilog2 x)). lra.
Qed.

Lemma float_nonneg (x : Q) : 0 <= x -> 0 <= Num.float x.
Proof.
  intro Hx. destruct (Qeq_dec x 0) as [Z0 | N].
  - rewrite (float_zero x Z0). lra.
  - apply Qlt_le_weak, float_pos. lra.
Qed.

Lemma float_nonpos (x : Q) : x <= 0 -> Num.float x <= 0.
Proof.
  intro Hx. assert (H : 0 <= Num.float (- x)) by (apply float_nonneg; lra).
  rewrite float_opp in H. lra.
Qed.

Lemma float_monotone_pos (x y : Q) :
  0 < x -> x <= y -> Num.float x <= Num.float y.
Proof.
  intros Hx H. assert (Hy : 0 < y) by lra.
  destruct (ilog2_spec x Hx) as [Lx Ux]. destruct (ilog2_spec y Hy) as [Ly Uy].
  assert (Le : (Num.ilog2 x <= Num.ilog2 y)%Z).
  { assert (A : (Num.ilog2 x < Num.ilog2 y + 1)%Z) by (apply pow2_lt_inv; lra). lia. }
  destruct (Z.eq_dec (Num.ilog2 x) (Num.ilog2 y)) as [E | NE].
  - rewrite (float_unfold x), (float_unfold y) by lra.
    assert (U : Num.ulp x = Num.ulp y).
    { unfold Num.ulp.
      rewrite (ilog2_wd (Qabs x) x), (ilog2_wd (Qabs y) y), E;
        first [ reflexivity | apply Qabs_pos; lra | rewrite Qabs_pos; lra ]. }
    rewrite U. pose proof (ulp_pos y) as P.
    assert (M : (Num.round_half_even (x / Num.ulp y)
                 <= Num.round_half_even (y / Num.ulp y))%Z).
    { apply round_half_even_monotone.
      apply Qmult_le_compat_r; [exact H|]. apply Qlt_le_weak, Qinv_lt_0_compat, P. }
    rewrite Zle_Qle in M. nra.
  - destruct (float_binade x Hx) as [_ Bx]. destruct (float_binade y Hy) as [By _].
    assert (S : (2 : Q) ^ (Num.ilog2 x + 1) <= 2 ^ Num.ilog2 y) by (apply pow2_le; lia).
    lra.
Qed.

Lemma float_monotone (x y : Q) : x <= y -> Num.float x <= Num.float y.
Proof.
  intro H. destruct (Qlt_le_dec 0 x) as [Px | Nx].
  - apply float_monotone_pos; assumption.
  - destruct (Qlt_le_dec y 0) as [Ny | Py].
    + assert (G : Num.float (- y) <= Num.float (- x))
        by (apply float_monotone_pos; lra).
      rewrite !float_opp in G. lra.
    + pose proof (float_nonpos x Nx). pose proof (float_nonneg y Py). lra.
Qed.

(** A number with a mantissa of 53 bits is its own double. *)
Lemma float_exact_normal (m k : Z) :
  (2 ^ 52 <= m < 2 ^ 53)%Z ->
  Num.float (inject_Z m * 2 ^ k) == inject_Z m * 2 ^ k.
Proof.
  intros [L U]. pose proof (pow2_pos k) as P.
  rewrite Zle_Qle in L. rewrite Zlt_Qlt in U.
  rewrite <- pow2_Z in L, U by lia.
  set (x := inject_Z m * 2 ^ k).
  assert (P52 : 0 < (2 : Q) ^ 52) by apply pow2_pos.
  assert (Hx : 0 < x) by (subst x; nra).
  assert (E : Num.ilog2 x = (k + 52)%Z).
  { apply ilog2_unique; subst x.
    - rewrite (Z.add_comm k 52), pow2_plus. nra.
    - replace (k + 52 + 1)%Z with (53 + k)%Z by lia. rewrite pow2_plus. nra. }
  rewrite float_unfold by lra.
  assert (Ux : Num.ulp x = 2 ^ k).
  { unfold Num.ulp.
    rewrite (ilog2_wd (Qabs x) x), E;
      first [ f_equal; lia | apply Qabs_pos; lra | rewrite Qabs_pos; lra ]. }
  rewrite Ux.
  assert (D : x / 2 ^ k == inject_Z m) by (subst x; field; lra).
  rewrite (round_half_even_wd _ _ D), round_half_even_Z. reflexivity.
Qed.

Lemma float_exact_pos (m k : Z) :
  (0 < m <= 2 ^ 53)%Z ->
  Num.float (inject_Z m * 2 ^ k) == inject_Z m * 2 ^ k.
Proof.
  intros [L U].
  destruct (Z.log2_spec m L) as [A B]. rewrite <- Z.add_1_r in B.
  set (j := Z.log2 m) in *.
  assert (Hj : (0 <= j)%Z) by apply Z.log2_nonneg.
  assert (J : (j <= 53)%Z).
  { destruct (Z_le_gt_dec j 53) as [G | G]; [exact G|]. exfalso.
    assert (S : (2 ^ 54 <= 2 ^ j)%Z) by (apply Z.pow_le_mono_r; lia). lia. }
  destruct (Z.eq_dec j 53) as [E | NE].
  - assert (M : m = (2 ^ 53)%Z) by (rewrite E in A; lia).
    rewrite M.
    assert (R : inject_Z (2 ^ 53) * 2 ^ k == inject_Z (2 ^ 52) * 2 ^ (k + 1)).
    { rewrite pow2_succ. change (inject_Z (2 ^ 53)) with (2 * inject_Z (2 ^ 52)). ring. }
    rewrite R. apply float_exact_normal. lia.
  - assert (R : inject_Z m * 2 ^ k ==
                inject_Z (m * 2 ^ (52 - j)) * 2 ^ (k - (52 - j))).
    { rewrite inject_Z_mult, <- pow2_Z by lia.
      rewrite <- Qmult_assoc, <- pow2_plus.
      replace (52 - j + (k - (52 - j)))%Z with k by lia. reflexivity. }
    rewrite R. apply float_exact_normal.
    assert (P : (0 < 2 ^ (52 - j))%Z) by (apply Z.pow_pos_nonneg; lia).
    assert (S1 : (2 ^ j * 2 ^ (52 - j) = 2 ^ 52)%Z).
    { rewrite <- Z.pow_add_r by lia. f_equal. lia. }
    assert (S2 : (2 ^ (j + 1) * 2 ^ (52 - j) = 2 ^ 53)%Z).
    { rewrite <- Z.pow_add_r by lia. f_equal. lia. }
    split; nia.
Qed.

Lemma float_exact (m k : Z) :
  (Z.abs m <= 2 ^ 53)%Z ->
  Num.float (inject_Z m * 2 ^ k) == inject_Z m * 2 ^ k.
Proof.
  intro H. destruct (Z.lt_trichotomy m 0) as [N | [Z0 | P]].
  - assert (E : inject_Z m * 2 ^ k == - (inject_Z (- m) * 2 ^ k))
      by (rewrite inject_Z_opp; ring).
    rewrite E, float_opp, float_exact_pos by lia. reflexivity.
  - subst m. rewrite float_zero by ring. ring.
  - apply float_exact_pos. lia.
Qed.

(** Integers up to [2^53] are doubles. *)
Lemma float_Z (n : Z) :
  (Z.abs n <= 2 ^ 53)%Z -> Num.float (inject_Z n) == inject_Z n.
Proof.
  intro H. pose proof (float_exact n 0 H) as E.
  change ((2 : Q) ^ 0) with (1 : Q) in E.
  rewrite Qmult_1_r in E. exact E.
Qed.

Lemma float_idempotent (x : Q) : Num.float (Num.float x) == Num.float x.
Proof.
  assert (G : forall y, 0 < y -> Num.float (Num.float y) == Num.float y).
  { intros y Hy. rewrite (float_unfold y) by lra.
    destruct (mantissa_range y Hy) as [L U].
    assert (A : (2 ^ 52 <= Num.round_half_even (y / Num.ulp y))%Z).
    { apply round_half_even_lower. rewrite <- pow2_Z by lia. exact L. }
    assert (B : (Num.round_half_even (y / Num.ulp y) <= 2 ^ 53)%Z).
    { apply round_half_even_upper. rewrite <- pow2_Z by lia. lra. }
    apply (float_exact _ (Num.ilog2 (Qabs y) - 52)).
    change (2 ^ 52)%Z with 4503599627370496%Z in A.
    change (2 ^ 53)%Z with 9007199254740992%Z in *. lia. }
  destruct (Qlt_le_dec 0 x) as [P | NP].
  - apply G, P.
  - destruct (Qeq_dec x 0) as [Z0 | N].
    + rewrite (float_zero x Z0). reflexivity.
    + assert (E : Num.float x == - Num.float (- x)).
      { rewrite <- float_opp. apply float_wd. ring. }
      rewrite E, float_opp, G by lra. reflexivity.
Qed.

(** The relative error of a rounding is at most [2^-53]. *)
Lemma float_error (x : Q) :
  Qabs (Num.float x - x) <= Qabs x * (1 # 9007199254740992).
Proof.
  assert (G : forall y, 0 < y ->
            - (y * (1 # 9007199254740992)) <= Num.float y - y
            /\ Num.float y - y <= y * (1 # 9007199254740992)).
  { intros y Hy. rewrite (float_unfold y) by lra.
    pose proof (round_half_even_error (y / Num.ulp y)) as [E1 E2].
    destruct (mantissa_range y Hy) as [L _].
    pose proof (ulp_pos y) as P.
    assert (D : y / Num.ulp y * Num.ulp y == y) by (field; lra).
    change ((2 : Q) ^ 52) with (4503599627370496 : Q) in L.
    set (r := inject_Z (Num.round_half_even (y / Num.ulp y))) in *.
    set (q := y / Num.ulp y) in *.
    assert (U : 4503599627370496 * Num.ulp y <= y).
    { apply Qle_trans with (q * Num.ulp y).
      - apply Qmult_le_compat_r; [exact L | lra].
      - rewrite D. apply Qle_refl. }
    assert (S : r * Num.ulp y - y == (r - q) * Num.ulp y).
    { rewrite <- D at 2. ring. }
    rewrite S.
    assert (B1 : - ((1 # 2) * Num.ulp y) <= (r - q) * Num.ulp y) by nra.
    assert (B2 : (r - q) * Num.ulp y <= (1 # 2) * Num.ulp y) by nra.
    split; lra. }
  destruct (Qlt_le_dec 0 x) as [P | NP].
  - rewrite (Qabs_pos x) by lra. apply Qabs_Qle_condition.
    destruct (G x P). split; lra.
  - destruct (Qeq_dec x 0) as [Z0 | N].
    + rewrite (float_zero x Z0), Z0. vm_compute. discriminate.
    + rewrite (Qabs_neg x) by lra. apply Qabs_Qle_condition.
      destruct (G (- x)) as [A B]; [lra|].
      rewrite float_opp in A, B. split; lra.
Qed.

(** *** Decimal rounding *)

Lemma pow10_pos (d : Z) : 0 < (10 : Q) ^ d.
Proof. apply Qpower_0_lt. reflexivity. Qed.

Lemma decimal_wd (d : Z) (x y : Q) : x == y -> Num.decimal d x == Num.decimal d y.
Proof.
  intros E. unfold Num.decimal.
  rewrite (round_half_even_wd (x * 10 ^ d) (y * 10 ^ d)) by (rewrite E; reflexivity).
  reflexivity.
Qed.

Lemma decimal_monotone (d : Z) (x y : Q) :
  x <= y -> Num.decimal d x <= Num.decimal d y.
Proof.
  intros H. unfold Num.decimal, Qdiv.
  pose proof (pow10_pos d) as P.
  apply Qmult_le_compat_r.
  - rewrite <- Zle_Qle. apply round_half_even_monotone.
    apply Qmult_le_compat_r; [exact H | apply Qlt_le_weak, P].
  - apply Qlt_le_weak, Qinv_lt_0_compat, P.
Qed.

Lemma decimal_error (d : Z) (x : Q) :
  Qabs (Num.decimal d x - x) <= (1 # 2) / 10 ^ d.
Proof.
  unfold Num.decimal. pose proof (pow10_pos d) as P.
  pose proof (round_half_even_error (x * 10 ^ d)) as E.
  set (n := inject_Z (Num.round_half_even (x * 10 ^ d))) in *.
  assert (D : n / 10 ^ d - x == (n - x * 10 ^ d) / 10 ^ d) by (field; lra).
  rewrite D. unfold Qdiv. rewrite Qabs_Qmult.
  rewrite (Qabs_pos (/ 10 ^ d)) by (apply Qlt_le_weak, Qinv_lt_0_compat, P).
  apply Qmult_le_compat_r; [| apply Qlt_le_weak, Qinv_lt_0_compat, P].
  apply Qabs_Qle_condition. lra.
Qed.

Lemma decimal2_Z (n : Z) : Num.decimal 2 (inject_Z n) == inject_Z n.
Proof.
  unfold Num.decimal. change ((10 : Q) ^ 2) with (100 : Q).
  rewrite (round_half_even_wd (inject_Z n * 100) (inject_Z (n * 100))).
  - rewrite round_half_even_Z, inject_Z_mult. change (inject_Z 100) with 100. field.
  - rewrite inject_Z_mult. reflexivity.
Qed.

Lemma round_wd (d : Z) (x y : Q) : x == y -> Num.round x d == Num.round y d.
Proof. intros E. unfold Num.round. apply float_wd, decimal_wd, E. Qed.

Lemma round_monotone (d : Z) (x y : Q) : x <= y -> Num.round x d <= Num.round y d.
Proof. intros H. apply float_monotone, decimal_monotone, H. Qed.

Lemma round2_wd (x y : Q) : x == y -> Num.round2 x == Num.round2 y.
Proof. apply round_wd. Qed.

Lemma round2_monotone (x y : Q) : x <= y -> Num.round2 x <= Num.round2 y.
Proof. apply round_monotone. Qed.

Lemma round2_Z (n : Z) :
  (Z.abs n <= 9007199254740992)%Z -> Num.round2 (inject_Z n) == inject_Z n.
Proof.
  intros H. unfold Num.round2, Num.round.
  rewrite (float_wd _ _ (decimal2_Z n)). apply float_Z, H.
Qed.

(** [round(x, 2)] is the double nearest to some multiple of 0.01, and that
    multiple is within 0.005 of [x]. *)
Lemma round2_cases (x : Q) :
  exists k : Z,
    Num.round2 x = Num.float (inject_Z k / 100) /\
    Qabs (inject_Z k / 100 - x) <= 1 # 200.
Proof.
  exists (Num.round_half_even (x * 100)). split.
  - reflexivity.
  - apply (decimal_error 2 x).
Qed.

(** *** Rounding errors *)

Lemma Qabs_bound (x y : Q) : Qabs x <= y <-> - y <= x <= y.
Proof. apply Qabs_Qle_condition. Qed.

Lemma pos_cancel (w x : Q) : 0 < w -> 0 <= w * x -> 0 <= x.
Proof.
  intros W H. destruct (Qlt_le_dec x 0) as [N | P]; [| exact P].
  exfalso. assert (w * x < 0) by nra. lra.
Qed.

(** A quotient of two rounded numbers, rounded. *)
Lemma quotient_error (u a w a' w' q r : Q) :
  0 <= u <= 1 # 5 ->
  0 <= a <= w -> 0 < w ->
  Qabs (a' - a) <= Qabs a * u ->
  Qabs (w' - w) <= Qabs w * u ->
  q * w' == a' ->
  Qabs (r - q) <= Qabs q * u ->
  Qabs (r * w - a) <= 4 * u * a.
Proof.
  intros [U0 U1] [A0 A1] W Ea Ew Hq Er.
  rewrite (Qabs_pos a) in Ea by exact A0.
  rewrite (Qabs_pos w) in Ew by lra.
  apply Qabs_bound in Ea. apply Qabs_bound in Ew.
  assert (W' : 0 < w') by nra.
  assert (Q0 : 0 <= q).
  { apply (pos_cancel w'); [exact W'|]. rewrite Qmult_comm, Hq. nra. }
  rewrite (Qabs_pos q) in Er by exact Q0.
  apply Qabs_bound in Er. apply Qabs_bound.
  (* q(1-u)w <= a(1+u) ... *)
  assert (Q1 : q * w * (1 - u) <= a * (1 + u)).
  { assert (q * (w * (1 - u)) <= q * w') by (apply Qmult_le_l_weak || nra). nra. }
  assert (Q2 : a * (1 - u) <= q * w * (1 + u)).
  { assert (q * w' <= q * (w * (1 + u))) by nra. nra. }
  split.
  - (* r w >= q(1-u) w >= a (1-u)^2/(1+u) >= a(1-4u) *)
    assert (R : q * (1 - u) * w <= r * w) by nra.
    apply (Qmult_le_l _ _ (1 + u)); [lra|].
    assert (a * (1 - u) * (1 - u) <= q * w * (1 + u) * (1 - u)) by nra.
    nra.
  - assert (R : r * w <= q * (1 + u) * w) by nra.
    apply (Qmult_le_l _ _ (1 - u)); [lra|].
    assert (q * w * (1 - u) * (1 + u) <= a * (1 + u) * (1 + u)) by nra.
    nra.
Qed.

(** The interpolation of the good band, every operation rounded. *)
Lemma interpolation_error (u lo delta rho r s d t v : Q) :
  0 <= u <= 1 # 100 ->
  0 <= lo -> 0 <= delta ->
  0 <= rho <= 1 -> 0 <= r <= 1 ->
  Qabs (r - rho) <= 4 * u ->
  Qabs (s - (1 - r)) <= Qabs (1 - r) * u ->
  Qabs (d - delta) <= Qabs delta * u ->
  Qabs (t - s * d) <= Qabs (s * d) * u ->
  Qabs (v - (lo + t)) <= Qabs (lo + t) * u ->
  Qabs (v - (lo + (1 - rho) * delta)) <= u * (lo + 10 * delta).
Proof.
  intros [U0 U1] L D [P0 P1] [R0 R1] Er Es Ed Et Ev.
  rewrite (Qabs_pos (1 - r)) in Es by lra.
  rewrite (Qabs_pos delta) in Ed by exact D.
  apply Qabs_bound in Er. apply Qabs_bound in Es. apply Qabs_bound in Ed.
  assert (S0 : 0 <= s) by nra.
  assert (S1 : s <= 1 + u) by nra.
  assert (D0 : 0 <= d) by nra.
  assert (SD : 0 <= s * d) by (apply Qmult_le_0_compat; assumption).
  rewrite (Qabs_pos (s * d)) in Et by exact SD.
  apply Qabs_bound in Et.
  assert (T0 : 0 <= t) by nra.
  rewrite (Qabs_pos (lo + t)) in Ev by lra.
  apply Qabs_bound in Ev. apply Qabs_bound.
  (* s within 5u of 1 - rho *)
  assert (Es' : - (5 * u) <= s - (1 - rho) <= 5 * u) by nra.
  (* s * d within ... of (1 - rho) * delta *)
  assert (D1 : d <= delta * (1 + u)) by lra.
  assert (D2 : delta * (1 - u) <= d) by lra.
  assert (X1 : s * d <= (1 - rho + 5 * u) * (delta * (1 + u))).
  { apply Qle_trans with (s * (delta * (1 + u))).
    - apply Qmult_le_l_weak || nra.
    - apply Qmult_le_compat_r; [lra | nra]. }
  assert (X2 : (1 - rho - 5 * u) * (delta * (1 - u)) <= s * d).
  { destruct (Qlt_le_dec (1 - rho - 5 * u) 0) as [N | P].
    - apply Qle_trans with 0; [| exact SD].
      assert (0 <= delta * (1 - u)) by nra. nra.
    - apply Qle_trans with (s * (delta * (1 - u))).
      + apply Qmult_le_compat_r; [lra | nra].
      + nra. }
  assert (UD : 0 <= u * delta) by (apply Qmult_le_0_compat; assumption).
  assert (UUD : 0 <= u * (u * delta)) by (apply Qmult_le_0_compat; assumption).
  assert (RD : 0 <= rho * delta) by (apply Qmult_le_0_compat; assumption).
  assert (RD' : rho * delta <= delta) by nra.
  assert (RUD : 0 <= rho * (u * delta)) by (apply Qmult_le_0_compat; lra).
  assert (RUD' : rho * (u * delta) <= u * delta) by nra.
  assert (UUD' : u * (u * delta) <= (1 # 100) * (u * delta)) by nra.
  assert (Y1 : s * d <= (1 - rho) * delta + 7 * (u * delta)) by nra.
  assert (Y2 : (1 - rho) * delta - 7 * (u * delta) <= s * d) by nra.
  assert (SDle : s * d <= 2 * delta) by nra.
  assert (USD : u * (s * d) <= 2 * (u * delta)) by nra.
  assert (Z1 : t <= (1 - rho) * delta + 9 * (u * delta)) by nra.
  assert (Z2 : (1 - rho) * delta - 9 * (u * delta) <= t) by nra.
  assert (Tle : t <= 2 * delta) by nra.
  assert (UL : 0 <= u * lo) by (apply Qmult_le_0_compat; assumption).
  assert (UT : u * t <= 2 * (u * delta)) by nra.
  assert (UT0 : 0 <= u * t) by (apply Qmult_le_0_compat; assumption).
  split; nra.
Qed.

Lemma frel_range (mg Mg p : Q) :
  mg <= p <= Mg -> mg < Mg ->
  0 <= Num.fdiv (Num.fsub p mg) (Num.fsub Mg mg) <= 1.
Proof.
  intros [H1 H2] B. unfold Num.fdiv, Num.fsub.
  assert (A0 : 0 <= Num.float (p - mg)) by (apply float_nonneg; lra).
  assert (W0 : 0 < Num.float (Mg - mg)) by (apply float_pos; lra).
  assert (AW : Num.float (p - mg) <= Num.float (Mg - mg))
    by (apply float_monotone; lra).
  split.
  - apply float_nonneg. apply Qle_shift_div_l; [exact W0 | lra].
  - assert (E1 : Num.float 1 == 1) by (apply (float_Z 1); vm_compute; discriminate).
    apply Qle_trans with (Num.float 1); [| rewrite E1; apply Qle_refl].
    apply float_monotone. apply Qle_shift_div_r; [exact W0 | lra].
Qed.

Lemma frel_error (mg Mg p : Q) :
  mg <= p <= Mg -> mg < Mg ->
  Qabs (Num.fdiv (Num.fsub p mg) (Num.fsub Mg mg) - (p - mg) / (Mg - mg))
    <= 4 * Num.unit_roundoff.
Proof.
  intros [H1 H2] B.
  assert (W0 : 0 < Num.float (Mg - mg)) by (apply float_pos; lra).
  pose proof (quotient_error Num.unit_roundoff (p - mg) (Mg - mg)
                (Num.float (p - mg)) (Num.float (Mg - mg))
                (Num.float (p - mg) / Num.float (Mg - mg))
                (Num.fdiv (Num.fsub p mg) (Num.fsub Mg mg))) as E.
  assert (X : Qabs (Num.fdiv (Num.fsub p mg) (Num.fsub Mg mg) * (Mg - mg) - (p - mg))
              <= 4 * Num.unit_roundoff * (p - mg)).
  { apply E.
    - split; vm_compute; discriminate.
    - lra.
    - lra.
    - apply float_error.
    - apply float_error.
    - field. lra.
    - apply float_error. }
  clear E. set (r := Num.fdiv _ _) in *.
  assert (W : 0 < Mg - mg) by lra.
  apply Qabs_bound in X. apply Qabs_bound.
  assert (D : r - (p - mg) / (Mg - mg) == (r * (Mg - mg) - (p - mg)) / (Mg - mg))
    by (field; lra).
  rewrite D.
  assert (U : 0 <= Num.unit_roundoff) by (vm_compute; discriminate).
  split.
  - apply Qle_shift_div_l; [exact W|]. nra.
  - apply Qle_shift_div_r; [exact W|]. nra.
Qed.

Lemma finterpolate_error (mg Mg p lo hi : Q) :
  mg <= p <= Mg -> mg < Mg -> 0 <= lo <= hi ->
  let r := Num.fdiv (Num.fsub p mg) (Num.fsub Mg mg) in
  Qabs (Num.fadd lo (Num.fmul (Num.fsub 1 r) (Num.fsub hi lo))
        - (lo + (1 - (p - mg) / (Mg - mg)) * (hi - lo)))
    <= Num.unit_roundoff * (lo + 10 * (hi - lo)).
Proof.
  intros Hp B [L0 L1] r.
  apply interpolation_error with (r := r) (s := Num.fsub 1 r) (d := Num.fsub hi lo)
    (t := Num.fmul (Num.fsub 1 r) (Num.fsub hi lo)).
  - split; vm_compute; discriminate.
  - exact L0.
  - lra.
  - assert (W : 0 < Mg - mg) by lra. split.
    + apply Qle_shift_div_l; [exact W | lra].
    + apply Qle_shift_div_r; [exact W | lra].
  - apply frel_range; assumption.
  - apply frel_error; assumption.
  - apply float_error.
  - apply float_error.
  - apply float_error.
  - apply float_error.
Qed.

Lemma round2_of_error (v target bound hi : Q) :
  0 <= target <= hi -> 0 <= bound <= 11 * hi * Num.unit_roundoff ->
  Qabs (v - target) <= bound ->
  Qabs (Num.round2 v - target) <= (1 # 200) + (13 * hi + 1) * Num.unit_roundoff.
Proof.
  intros [T0 T1] [B0 B1] E.
  unfold Num.round2, Num.round.
  pose proof (decimal_error 2 v) as D. change ((1 # 2) / 10 ^ 2) with (1 # 200) in D.
  pose proof (float_error (Num.decimal 2 v)) as F.
  set (dv := Num.decimal 2 v) in *. set (l := Num.float dv) in *.
  apply Qabs_bound in E. apply Qabs_bound in D.
  assert (U : 0 < Num.unit_roundoff) by reflexivity.
  assert (U1 : Num.unit_roundoff <= 1 # 100) by (vm_compute; discriminate).
  assert (A : Qabs dv <= hi + bound + (1 # 200)).
  { apply Qabs_bound. lra. }
  assert (F' : Qabs (l - dv) <= (hi + bound + (1 # 200)) * Num.unit_roundoff).
  { eapply Qle_trans; [exact F|]. apply Qmult_le_compat_r; [exact A | lra]. }
  apply Qabs_bound in F'. apply Qabs_bound.
  assert (HU : 0 <= hi * Num.unit_roundoff) by nra.
  assert (BU : bound * Num.unit_roundoff <= 11 * (hi * Num.unit_roundoff) * (1 # 100)) by nra.
  assert (BU0 : 0 <= bound * Num.unit_roundoff) by nra.
  split; nra.
Qed.

(** From here on a double is what the lemmas above say of it. *)
Opaque Num.float.

Lemma centi_inject (n : Z) : Num.centi (inject_Z n).
Proof. exists (n * 100)%Z. rewrite inject_Z_mult. change (inject_Z 100) with 100. field. Qed.


(* ================================================================== *)
(** ** Rules for outcomes *)
(* ================================================================== *)

Section WpRules.
Context {S : Type}.

Lemma wp_ret {A} (a : A) (Q : result A -> S -> Prop) s :
  Q (Ok a) s -> wp (ret a) Q s.
Proof. exact (fun H => H). Qed.

Lemma wp_raise {A} e (Q : result A -> S -> Prop) s :
  Q (Raise e) s -> wp (raise e) Q s.
Proof. exact (fun H => H). Qed.

Lemma wp_gets {A} (f : S -> A) (Q : result A -> S -> Prop) s :
  Q (Ok (f s)) s -> wp (gets f) Q s.
Proof. exact (fun H => H). Qed.

Lemma wp_modify (f : S -> S) (Q : result unit -> S -> Prop) s :
  Q (Ok tt) (f s) -> wp (modify f) Q s.
Proof. exact (fun H => H). Qed.

Lemma wp_bind {A B} (m : M S A) (k : A -> M S B) Q s :
  wp m (then_wp k Q) s -> wp (bind m k) Q s.
Proof.
  unfold wp, then_wp, bind. destruct (m s) as [[a | e |] s']; simpl; auto.
Qed.

Lemma wp_mono {A} (m : M S A) (Q Q' : result A -> S -> Prop) s :
  wp m Q s -> (forall r s', Q r s' -> Q' r s') -> wp m Q' s.
Proof. unfold wp. auto. Qed.

Lemma wp_of_option {A} (o : option A) e (Q : result A -> S -> Prop) s :
  match o with Some a => Q (Ok a) s | None => Q (Raise e) s end ->
  wp (of_option o e) Q s.
Proof. destruct o; exact (fun H => H). Qed.

Lemma wp_try_except {A} (body : M S A) handler (Q : result A -> S -> Prop) s :
  wp body (fun r s' =>
             match r with
             | Raise e => wp (handler e) Q s'
             | other => Q other s'
             end) s ->
  wp (try_except body handler) Q s.
Proof.
  unfold wp, try_except. destruct (body s) as [[a | e |] s']; simpl; auto.
Qed.

End WpRules.

Lemma wp_lift {A} (c : M Machine A) (Q : result A -> Frame -> Prop) f :
  wp c (fun r m' => Q r (mkFrame (limit_gb f) (primarycache f) m')) (mach f) ->
  wp (lift c) Q f.
Proof.
  unfold wp, lift. destruct (c (mach f)) as [r m']; simpl; auto.
Qed.

(* ================================================================== *)
(** ** Relations that every step respects *)
(* ================================================================== *)

Section Respects.
Context {S : Type} (R : S -> S -> Prop).
Hypothesis R_refl : forall s, R s s.
Hypothesis R_trans : forall a b c, R a b -> R b c -> R a c.

Lemma respects_ret {A} (a : A) : respects R (ret a).
Proof. intro s; apply R_refl. Qed.

Lemma respects_raise {A} e : respects R (@raise S A e).
Proof. intro s; apply R_refl. Qed.

Lemma respects_gets {A} (f : S -> A) : respects R (gets f).
Proof. intro s; apply R_refl. Qed.

Lemma respects_of_option {A} (o : option A) e : respects R (of_option o e).
Proof. destruct o; intro s; apply R_refl. Qed.

Lemma respects_bind {A B} (m : M S A) (k : A -> M S B) :
  respects R m -> (forall a, respects R (k a)) -> respects R (bind m k).
Proof.
  intros Hm Hk s. unfold bind. specialize (Hm s).
  destruct (m s) as [[a | e |] s']; simpl in *; auto.
  eapply R_trans; [exact Hm | apply Hk].
Qed.

Lemma respects_try_except {A} (body : M S A) handler :
  respects R body -> (forall e, respects R (handler e)) ->
  respects R (try_except body handler).
Proof.
  intros Hm Hk s. unfold try_except. specialize (Hm s).
  destruct (body s) as [[a | e |] s']; simpl in *; auto.
  eapply R_trans; [exact Hm | apply Hk].
Qed.

Lemma respects_mapM {A B} (f : A -> M S B) (l : list A) :
  (forall a, respects R (f a)) -> respects R (mapM f l).
Proof.
  intro Hf. induction l as [| a l IH]; simpl.
  - apply respects_ret.
  - apply respects_bind; [apply Hf|]. intro b.
    apply respects_bind; [exact IH|]. intro bs. apply respects_ret.
Qed.

Lemma respects_for_each {A} (l : list A) (body : A -> M S unit) :
  (forall a, respects R (body a)) -> respects R (for_each l body).
Proof.
  intro Hb. induction l as [| a l IH]; simpl.
  - apply respects_ret.
  - apply respects_bind; [apply Hb | intros _; exact IH].
Qed.

Lemma respects_wp {A} (m : M S A) (Q : result A -> S -> Prop) s :
  respects R m -> (forall r s', R s s' -> Q r s') -> wp m Q s.
Proof. intros Hm HQ. apply HQ, Hm. Qed.

End Respects.

(** The primitives and the functions of the script that only touch the
    world. *)
Section WorldStep.
Variable R : Machine -> Machine -> Prop.
Hypothesis HR : world_step R.

Ltac resp :=
  repeat match goal with
    | |- respects _ (bind _ _) => apply (respects_bind R (ws_trans R HR)); [| intro]
    | |- respects _ (ret _) => apply (respects_ret R (ws_refl R HR))
    | |- respects _ (raise _) => apply (respects_raise R (ws_refl R HR))
    | |- respects _ (gets _) => apply (respects_gets R (ws_refl R HR))
    | |- respects _ (of_option _ _) => apply (respects_of_option R (ws_refl R HR))
    | |- respects _ (let _ := _ in _) => cbv zeta
    | |- respects _ (if ?b then _ else _) => destruct b
    | |- respects _ (match ?o with Some _ => _ | None => _ end) => destruct o
    end.

Lemma respects_emit e : respects R (emit e).
Proof.
  intro m. simpl. apply (ws_world R HR); simpl; eauto.
Qed.

Lemma respects_store t v :
  respects R (modify (fun m => set_world (store t v (world m)) m)).
Proof.
  intro m. simpl. apply (ws_world R HR); simpl; auto.
  exists []. now rewrite app_nil_r.
Qed.

Lemma respects_set_lock_file b :
  respects R (modify (fun m => set_world (set_lock_file b (world m)) m)).
Proof.
  intro m. simpl. apply (ws_world R HR); simpl; auto.
  exists []. now rewrite app_nil_r.
Qed.

Lemma respects_time_sleep n : respects R (time_sleep n).
Proof. unfold time_sleep. resp. apply respects_emit. Qed.

Lemma respects_popen c : respects R (popen c).
Proof. unfold popen. resp. apply respects_emit. Qed.

Lemma respects_print l : respects R (print l).
Proof. apply respects_emit. Qed.

Lemma respects_logger_error : respects R logger_error.
Proof. apply respects_emit. Qed.

Lemma respects_read_tunable t : respects R (read_tunable t).
Proof. unfold read_tunable. resp. apply respects_emit. Qed.

Lemma respects_write_tunable t v : respects R (write_tunable t v).
Proof.
  unfold write_tunable. resp; try apply respects_emit. apply respects_store.
Qed.

Lemma respects_get_ram : respects R get_ram.
Proof. unfold get_ram, command_failed. resp. apply respects_popen. Qed.

Lemma respects_get_pools : respects R get_pools.
Proof. unfold get_pools, command_failed. resp. apply respects_popen. Qed.

Lemma respects_active_pools : respects R active_pools.
Proof.
  unfold active_pools. resp.
  match goal with |- respects _ (match ?l with [] => _ | _ => _ end) => destruct l end.
  - apply respects_get_pools.
  - resp.
Qed.

Lemma respects_detect_free_version : respects R detect_free_version.
Proof. unfold detect_free_version, item. resp. apply respects_get_ram. Qed.

Lemma respects_get_ram_total : respects R get_ram_total.
Proof. unfold get_ram_total, item, py_int. resp; apply respects_get_ram. Qed.

Lemma respects_get_ram_used : respects R get_ram_used.
Proof.
  unfold get_ram_used, item, py_int. resp; try apply respects_get_ram.
  apply (respects_mapM R (ws_refl R HR) (ws_trans R HR)). intro. resp.
Qed.

Lemma respects_drop_caches : respects R drop_caches.
Proof. unfold drop_caches, command_failed. resp. apply respects_popen. Qed.

Lemma respects_restart_crashplan : respects R restart_crashplan.
Proof. unfold restart_crashplan, command_failed. resp. apply respects_popen. Qed.

Lemma respects_set_primarycache v : respects R (set_primarycache v).
Proof.
  unfold set_primarycache, command_failed. resp; [apply respects_active_pools|].
  apply (respects_for_each R (ws_refl R HR) (ws_trans R HR)). intro. resp. apply respects_popen.
Qed.

Lemma respects_adjust p l msg : respects R (adjust p l msg).
Proof.
  unfold adjust. resp; [apply respects_print | apply respects_write_tunable ..].
Qed.

Lemma respects_percent_of used total : respects R (percent_of used total).
Proof. unfold percent_of. resp. Qed.

Lemma respects_limit_init : respects R limit_init.
Proof.
  unfold limit_init, bound. resp;
    first [ apply respects_read_tunable | apply respects_get_ram_total
          | apply respects_get_ram_used | apply respects_percent_of
          | apply respects_adjust ].
Qed.

End WorldStep.

(* ================================================================== *)
(** ** The choice of the rule *)
(* ================================================================== *)

Lemma select_rule_applies c p : applies c p (select_rule c p).
Proof.
  unfold select_rule, applies.
  destruct (p >? max_panic_percent c) eqn:E1.
  { apply gtb_true in E1. split; [exact E1|].
    intros r' H. destruct r'; simpl in H; lia. }
  apply gtb_false in E1.
  destruct (p >? max_percent c) eqn:E2.
  { apply gtb_true in E2. split; [exact E2|].
    intros r' H. destruct r'; simpl in *; try lia; lra. }
  apply gtb_false in E2.
  destruct (p <? min_percent c) eqn:E3.
  { apply ltb_true in E3. split; [exact E3|].
    intros r' H. destruct r'; simpl in *; try lia; lra. }
  apply ltb_false in E3.
  destruct (p >? max_good_percent c) eqn:E4.
  { apply gtb_true in E4. split; [exact E4|].
    intros r' H. destruct r'; simpl in *; try lia; lra. }
  apply gtb_false in E4.
  destruct (p <? min_good_percent c) eqn:E5.
  { apply ltb_true in E5. split; [exact E5|].
    intros r' H. destruct r'; simpl in *; try lia; lra. }
  apply ltb_false in E5.
  split; [simpl; split; assumption|].
  intros r' H. destruct r'; simpl in *; try lia; lra.
Qed.


Lemma act_runs_selected (f : Frame) (total used : Z) :
  total <> 0%Z ->
  act total used f =
    rule_body
      (select_rule (cfg (mach f)) (percentage used total))
      (percentage used total) f.
Proof.
  intro H. unfold act, percent_of. apply Z.eqb_neq in H. rewrite H. reflexivity.
Qed.



(** The percentage is computed in floating point: 100*56976/64000 is the
    double next above 89.025 and rounds to 89.03, and 100*11601/20000 is the
    double next above 58.005 and rounds to 58.01. *)
Lemma percentage_of_ties :
  percentage 56976 64000 == Num.float 89.03 /\
  percentage 11601 20000 == Num.float 58.01 /\
  percentage 57000 64000 == Num.float 89.06.
Proof. repeat split; vm_compute; reflexivity. Qed.

(* ================================================================== *)
(** ** The locals of [run] *)
(* ================================================================== *)

Lemma same_locals_refl f : same_locals f f.
Proof. split; reflexivity. Qed.

Lemma same_locals_trans a b c : same_locals a b -> same_locals b c -> same_locals a c.
Proof. intros [H1 H2] [H3 H4]. split; congruence. Qed.

Lemma respects_lift_locals {A} (mc : M Machine A) : respects same_locals (lift mc).
Proof.
  intro f. unfold lift. destruct (mc (mach f)) as [r m']. split; reflexivity.
Qed.

Ltac locals :=
  repeat match goal with
    | |- respects _ (bind _ _) =>
        apply (respects_bind same_locals same_locals_trans); [| intro]
    | |- respects _ (lift _) => apply respects_lift_locals
    | |- respects _ (ret _) => apply (respects_ret same_locals same_locals_refl)
    | |- respects _ (raise _) => apply (respects_raise same_locals same_locals_refl)
    | |- respects _ (gets _) => apply (respects_gets same_locals same_locals_refl)
    | |- respects _ (of_option _ _) =>
        apply (respects_of_option same_locals same_locals_refl)
    end.

Lemma respects_reading_locals : respects same_locals reading.
Proof. unfold reading. locals. Qed.

Lemma respects_handler_locals e : respects same_locals (loop_handler e).
Proof. destruct e; simpl; locals. Qed.

(* ================================================================== *)
(** ** The steady state *)
(* ================================================================== *)

Lemma relative_unit (a b x : Q) :
  a <= x <= b -> ~ b - a == 0 -> 0 <= (x - a) / (b - a) <= 1.
Proof.
  intros [H1 H2] Hw.
  assert (W : 0 < b - a) by (apply Qnot_le_lt; intro; apply Hw; lra).
  split.
  - apply Qle_shift_div_l; [exact W | lra].
  - apply Qle_shift_div_r; [exact W | lra].
Qed.

Lemma float_eq_0 (x : Q) : Num.float x == 0 -> x == 0.
Proof.
  intro H. destruct (Q_dec x 0) as [[N | P] | E]; [| | exact E].
  - exfalso. assert (0 < Num.float (- x)) by (apply float_pos; lra).
    rewrite float_opp in *. lra.
  - exfalso. pose proof (float_pos x P). lra.
Qed.

Lemma float_1 : Num.float 1 == 1.
Proof. apply (float_Z 1). vm_compute. discriminate. Qed.

#[global] Instance round2_morphism : Proper (Qeq ==> Qeq) Num.round2.
Proof. intros x y E. apply round2_wd, E. Qed.

(** The interpolation stays between the doubles that its two ends give. *)
Lemma interpolate_between (a b t : Q) :
  a <= b -> 0 <= t <= 1 ->
  Num.float a <= interpolate a b t <= Num.fadd a (Num.fsub b a).
Proof.
  intros Hab [T0 T1]. unfold interpolate, Num.fadd, Num.fmul, Num.fsub.
  assert (S0 : 0 <= Num.float (1 - t)) by (apply float_nonneg; lra).
  assert (S1 : Num.float (1 - t) <= 1).
  { apply Qle_trans with (Num.float 1); [apply float_monotone; lra|].
    rewrite float_1. apply Qle_refl. }
  assert (D0 : 0 <= Num.float (b - a)) by (apply float_nonneg; lra).
  set (s := Num.float (1 - t)) in *. set (d := Num.float (b - a)) in *.
  assert (P0 : 0 <= Num.float (s * d)).
  { apply float_nonneg, Qmult_le_0_compat; assumption. }
  assert (P1 : Num.float (s * d) <= d).
  { apply Qle_trans with (Num.float d).
    - apply float_monotone. nra.
    - subst d. rewrite float_idempotent. apply Qle_refl. }
  split; apply float_monotone; lra.
Qed.

Lemma on_steady_limit p f lo hi :
  min_good_gb (cfg (mach f)) = Some lo ->
  max_good_gb (cfg (mach f)) = Some hi ->
  ~ max_good_percent (cfg (mach f)) - min_good_percent (cfg (mach f)) == 0 ->
  limit_gb (snd (on_steady p f)) =
    Num.round2 (interpolate lo hi (relative_goodness (cfg (mach f)) p)).
Proof.
  intros Hlo Hhi Hw.
  unfold on_steady, relative_goodness_of.
  unfold bind at 1. unfold gets at 1.
  destruct (Qeq_bool _ 0) eqn:E.
  { apply Qeq_bool_iff in E. apply float_eq_0 in E. contradiction. }
  unfold bind at 1. unfold ret at 1.
  rewrite Hlo, Hhi. unfold bound, of_option.
  unfold bind at 1. unfold ret at 1.
  unfold bind at 1. unfold ret at 1.
  unfold bind at 1. unfold modify at 1.
  unfold bind at 1. unfold gets at 1.
  unfold bind at 1. unfold modify at 1.
  unfold bind at 1. unfold gets at 1.
  cbn [limit_gb set_limit_gb].
  match goal with |- limit_gb (snd (?m ?s)) = _ =>
    assert (R : respects same_locals m) by locals;
    destruct (R s) as [-> _] end.
  reflexivity.
Qed.

Lemma steady_target_offset c lo hi p :
  ~ max_good_percent c - min_good_percent c == 0 ->
  steady_target c lo hi p - lo ==
    (max_good_percent c - p) * ((hi - lo) / (max_good_percent c - min_good_percent c)) /\
  hi - steady_target c lo hi p ==
    (p - min_good_percent c) * ((hi - lo) / (max_good_percent c - min_good_percent c)).
Proof.
  intro Hw. unfold steady_target, relative. split; field; exact Hw.
Qed.

Lemma linear_tends_to (f : Q -> Q) (x y k : Q) :
  (forall p, f p - y == (p - x) * k) -> tends_to f x y.
Proof.
  intros Hf eps He.
  assert (K : 0 < Qabs k + 1) by (pose proof (Qabs_nonneg k); lra).
  exists (eps / (Qabs k + 1)). split.
  - apply Qlt_shift_div_l; [exact K | lra].
  - intros p Hp. rewrite Hf, Qabs_Qmult.
    pose proof (Qabs_nonneg (p - x)) as A. pose proof (Qabs_nonneg k) as B.
    apply Qle_lt_trans with (Qabs (p - x) * (Qabs k + 1)).
    + setoid_replace (Qabs (p - x) * (Qabs k + 1))
        with (Qabs (p - x) * Qabs k + Qabs (p - x)) by ring. lra.
    + apply Qlt_le_trans with (eps / (Qabs k + 1) * (Qabs k + 1)).
      * apply Qmult_lt_compat_r; assumption.
      * assert (E : eps / (Qabs k + 1) * (Qabs k + 1) == eps) by (field; lra).
        rewrite E. apply Qle_refl.
Qed.

Lemma steady_edges c lo hi :
  ~ max_good_percent c - min_good_percent c == 0 ->
  steady_target c lo hi (max_good_percent c) == lo /\
  steady_target c lo hi (min_good_percent c) == hi /\
  tends_to (steady_target c lo hi) (max_good_percent c) lo /\
  tends_to (steady_target c lo hi) (min_good_percent c) hi.
Proof.
  intro Hw.
  split; [unfold steady_target, relative; field; exact Hw|].
  split; [unfold steady_target, relative; field; exact Hw|].
  split.
  - apply linear_tends_to
      with (k := - ((hi - lo) / (max_good_percent c - min_good_percent c))).
    intro p. destruct (steady_target_offset c lo hi p Hw) as [E _]. rewrite E. ring.
  - apply linear_tends_to
      with (k := - ((hi - lo) / (max_good_percent c - min_good_percent c))).
    intro p. destruct (steady_target_offset c lo hi p Hw) as [_ E].
    setoid_replace (steady_target c lo hi p - hi)
      with (- (hi - steady_target c lo hi p)) by ring.
    rewrite E. ring.
Qed.

(** How far the limit of the steady branch is from the exact value of the
    formula: half a hundredth for [round(_, 2)] and the rounding of seven
    float operations. *)
Lemma steady_limit_error c lo hi p :
  min_good_percent c <= p <= max_good_percent c ->
  min_good_percent c < max_good_percent c ->
  0 <= lo <= hi ->
  Qabs (Num.round2 (interpolate lo hi (relative_goodness c p))
        - steady_target c lo hi p)
    <= (1 # 200) + (13 * hi + 1) * Num.unit_roundoff.
Proof.
  intros Hp Hb Hl.
  assert (U : 0 < Num.unit_roundoff) by reflexivity.
  assert (R : 0 <= relative c p <= 1)
    by (apply relative_unit; [exact Hp | lra]).
  apply round2_of_error with (bound := Num.unit_roundoff * (lo + 10 * (hi - lo))).
  - unfold steady_target.
    assert (0 <= (1 - relative c p) * (hi - lo)) by (apply Qmult_le_0_compat; lra).
    assert (0 <= relative c p * (hi - lo)) by (apply Qmult_le_0_compat; lra).
    split; [lra|].
    setoid_replace (lo + (1 - relative c p) * (hi - lo))
      with (hi - relative c p * (hi - lo)) by ring. lra.
  - split; nra.
  - apply (finterpolate_error (min_good_percent c) (max_good_percent c) p lo hi);
      assumption.
Qed.

(** C2, as amended.  In the steady-state rule the new limit is
    [min_good_limit + (1 - relative) * (max_good_limit - min_good_limit)]
    with [relative = (percent_used - min_good_percent) / (max_good_percent -
    min_good_percent)], computed in floating point and then rounded to two
    decimals.  Inside the band [relative] lies in [0, 1], the computed
    [relative_goodness] too, and for bounds [0 <= min_good_limit <=
    max_good_limit] the limit is within 0.005 + (13 max_good_limit + 1) 2^-53
    of the exact value of the formula.  With 89, 93, 10, 20 and a percentage
    of 91, [relative] is 0.5 and the limit is 15.  The exact value of the
    formula equals [min_good_limit] at [max_good_percent] and
    [max_good_limit] at [min_good_percent], and tends to them as the
    percentage tends to these edges. *)
Theorem C2_steady_limit_near_target (f : Frame) (percent lo hi : Q) :
  min_good_gb (cfg (mach f)) = Some lo ->
  max_good_gb (cfg (mach f)) = Some hi ->
  min_good_percent (cfg (mach f)) < max_good_percent (cfg (mach f)) ->
  let c := cfg (mach f) in
  let limit := limit_gb (snd (rule_body Steady percent f)) in
  limit = Num.round2 (interpolate lo hi (relative_goodness c percent)) /\
  (min_good_percent c <= percent <= max_good_percent c ->
   0 <= relative c percent <= 1 /\
   0 <= relative_goodness c percent <= 1 /\
   Qabs (relative_goodness c percent - relative c percent)
     <= 4 * Num.unit_roundoff /\
   (0 <= lo <= hi ->
    Qabs (limit - steady_target c lo hi percent)
      <= (1 # 200) + (13 * hi + 1) * Num.unit_roundoff)) /\
  (min_good_percent c == 89 -> max_good_percent c == 93 ->
   lo == 10 -> hi == 20 -> percent == 91 ->
   relative c percent == 1 # 2 /\
   relative_goodness c percent == 1 # 2 /\
   limit == 15) /\
  steady_target c lo hi (max_good_percent c) == lo /\
  steady_target c lo hi (min_good_percent c) == hi /\
  tends_to (steady_target c lo hi) (max_good_percent c) lo /\
  tends_to (steady_target c lo hi) (min_good_percent c) hi.
Proof.
  intros Hlo Hhi Hband c limit.
  assert (Hw : ~ max_good_percent c - min_good_percent c == 0) by (subst c; lra).
  assert (L : limit = Num.round2 (interpolate lo hi (relative_goodness c percent)))
    by (apply on_steady_limit; assumption).
  split; [exact L|].
  split.
  { intro Hp. split; [apply relative_unit; assumption|].
    split; [apply frel_range; assumption|].
    split; [apply frel_error; assumption|].
    intro Hl. rewrite L. apply steady_limit_error; assumption. }
  split; [| apply steady_edges; exact Hw].
  intros E1 E2 E3 E4 E5.
  assert (R : relative c percent == 1 # 2).
  { unfold relative. rewrite E1, E2, E5. reflexivity. }
  assert (G : relative_goodness c percent == 1 # 2).
  { unfold relative_goodness, Num.fdiv, Num.fsub. rewrite E1, E2, E5.
    vm_compute. reflexivity. }
  split; [exact R|]. split; [exact G|].
  rewrite L. unfold interpolate, Num.fadd, Num.fmul, Num.fsub.
  rewrite G, E3, E4. vm_compute. reflexivity.
Qed.

Lemma C2_steady_limit_near_target_witness :
  relative_goodness Sample.band_10_20 91 == 1 # 2 /\
  limit_gb (snd (rule_body Steady 91 Sample.frame_10_20)) == 15 /\
  Qabs (limit_gb (snd (rule_body Steady 91 Sample.frame_10_20))
        - steady_target Sample.band_10_20 10 20 91)
    <= (1 # 200) + (13 * 20 + 1) * Num.unit_roundoff.
Proof.
  assert (B : min_good_percent (cfg (mach Sample.frame_10_20)) <
              max_good_percent (cfg (mach Sample.frame_10_20)))
    by (vm_compute; reflexivity).
  destruct (C2_steady_limit_near_target Sample.frame_10_20 91 10 20
              eq_refl eq_refl B) as (_ & E & S & _).
  destruct S as (_ & G & L); try reflexivity.
  destruct E as (_ & _ & _ & E); [split; vm_compute; discriminate|].
  split; [exact G|]. split; [exact L|].
  apply E. split; vm_compute; discriminate.
Defined.

(** C2, as stated, fails: the limit is not the value of the formula.  With a
    good band of 10 to 11 GB and 8903 of 10000 MB in use (89.03 percent,
    inside the band) the formula gives about 10.9925 and the limit becomes
    10.99, which is neither the exact value of the formula nor its value in
    floating point.  With bounds of 55 and 58 GB and 57000 of 64000 MB in
    use (89.06 percent) the formula gives 57.955 and the limit is 57.95. *)
Lemma C2_limit_differs_from_target :
  let p := percentage 8903 10000 in
  let limit := limit_gb (snd (act 10000 8903 Sample.frame_10_11)) in
  let limit' := limit_gb (snd (act 64000 57000 Sample.frame_64g)) in
  select_rule Sample.band_10_11 p = Steady /\
  p == Num.float 89.03 /\
  limit == Num.float 10.99 /\
  ~ limit == steady_target Sample.band_10_11 10 11 p /\
  ~ limit == interpolate 10 11 (relative_goodness Sample.band_10_11 p) /\
  select_rule Sample.limits_64g (percentage 57000 64000) = Steady /\
  limit' == Num.float 57.95 /\
  steady_target Sample.limits_64g 55 58 89.06 == 57.955.
Proof.
  cbv zeta.
  split; [vm_compute; reflexivity|]. split; [vm_compute; reflexivity|].
  split; [vm_compute; reflexivity|]. split; [vm_compute; discriminate|].
  split; [vm_compute; discriminate|]. split; [vm_compute; reflexivity|].
  split; vm_compute; reflexivity.
Qed.

(* ================================================================== *)
(** ** The limit stays within its bounds *)
(* ================================================================== *)

Lemma same_cfg_step : world_step same_cfg.
Proof.
  split; unfold same_cfg.
  - reflexivity.
  - intros a b c H1 H2. congruence.
  - intros m w _ _. reflexivity.
Qed.

Section Bounds.
Variables (c : Cfg) (lo glo ghi hi : Q).
Hypothesis Hord : ordered_bounds c lo glo ghi hi.
Hypothesis Hglo : lo <= Num.round2 (Num.float glo).
Hypothesis Hghi : Num.round2 (Num.fadd glo (Num.fsub ghi glo)) <= hi.

Local Abbreviation inv := (bounded c lo hi).
Local Abbreviation keeps := (keeps c lo hi).
Local Abbreviation lenient := (lenient c lo hi).

Lemma lenient_keeps {A} : lenient (fun (_ : result A) f => inv f).
Proof. intros f H; split; auto. Qed.

Lemma lenient_then {A B} (k : A -> M Frame B) Q :
  lenient Q -> lenient (then_wp k Q).
Proof. intros H f I. exact (H f I). Qed.

Lemma wp_lift_inv {A B} (mc : M Machine A) (k : A -> M Frame B) Q f :
  inv f ->
  respects same_cfg mc ->
  lenient Q ->
  (forall a f', inv f' -> wp (k a) Q f') ->
  wp (lift mc) (then_wp k Q) f.
Proof.
  intros Hi Hr HQ Hk. apply wp_lift.
  apply (respects_wp same_cfg); [exact Hr|].
  intros r m' Hm.
  assert (I' : inv (mkFrame (limit_gb f) (primarycache f) m')).
  { destruct Hi as [Hc Hl]. split; simpl; [congruence | exact Hl]. }
  destruct r; simpl; auto; apply (HQ _ I').
Qed.

Lemma wp_lift_last {A} (mc : M Machine A) f :
  inv f -> respects same_cfg mc -> wp (lift mc) keeps f.
Proof.
  intros Hi Hr. apply wp_lift.
  apply (respects_wp same_cfg); [exact Hr|].
  intros r m' Hm. destruct Hi as [Hc Hl]. split; simpl; [congruence | exact Hl].
Qed.

Ltac lifted :=
  first [ apply respects_adjust | apply respects_time_sleep
        | apply respects_print | apply respects_set_primarycache
        | apply respects_drop_caches | apply respects_restart_crashplan
        | apply respects_get_ram_total | apply respects_get_ram_used
        | apply respects_logger_error ];
  exact same_cfg_step.

Ltac lenience := repeat apply lenient_then; apply lenient_keeps.

Lemma inv_set_primarycache_var v f : inv f -> inv (set_primarycache_var v f).
Proof. exact (fun H => H). Qed.

Lemma keeps_on_panic p f : inv f -> wp (on_panic p) keeps f.
Proof.
  intro Hi. unfold on_panic.
  apply wp_bind, wp_gets; simpl.
  apply wp_bind.
  assert (G : forall v, wp
    (pc <- gets primarycache;;
     value <- of_option pc TypeError;;
     lift (print (LinePanic p value));;
     lift drop_caches;; lift (set_primarycache value);; lift restart_crashplan)
    keeps (set_primarycache_var v f)).
  { intro v. apply wp_bind, wp_gets; simpl.
    apply wp_bind, wp_ret; simpl.
    apply wp_bind, wp_lift_inv; [exact Hi | lifted | lenience |]. intros _ f1 I1.
    apply wp_bind, wp_lift_inv; [exact I1 | lifted | lenience |]. intros _ f2 I2.
    apply wp_bind, wp_lift_inv; [exact I2 | lifted | lenience |]. intros _ f3 I3.
    apply wp_lift_last; [exact I3 | lifted]. }
  destruct (option_string_eqb (primarycache f) "metadata");
    apply wp_modify; simpl; apply G.
Qed.

Lemma keeps_on_above_max p f : inv f -> wp (on_above_max p) keeps f.
Proof.
  intros [Hc Hl]. destruct Hord as (Hlo & _ & _ & Hhi & O1 & O2 & O3).
  unfold on_above_max, bound.
  apply wp_bind, wp_gets; simpl.
  apply wp_bind, wp_gets; simpl.
  rewrite Hc, Hlo. apply wp_bind, wp_ret; simpl.
  destruct (limit_gb f >? lo) eqn:E.
  - apply gtb_true in E.
    apply wp_bind, wp_modify; simpl.
    apply wp_bind, wp_gets; simpl.
    apply wp_bind.
    destruct (limit_gb f - 1 <? lo) eqn:E2.
    + apply wp_modify; simpl. apply wp_bind, wp_gets; simpl.
      apply wp_lift_last; [| lifted]. split; simpl; [exact Hc | lra].
    + apply ltb_false in E2.
      apply wp_ret; simpl. apply wp_bind, wp_gets; simpl.
      apply wp_lift_last; [| lifted]. split; simpl; [exact Hc | lra].
  - apply wp_bind, wp_lift_inv; [split; assumption | lifted | lenience |]. intros _ f1 I1.
    apply wp_lift_last; [exact I1 | lifted].
Qed.

Lemma keeps_on_below_min p f : inv f -> wp (on_below_min p) keeps f.
Proof.
  intros Hi. destruct Hord as (Hlo & _ & _ & Hhi & O1 & O2 & O3).
  unfold on_below_min, bound.
  apply wp_bind, wp_gets; simpl.
  apply wp_bind, wp_gets; simpl.
  assert (G : forall f1, inv f1 -> cfg (mach f) = c -> wp
    (l <- gets limit_gb;;
     hi0 <- of_option (max_gb (cfg (mach f))) TypeError;;
     (if l <? hi0
      then
       modify (set_limit_gb (l + 1));;
       l0 <- gets limit_gb;;
       (if l0 >? hi0 then modify (set_limit_gb hi0) else ret tt);;
       l1 <- gets limit_gb;; lift (adjust p l1 LtMin)
      else lift (print (LineTooHigh p l));; lift (time_sleep sleep_time_idle)))
    keeps f1).
  { intros f1 [Hc1 Hl1] Hc.
    apply wp_bind, wp_gets; simpl.
    rewrite Hc, Hhi. apply wp_bind, wp_ret; simpl.
    destruct (limit_gb f1 <? hi) eqn:E.
    - apply ltb_true in E.
      apply wp_bind, wp_modify; simpl.
      apply wp_bind, wp_gets; simpl.
      apply wp_bind.
      destruct (limit_gb f1 + 1 >? hi) eqn:E2.
      + apply wp_modify; simpl. apply wp_bind, wp_gets; simpl.
        apply wp_lift_last; [| lifted]. split; simpl; [exact Hc1 | lra].
      + apply gtb_false in E2.
        apply wp_ret; simpl. apply wp_bind, wp_gets; simpl.
        apply wp_lift_last; [| lifted]. split; simpl; [exact Hc1 | lra].
    - apply wp_bind, wp_lift_inv; [split; assumption | lifted | lenience |]. intros _ f2 I2.
      apply wp_lift_last; [exact I2 | lifted]. }
  apply wp_bind.
  destruct (negb (option_string_eqb (primarycache f) "all")).
  - apply wp_bind, wp_lift_inv; [exact Hi | lifted | lenience |]. intros _ f1 I1.
    apply wp_bind, wp_lift_inv; [exact I1 | lifted | lenience |]. intros _ f2 I2.
    apply wp_modify; simpl. apply G; [exact I2 | apply Hi].
  - apply wp_ret; simpl. apply G; [exact Hi | apply Hi].
Qed.

Lemma keeps_snap p (b : option Q) (v : Q) msg f :
  inv f -> b = Some v -> lo <= v <= hi ->
  wp (x <- bound b;;
      modify (set_limit_gb x);;
      l <- gets limit_gb;;
      lift (adjust p l msg);;
      lift (time_sleep sleep_time_idle)) keeps f.
Proof.
  intros [Hc Hl] -> Hv. unfold bound.
  apply wp_bind, wp_ret; simpl.
  apply wp_bind, wp_modify; simpl.
  apply wp_bind, wp_gets; simpl.
  apply wp_bind, wp_lift_inv; [split; simpl; assumption | lifted | lenience |]. intros _ f1 I1.
  apply wp_lift_last; [exact I1 | lifted].
Qed.

Lemma keeps_on_above_good p f : inv f -> wp (on_above_good p) keeps f.
Proof.
  intros Hi. destruct Hord as (Hlo & Hg1 & Hg2 & Hhi & O1 & O2 & O3).
  unfold on_above_good. apply wp_bind, wp_gets; simpl.
  apply keeps_snap with (v := glo); [exact Hi | | lra].
  destruct Hi as [-> _]. exact Hg1.
Qed.

Lemma keeps_on_below_good p f : inv f -> wp (on_below_good p) keeps f.
Proof.
  intros Hi. destruct Hord as (Hlo & Hg1 & Hg2 & Hhi & O1 & O2 & O3).
  unfold on_below_good. apply wp_bind, wp_gets; simpl.
  apply keeps_snap with (v := ghi); [exact Hi | | lra].
  destruct Hi as [-> _]. exact Hg2.
Qed.

Lemma keeps_on_steady p f :
  rule_condition c Steady p -> inv f -> wp (on_steady p) keeps f.
Proof.
  intros Hp Hi. destruct Hord as (Hlo & Hg1 & Hg2 & Hhi & O1 & O2 & O3).
  assert (Hc : cfg (mach f) = c) by apply Hi.
  unfold on_steady, relative_goodness_of, bound.
  apply wp_bind, wp_gets; simpl. rewrite Hc.
  apply wp_bind.
  destruct (Qeq_bool (Num.fsub (max_good_percent c) (min_good_percent c)) 0) eqn:E.
  { apply wp_raise; simpl. exact Hi. }
  apply Qeq_bool_neq in E.
  assert (Hb : min_good_percent c < max_good_percent c).
  { destruct Hp as [P1 P2]. apply Qnot_le_lt. intro N. apply E.
    unfold Num.fsub. rewrite float_zero; [reflexivity | lra]. }
  apply wp_ret; simpl.
  rewrite Hg1, Hg2.
  apply wp_bind, wp_ret; simpl.
  apply wp_bind, wp_ret; simpl.
  apply wp_bind, wp_modify; simpl.
  apply wp_bind, wp_gets; simpl.
  apply wp_bind, wp_modify; simpl.
  apply wp_bind, wp_gets; simpl.
  pose proof (frel_range _ _ _ Hp Hb) as Hrel.
  pose proof (interpolate_between glo ghi (relative_goodness c p) O2 Hrel) as [B1 B2].
  assert (I1 : inv (set_limit_gb
             (Num.round2 (interpolate glo ghi (relative_goodness c p)))
             (set_limit_gb (interpolate glo ghi (relative_goodness c p)) f))).
  { split; simpl; [exact Hc|]. split.
    - eapply Qle_trans; [exact Hglo | apply round2_monotone, B1].
    - eapply Qle_trans; [apply round2_monotone, B2 | exact Hghi]. }
  apply wp_bind, wp_lift_inv; [exact I1 | lifted | lenience |]. intros _ f1 I2.
  apply wp_lift_last; [exact I2 | lifted].
Qed.

Lemma keeps_rule_body r p f :
  rule_condition c r p -> inv f -> wp (rule_body r p) keeps f.
Proof.
  intros Hr Hi. destruct r; simpl.
  - now apply keeps_on_panic.
  - now apply keeps_on_above_max.
  - now apply keeps_on_below_min.
  - now apply keeps_on_above_good.
  - now apply keeps_on_below_good.
  - now apply keeps_on_steady.
Qed.

Lemma keeps_act total used f : inv f -> wp (act total used) keeps f.
Proof.
  intro Hi. unfold act, percent_of.
  apply wp_bind.
  destruct (total =? 0)%Z.
  { apply wp_raise; simpl. exact Hi. }
  apply wp_ret; simpl.
  apply wp_bind, wp_gets; simpl.
  apply keeps_rule_body; [| exact Hi].
  destruct Hi as [-> _]. apply select_rule_applies.
Qed.

Lemma keeps_reading f :
  inv f -> wp reading (fun _ f' => inv f') f.
Proof.
  intro Hi. unfold reading.
  assert (L : lenient (fun (_ : result (Z * Z)) f' => inv f')).
  { intros f' H; split; auto. }
  apply wp_bind, wp_lift_inv; [exact Hi | lifted | exact L |]. intros _ f1 I1.
  apply wp_bind, wp_lift_inv; [exact I1 | lifted | exact L |]. intros total f2 I2.
  apply wp_bind, wp_lift_inv; [exact I2 | lifted | exact L |]. intros used f3 I3.
  apply wp_ret. exact I3.
Qed.

Lemma keeps_iteration f : inv f -> wp iteration keeps f.
Proof.
  intro Hi. unfold iteration, loop_body.
  apply wp_try_except, wp_bind.
  eapply wp_mono; [apply keeps_reading; exact Hi|].
  intros r f1 I1. destruct r as [[total used] | e |]; simpl.
  - eapply wp_mono; [apply keeps_act; exact I1|].
    intros r f2 I2. destruct r as [| e |]; try exact I2.
    destruct e; simpl; try exact I2;
      (apply wp_lift_last; [exact I2|]);
      apply (respects_bind same_cfg (ws_trans _ same_cfg_step));
      [lifted | intro; lifted ..].
  - destruct e; simpl; try exact I1;
      (apply wp_lift_last; [exact I1|]);
      apply (respects_bind same_cfg (ws_trans _ same_cfg_step));
      [lifted | intro; lifted ..].
  - exact I1.
Qed.

Lemma keeps_loop n : forall f, inv f -> inv (snd (loop n f)).
Proof.
  induction n as [| n IH]; intros f Hi; simpl.
  - exact Hi.
  - change (wp (iteration;; loop n) keeps f). apply wp_bind.
    eapply wp_mono; [apply keeps_iteration; exact Hi|].
    intros r f1 I1. destruct r; simpl; try exact I1.
    apply IH, I1.
Qed.

Lemma limit_init_within m :
  cfg m = c ->
  wp limit_init
    (fun r m' => cfg m' = c /\
                 match r with Ok l => lo <= l <= hi | _ => True end) m.
Proof.
  intro Hc. destruct Hord as (Hlo & Hg1 & Hg2 & Hhi & O1 & O2 & O3).
  pose (Post := fun (r : result Q) (m' : Machine) =>
               cfg m' = c /\ match r with Ok l => lo <= l <= hi | _ => True end).
  assert (tail : forall l m1, cfg m1 = c -> lo <= l <= hi ->
    wp (total <- get_ram_total;;
        used <- get_ram_used;;
        percent <- percent_of used total;;
        adjust percent l BeforeInitialSettings;; ret l) Post m1).
  { intros l m1 H1 Hl.
    assert (step : forall {A} (mc : M Machine A) (k : A -> M Machine Q) m2,
               cfg m2 = c -> respects same_cfg mc ->
               (forall a m3, cfg m3 = c -> wp (k a) Post m3) ->
               wp (bind mc k) Post m2).
    { intros A mc k m2 H2 Hr Hk. apply wp_bind.
      apply (respects_wp same_cfg); [exact Hr|].
      intros r m3 H3. unfold same_cfg in H3.
      destruct r; simpl; [apply Hk; congruence | split; [congruence | exact I] ..]. }
    apply step; [exact H1 | apply respects_get_ram_total, same_cfg_step |].
    intros total m2 H2.
    apply step; [exact H2 | apply respects_get_ram_used, same_cfg_step |].
    intros used m3 H3.
    apply step; [exact H3 | apply respects_percent_of, same_cfg_step |].
    intros percent m4 H4.
    apply step; [exact H4 | apply respects_adjust, same_cfg_step |].
    intros _ m5 H5. apply wp_ret. split; assumption. }
  unfold limit_init, bound. fold Post.
  apply wp_bind.
  apply (respects_wp same_cfg); [apply respects_read_tunable, same_cfg_step|].
  intros r m1 H1. unfold same_cfg in H1.
  destruct r as [b | e |]; simpl; [| split; [congruence | exact I] ..].
  apply wp_bind, wp_gets; simpl.
  assert (Hc1 : cfg m1 = c) by congruence. rewrite Hc1, Hlo.
  apply wp_bind, wp_ret; simpl.
  apply wp_bind.
  change (Num.round2 (Num.fdiv (Num.fdiv (Num.fdiv (inject_Z b) 1024) 1024) 1024))
    with (gigabytes b).
  set (v := gigabytes b).
  destruct (v <? lo) eqn:E1.
  - apply wp_ret; simpl. apply tail; [exact Hc1 | lra].
  - apply ltb_false in E1. rewrite Hhi.
    apply wp_bind, wp_ret; simpl.
    destruct (v >? hi) eqn:E2.
    + apply wp_ret; simpl. apply tail; [exact Hc1 | lra].
    + apply gtb_false in E2. apply wp_ret; simpl. apply tail; [exact Hc1 | lra].
Qed.

End Bounds.

(** X18.  With ordered bounds the limit stays within [[min_gb, max_gb]] as
    long as the two ends of the good band, rounded the way the steady branch
    rounds them, do: [round(min_good_gb, 2) >= min_gb] and
    [round(min_good_gb + (max_good_gb - min_good_gb), 2) <= max_gb], the sum
    and the difference taken in floating point.  Then the limit lies within
    the bounds when [limit_init] returns it and after any number of
    iterations of the loop, whatever the outside answers. *)
Theorem X18_limit_within_bounds_when_rounding_fits (c : Cfg) (lo glo ghi hi : Q) :
  ordered_bounds c lo glo ghi hi ->
  lo <= Num.round2 (Num.float glo) ->
  Num.round2 (Num.fadd glo (Num.fsub ghi glo)) <= hi ->
  (forall m l m', cfg m = c -> limit_init m = (Ok l, m') -> within_limits c l) /\
  (forall n f, cfg (mach f) = c -> within_limits c (limit_gb f) ->
               within_limits c (limit_gb (snd (loop n f)))).
Proof.
  intros Hord Hglo Hghi.
  assert (Hlo : min_gb c = Some lo) by apply Hord.
  assert (Hhi : max_gb c = Some hi) by apply Hord.
  split.
  - intros m l m' Hc E.
    pose proof (limit_init_within c lo glo ghi hi Hord m Hc) as H.
    unfold wp in H. rewrite E in H. simpl in H.
    exists lo, hi. repeat split; try assumption; apply H.
  - intros n f Hc (lo' & hi' & Hlo' & Hhi' & Hl).
    assert (lo' = lo) by congruence. assert (hi' = hi) by congruence. subst lo' hi'.
    destruct (keeps_loop c lo glo ghi hi Hord Hglo Hghi n f) as [_ K].
    { split; assumption. }
    exists lo, hi. repeat split; try assumption; apply K.
Qed.

Lemma X18_limit_within_bounds_when_rounding_fits_witness :
  ordered_bounds Sample.limits_64g 12 55 58 58 /\
  within_limits Sample.limits_64g (limit_gb (snd (loop 3 Sample.frame_64g))).
Proof.
  assert (O : ordered_bounds Sample.limits_64g 12 55 58 58).
  { repeat split; try reflexivity; vm_compute; discriminate. }
  split; [exact O|].
  apply (X18_limit_within_bounds_when_rounding_fits Sample.limits_64g 12 55 58 58 O).
  - vm_compute. discriminate.
  - vm_compute. discriminate.
  - reflexivity.
  - exists 12, 58. repeat split; try reflexivity; vm_compute; discriminate.
Defined.

(** C3.  The steady-state branch breaks the invariant that every other
    branch keeps.  Started with [--min-gb 10.004 --min-good-gb 10.004
    --max-good-gb 20 --max-gb 20] the bounds are ordered and a limit of 15 is
    within them; one iteration that measures 93 of 100 MB in use, the top of
    the good band, interpolates to [min_good_gb], rounds it to 10.0 and
    leaves the limit below [min_gb].  One hundredth of a percent higher the
    branch of the next rule sets the limit to [min_good_gb] itself, within
    the bounds. *)
Theorem C3_steady_rounding_leaves_the_bounds :
  let c := Sample.fine_grained in
  let f := Sample.frame_fine in
  let lo := Num.float 10.004 in
  ordered_bounds c lo lo 20 20 /\
  within_limits c (limit_gb f) /\
  fst (reading f) = Ok (100, 93)%Z /\
  select_rule c (percentage 93 100) = Steady /\
  limit_gb (snd (loop 1 f)) == 10 /\
  limit_gb (snd (loop 1 f)) < lo /\
  ~ within_limits c (limit_gb (snd (loop 1 f))) /\
  select_rule c (percentage 9301 10000) = AboveGood /\
  limit_gb (snd (rule_body AboveGood (percentage 9301 10000) f)) == lo.
Proof.
  cbv zeta.
  split; [repeat split; try reflexivity; vm_compute; discriminate|].
  split.
  { exists (Num.float 10.004), 20.
    repeat split; try reflexivity; vm_compute; discriminate. }
  split; [vm_compute; reflexivity|].
  split; [vm_compute; reflexivity|].
  split; [vm_compute; reflexivity|].
  split; [vm_compute; reflexivity|].
  split.
  { intros (lo & hi & Hlo & _ & Hl & _).
    injection Hlo as <-.
    revert Hl. vm_compute. intro H. exact (H eq_refl). }
  split; vm_compute; reflexivity.
Qed.

(* ================================================================== *)
(** ** The panic branch alternates the cache mode *)
(* ================================================================== *)

Lemma on_panic_mode p f :
  primarycache (snd (on_panic p f)) = Some (toggled (primarycache f)).
Proof.
  unfold on_panic, toggled.
  assert (G : forall v f0, primarycache f0 = Some v ->
    primarycache (snd ((pc <- gets primarycache;;
       value <- of_option pc TypeError;;
       lift (print (LinePanic p value));;
       lift drop_caches;; lift (set_primarycache value);; lift restart_crashplan) f0))
    = Some v).
  { intros v f0 H. rewrite <- H.
    match goal with |- primarycache (snd (?m f0)) = _ =>
      assert (R : respects same_locals m) by locals end.
    apply (R f0). }
  unfold bind at 1. unfold gets at 1.
  destruct (option_string_eqb (primarycache f) "metadata");
    unfold bind at 1; unfold modify at 1; apply G; reflexivity.
Qed.

Lemma panic_iteration_mode f :
  panic_triggering f ->
  primarycache (snd (iteration f)) = Some (toggled (primarycache f)).
Proof.
  intros (total & used & f1 & Hr & Ht & Hp).
  assert (L1 : primarycache f1 = primarycache f).
  { pose proof (respects_reading_locals f) as [_ H]. rewrite Hr in H. exact H. }
  assert (A : act total used f1 =
              on_panic (percentage used total) f1).
  { rewrite (act_runs_selected f1 total used Ht).
    unfold select_rule. apply gtb_true in Hp. rewrite Hp. reflexivity. }
  unfold iteration, try_except, loop_body. unfold bind at 1. rewrite Hr.
  cbn [fst snd]. rewrite A.
  pose proof (on_panic_mode (percentage used total) f1) as M.
  destruct (on_panic _ f1) as [[[] | e |] f2]; cbn [fst snd] in *; try congruence.
  pose proof (respects_handler_locals e f2) as [_ H]. congruence.
Qed.

(** C4, as amended.  An iteration that triggers the panic rule sets
    [primarycache] to "none" when it was "metadata" before and to "metadata"
    otherwise, whether or not the commands of the panic branch succeed.  So
    the next panic-triggering iteration that finds the mode as this one left
    it, as the one that follows at once does, sets the other of the two
    modes. *)
Theorem C4_panic_toggles (f : Frame) :
  panic_triggering f ->
  let first := primarycache (snd (iteration f)) in
  first = Some (toggled (primarycache f)) /\
  (first = Some "metadata" \/ first = Some "none") /\
  (forall g,
     panic_triggering g -> primarycache g = first ->
     let second := primarycache (snd (iteration g)) in
     (second = Some "metadata" \/ second = Some "none") /\
     second <> first /\
     (first = Some "metadata" -> second = Some "none") /\
     (first = Some "none" -> second = Some "metadata")) /\
  (panic_triggering (snd (iteration f)) ->
   let second := primarycache (snd (iteration (snd (iteration f)))) in
   (second = Some "metadata" \/ second = Some "none") /\
   second <> first /\
   (first = Some "metadata" -> second = Some "none") /\
   (first = Some "none" -> second = Some "metadata")).
Proof.
  intros H1. cbv zeta.
  assert (G : forall g,
     panic_triggering g ->
     primarycache g = primarycache (snd (iteration f)) ->
     (primarycache (snd (iteration g)) = Some "metadata" \/
      primarycache (snd (iteration g)) = Some "none") /\
     primarycache (snd (iteration g)) <> primarycache (snd (iteration f)) /\
     (primarycache (snd (iteration f)) = Some "metadata" ->
      primarycache (snd (iteration g)) = Some "none") /\
     (primarycache (snd (iteration f)) = Some "none" ->
      primarycache (snd (iteration g)) = Some "metadata")).
  { intros g Hg E.
    rewrite (panic_iteration_mode _ Hg), E, (panic_iteration_mode _ H1).
    unfold toggled.
    destruct (option_string_eqb (primarycache f) "metadata"); simpl;
      repeat split; auto; try discriminate; intro; discriminate. }
  split; [apply panic_iteration_mode, H1|].
  split.
  { rewrite (panic_iteration_mode _ H1). unfold toggled.
    destruct (option_string_eqb (primarycache f) "metadata"); auto. }
  split; [exact G|].
  intro H2. apply G; [exact H2 | reflexivity].
Qed.

Lemma C4_panic_toggles_witness :
  panic_triggering Sample.frame_panic /\
  panic_triggering (snd (iteration Sample.frame_panic)) /\
  primarycache (snd (iteration Sample.frame_panic)) = Some "metadata" /\
  primarycache (snd (iteration (snd (iteration Sample.frame_panic)))) = Some "none".
Proof.
  assert (H1 : panic_triggering Sample.frame_panic).
  { exists 64000%Z, 62500%Z, (snd (reading Sample.frame_panic)).
    split; [vm_compute; reflexivity|]. split; [discriminate|].
    vm_compute. reflexivity. }
  assert (H2 : panic_triggering (snd (iteration Sample.frame_panic))).
  { exists 64000%Z, 62500%Z, (snd (reading (snd (iteration Sample.frame_panic)))).
    split; [vm_compute; reflexivity|]. split; [discriminate|].
    vm_compute. reflexivity. }
  split; [exact H1|]. split; [exact H2|].
  destruct (C4_panic_toggles Sample.frame_panic H1) as (_ & _ & _ & T).
  destruct (T H2) as (_ & _ & T' & _).
  assert (F : primarycache (snd (iteration Sample.frame_panic)) = Some "metadata")
    by (vm_compute; reflexivity).
  split; [exact F | exact (T' F)].
Defined.

(** C4, as stated, fails when the below-min rule runs between two panics.
    On a machine that is at 97.66 percent, at 50 percent one measurement
    later and at 97.66 percent again, the first iteration triggers the panic
    rule and sets "metadata", the second does not trigger it and sets "all",
    and the third, the next to trigger the panic rule, sets "metadata" again:
    the panic handler has set the same mode twice in a row. *)
Lemma C4_same_mode_twice_in_a_row :
  let f := Sample.frame_swinging in
  let f1 := snd (iteration f) in
  let f2 := snd (iteration f1) in
  let f3 := snd (iteration f2) in
  panic_triggering f /\
  ~ panic_triggering f1 /\
  panic_triggering f2 /\
  primarycache f1 = Some "metadata" /\
  primarycache f2 = Some "all" /\
  primarycache f3 = Some "metadata".
Proof.
  cbv zeta.
  split.
  { exists 64000%Z, 62500%Z, (snd (reading Sample.frame_swinging)).
    split; [vm_compute; reflexivity|]. split; [discriminate|].
    vm_compute. reflexivity. }
  split.
  { intros (total & used & g & Hr & _ & Hp).
    assert (E : fst (reading (snd (iteration Sample.frame_swinging)))
                = Ok (64000, 32000)%Z) by (vm_compute; reflexivity).
    rewrite Hr in E. cbn [fst] in E. injection E as -> ->.
    apply (f_equal snd) in Hr. cbn [snd] in Hr. subst g.
    revert Hp. vm_compute. discriminate. }
  split.
  { exists 64000%Z, 62500%Z,
      (snd (reading (snd (iteration (snd (iteration Sample.frame_swinging)))))).
    split; [vm_compute; reflexivity|]. split; [discriminate|].
    vm_compute. reflexivity. }
  repeat split; vm_compute; reflexivity.
Qed.

(* ================================================================== *)
(** ** The initial limit *)
(* ================================================================== *)

Lemma clamp_cases lo hi v :
  (v < lo -> clamp lo hi v = lo) /\
  (lo <= v -> hi < v -> clamp lo hi v = hi) /\
  (lo <= v <= hi -> clamp lo hi v = v).
Proof.
  unfold clamp. repeat split.
  - intro H. apply ltb_true in H. now rewrite H.
  - intros H1 H2. apply ltb_false in H1. apply gtb_true in H2. now rewrite H1, H2.
  - intros [H1 H2]. apply ltb_false in H1. apply gtb_false in H2. now rewrite H1, H2.
Qed.

(** [limit_init], once the file is read: measure, [adjust] with the clamped
    value, return it. *)
Lemma limit_init_unfold m b lo hi :
  tunables (world m) zfs_arc_max = Some b ->
  min_gb (cfg m) = Some lo ->
  max_gb (cfg m) = Some hi ->
  limit_init m =
    (percent <- ram_percent;;
     adjust percent (clamp lo hi (gigabytes b))
       BeforeInitialSettings;;
     ret (clamp lo hi (gigabytes b)))
    (set_world (log (EvRead zfs_arc_max) (world m)) m).
Proof.
  intros Hb Hlo Hhi.
  unfold limit_init, read_tunable, emit, bound, clamp, ram_percent.
  unfold bind at 1. unfold bind at 1. unfold modify at 1.
  unfold bind at 1. unfold gets at 1. cbn [world set_world log tunables].
  rewrite Hb. unfold of_option at 1. unfold ret at 1.
  unfold bind at 1. unfold gets at 1. cbn [cfg set_world].
  rewrite Hlo, Hhi. unfold of_option.
  change (Num.round2 (Num.fdiv (Num.fdiv (Num.fdiv (inject_Z b) 1024) 1024) 1024))
    with (gigabytes b).
  set (v := gigabytes b).
  cbv beta iota delta [bind ret].
  destruct (v <? lo); [| destruct (v >? hi)];
    repeat match goal with
      | |- context [match ?x with pair _ _ => _ end] => destruct x as [[? | ? |] ?]
      end; reflexivity.
Qed.

(** [round(_, 2)] of a value known up to [e]. *)
Lemma round2_near (v t e : Q) :
  0 <= t -> Qabs (v - t) <= e ->
  Qabs (Num.round2 v - t)
    <= (1 # 200) + e + (t + e + (1 # 200)) * Num.unit_roundoff.
Proof.
  intros T E.
  unfold Num.round2, Num.round.
  pose proof (decimal_error 2 v) as D. change ((1 # 2) / 10 ^ 2) with (1 # 200) in D.
  pose proof (float_error (Num.decimal 2 v)) as F.
  set (dv := Num.decimal 2 v) in *. set (l := Num.float dv) in *.
  apply Qabs_bound in E. apply Qabs_bound in D.
  assert (U : 0 < Num.unit_roundoff) by reflexivity.
  assert (A : Qabs dv <= t + e + (1 # 200)) by (apply Qabs_bound; lra).
  assert (F' : Qabs (l - dv) <= (t + e + (1 # 200)) * Num.unit_roundoff).
  { eapply Qle_trans; [exact F|]. apply Qmult_le_compat_r; [exact A | lra]. }
  apply Qabs_bound in F'. apply Qabs_bound. lra.
Qed.

Lemma triple_error (u g a b c : Q) :
  0 <= u <= 1 # 100 -> 0 <= g ->
  g * (1 - u) <= a <= g * (1 + u) ->
  a * (1 - u) <= b <= a * (1 + u) ->
  b * (1 - u) <= c <= b * (1 + u) ->
  - (4 * u * g) <= c - g <= 4 * u * g.
Proof.
  intros [U0 U1] G [A1 A2] [B1 B2] [C1 C2].
  assert (A0 : 0 <= a) by nra.
  assert (B0 : 0 <= b) by nra.
  assert (GU : 0 <= g * u) by (apply Qmult_le_0_compat; lra).
  assert (GUU : 0 <= g * u * u) by (apply Qmult_le_0_compat; lra).
  assert (GUU' : g * u * u <= g * u * (1 # 100)) by nra.
  assert (B2' : b <= g * (1 + u) * (1 + u)) by nra.
  assert (B1' : g * (1 - u) * (1 - u) <= b) by nra.
  assert (C2' : c <= g * (1 + u) * (1 + u) * (1 + u)) by nra.
  assert (C1' : g * (1 - u) * (1 - u) * (1 - u) <= c) by nra.
  assert (GUUU : 0 <= g * u * u * u) by (apply Qmult_le_0_compat; lra).
  assert (GUUU' : g * u * u * u <= g * u * u * (1 # 100)) by nra.
  split; nra.
Qed.

(** Three divisions by 1024, each rounded. *)
Lemma three_divisions_error (x : Q) :
  0 <= x ->
  Qabs (Num.fdiv (Num.fdiv (Num.fdiv x 1024) 1024) 1024 - x / Num.GB)
    <= 4 * Num.unit_roundoff * (x / Num.GB).
Proof.
  intro X. unfold Num.fdiv.
  assert (U : 0 <= Num.unit_roundoff <= 1 # 100) by (split; vm_compute; discriminate).
  set (u := Num.unit_roundoff) in *.
  assert (step : forall y, 0 <= y ->
            0 <= Num.float (y / 1024) /\
            y / 1024 * (1 - u) <= Num.float (y / 1024) <= y / 1024 * (1 + u)).
  { intros y Y.
    assert (Y' : 0 <= y / 1024).
    { unfold Qdiv. change (/ 1024) with (1 # 1024). lra. }
    split; [apply float_nonneg, Y'|].
    pose proof (float_error (y / 1024)) as E.
    rewrite (Qabs_pos (y / 1024)) in E by exact Y'.
    apply Qabs_Qle_condition in E.
    change (1 # 9007199254740992) with u in E. lra. }
  destruct (step x X) as (A0 & A1 & A2). set (a := Num.float (x / 1024)) in *.
  destruct (step a A0) as (B0 & B1 & B2). set (b := Num.float (a / 1024)) in *.
  destruct (step b B0) as (C0 & C1 & C2). set (c := Num.float (b / 1024)) in *.
  apply Qabs_Qle_condition.
  assert (G : x / Num.GB == x / 1024 / 1024 / 1024) by (unfold Num.GB; field).
  rewrite G.
  unfold Qdiv in *. change (/ 1024) with (1 # 1024) in *.
  apply (triple_error u (x * (1 # 1024) * (1 # 1024) * (1 # 1024))
           (a * (1 # 1024) * (1 # 1024)) (b * (1 # 1024)) c).
  - exact U.
  - lra.
  - lra.
  - lra.
  - lra.
Qed.

Lemma gigabytes_error (b : Z) :
  (0 <= b)%Z ->
  Qabs (gigabytes b - inject_Z b / Num.GB)
    <= (1 # 200) + (6 * (inject_Z b / Num.GB) + 1) * Num.unit_roundoff.
Proof.
  intro B. assert (X : 0 <= inject_Z b) by (rewrite Zle_Qle in B; exact B).
  assert (G : 0 <= inject_Z b / Num.GB).
  { apply Qle_shift_div_l; [reflexivity | lra]. }
  pose proof (round2_near _ _ _ G (three_divisions_error _ X)) as E.
  unfold gigabytes. eapply Qle_trans; [exact E|].
  assert (U : 0 < Num.unit_roundoff) by reflexivity.
  assert (U1 : Num.unit_roundoff <= 1 # 100) by (vm_compute; discriminate).
  set (u := Num.unit_roundoff) in *. set (g := inject_Z b / Num.GB) in *.
  assert (GU : 0 <= u * g) by (apply Qmult_le_0_compat; lra).
  assert (GUU : 0 <= u * g * u) by (apply Qmult_le_0_compat; lra).
  assert (GUU' : u * g * u <= u * g * (1 # 100)) by nra.
  nra.
Qed.

(** C5, as amended.  [limit_init] reads the persisted value of [zfs_arc_max]
    and takes it in GB rounded to two decimals, which is within 0.005 GB
    (and the rounding of four float operations) of the persisted value;
    below [min_gb] it takes [min_gb], above [max_gb] it takes [max_gb], in
    between it keeps the rounded value.  It measures the memory, applies
    that limit with [adjust], and returns it: whenever it returns, it
    returns that limit after this [adjust], and it does return whenever the
    measurement and the [adjust] go through. *)
Theorem C5_limit_init_clamps (m : Machine) (b : Z) (lo hi : Q) :
  tunables (world m) zfs_arc_max = Some b ->
  min_gb (cfg m) = Some lo ->
  max_gb (cfg m) = Some hi ->
  let v := gigabytes b in
  let l := clamp lo hi v in
  let m0 := set_world (log (EvRead zfs_arc_max) (world m)) m in
  ((0 <= b)%Z ->
   Qabs (v - inject_Z b / Num.GB)
     <= (1 # 200) + (6 * (inject_Z b / Num.GB) + 1) * Num.unit_roundoff) /\
  (v < lo -> l = lo) /\
  (lo <= v -> hi < v -> l = hi) /\
  (lo <= v <= hi -> l = v) /\
  (forall l' m', limit_init m = (Ok l', m') ->
     l' = l /\
     exists percent m1,
       ram_percent m0 = (Ok percent, m1) /\
       adjust percent l BeforeInitialSettings m1 = (Ok tt, m')) /\
  (forall percent m1 m',
     ram_percent m0 = (Ok percent, m1) ->
     adjust percent l BeforeInitialSettings m1 = (Ok tt, m') ->
     limit_init m = (Ok l, m')).
Proof.
  intros Hb Hlo Hhi v l m0.
  destruct (clamp_cases lo hi v) as (C1 & C2 & C3).
  split; [apply gigabytes_error|].
  split; [exact C1|]. split; [exact C2|]. split; [exact C3|].
  pose proof (limit_init_unfold m b lo hi Hb Hlo Hhi) as U.
  fold v l m0 in U. split.
  - intros l' m' H. rewrite U in H. unfold bind in H.
    destruct (ram_percent m0) as [[percent | e |] m1] eqn:E1; try discriminate.
    destruct (adjust percent l BeforeInitialSettings m1) as [[[] | e |] m2] eqn:E2;
      try discriminate.
    unfold ret in H. injection H as <- <-.
    split; [reflexivity|]. exists percent, m1. split; [reflexivity | exact E2].
  - intros percent m1 m' E1 E2. rewrite U. unfold bind. rewrite E1, E2. reflexivity.
Qed.

Lemma C5_limit_init_clamps_witness :
  fst (limit_init Sample.machine_64g) = Ok 12 /\
  tunables (world (snd (limit_init Sample.machine_64g))) zfs_arc_max
    = Some 12884901888%Z.
Proof.
  destruct (C5_limit_init_clamps Sample.machine_64g 5368709121 12 58
              eq_refl eq_refl eq_refl) as (_ & Hlo & _ & _ & _ & Hret).
  assert (V : gigabytes 5368709121 < 12)
    by (vm_compute; reflexivity).
  rewrite (Hlo V) in Hret.
  rewrite (Hret (percentage 61000 64000)
             (snd (ram_percent
                     (set_world (log (EvRead zfs_arc_max) (world Sample.machine_64g))
                        Sample.machine_64g)))
             (snd (limit_init Sample.machine_64g))).
  - split; reflexivity.
  - vm_compute. reflexivity.
  - vm_compute. reflexivity.
Defined.

(** C5, as stated, fails on a persisted value within the bounds that is not
    a multiple of 0.01 GB: with [zfs_arc_max] at 20000000000 bytes, between
    the bounds of 12 and 58 GB, [limit_init] returns 18.63, not the 18.626...
    GB the file held, and [adjust] rewrites the file as 20003810181. *)
Lemma C5_value_in_range_is_rounded :
  let m := Sample.machine_20g in
  tunables (world m) zfs_arc_max = Some 20000000000%Z /\
  within_limits (cfg m) (20000000000 / Num.GB) /\
  fst (limit_init m) = Ok (gigabytes 20000000000) /\
  gigabytes 20000000000 == Num.float 18.63 /\
  ~ gigabytes 20000000000 == 20000000000 / Num.GB /\
  tunables (world (snd (limit_init m))) zfs_arc_max = Some 20003810181%Z.
Proof.
  cbv zeta.
  split; [reflexivity|].
  split.
  { exists 12, 58. repeat split; try reflexivity; vm_compute; discriminate. }
  split; [vm_compute; reflexivity|].
  split; [vm_compute; reflexivity|].
  split; [vm_compute; discriminate|].
  vm_compute. reflexivity.
Qed.

(* ================================================================== *)
(** ** The two writes of [adjust] *)
(* ================================================================== *)

Lemma write_tunable_eq t v m :
  write_tunable t v m =
    if write_succeeds (world m) (now (world m)) t v
    then (Ok tt, set_world (store t v (log (EvWrite t v) (world m))) m)
    else (Raise OSError, set_world (log (EvWrite t v) (world m)) m).
Proof.
  destruct m as [c fv gl [o tr tn lh lf]].
  unfold write_succeeds, write_tunable, emit, now. cbn.
  destruct (tn t); [| reflexivity].
  destruct (write_ok o (List.length tr) t v); reflexivity.
Qed.

Lemma now_log e w : now (log e w) = S (now w).
Proof. unfold now, log. cbn. rewrite length_app. cbn. apply Nat.add_1_r. Qed.

Lemma write_succeeds_log e w n t v :
  write_succeeds (log e w) n t v = write_succeeds w n t v.
Proof. reflexivity. Qed.

Lemma adjust_eq percent limit message m :
  let meta := Num.int ((limit - 2) * 1024 * 1024 * 1024) in
  let max := Num.int (limit * 1024 * 1024 * 1024) in
  let w1 := log (EvPrint (LineAdjust percent message limit meta max)) (world m) in
  let w2 := log (EvWrite zfs_arc_meta_limit meta) w1 in
  let w3 := log (EvWrite zfs_arc_max max) (store zfs_arc_meta_limit meta w2) in
  adjust percent limit message m =
    if write_succeeds (world m) (S (now (world m))) zfs_arc_meta_limit meta then
      if write_succeeds (world m) (S (S (now (world m)))) zfs_arc_max max
      then (Ok tt, set_world (store zfs_arc_max max w3) m)
      else (Raise OSError, set_world w3 m)
    else (Raise OSError, set_world w2 m).
Proof.
  cbv zeta. unfold adjust, print, emit.
  unfold bind at 1. unfold modify at 1.
  unfold bind at 1. rewrite write_tunable_eq.
  cbn [world set_world]. rewrite write_succeeds_log, now_log.
  destruct (write_succeeds (world m) (S (now (world m))) zfs_arc_meta_limit _) eqn:W1;
    [| reflexivity].
  rewrite write_tunable_eq. cbn [world set_world].
  match goal with |- context [write_succeeds (store ?t ?v ?w) ?n zfs_arc_max ?x] =>
    change (write_succeeds (store t v w) n zfs_arc_max x)
      with (write_succeeds (world m) n zfs_arc_max x) end.
  unfold now at 1. cbn [store trace].
  change (List.length (trace (log ?e ?w))) with (now (log e w)).
  rewrite !now_log.
  destruct (write_succeeds (world m) (S (S (now (world m)))) zfs_arc_max _); reflexivity.
Qed.

(** C6, as amended.  [adjust] derives the meta limit from [limit - 2] GB
    and the maximum from [limit], both in bytes, and writes the meta limit
    first.  When that write goes through it attempts the write of the
    maximum, and returns normally exactly when this one goes through too; when
    the second write fails the operation fails with the meta limit already
    stored.  When the first write fails the operation fails at once: the
    write of the maximum is not attempted and no file has changed. *)
Theorem C6_adjust_writes_in_order (m : Machine) (percent limit : Q) (message : reason) :
  let meta := Num.int ((limit - 2) * 1024 * 1024 * 1024) in
  let max := Num.int (limit * 1024 * 1024 * 1024) in
  let w := world m in
  let said := EvPrint (LineAdjust percent message limit meta max) in
  let first := write_succeeds w (S (now w)) zfs_arc_meta_limit meta in
  let second := write_succeeds w (S (S (now w))) zfs_arc_max max in
  let r := fst (adjust percent limit message m) in
  let w' := world (snd (adjust percent limit message m)) in
  if first then
    trace w' =
      (trace w ++ [said; EvWrite zfs_arc_meta_limit meta; EvWrite zfs_arc_max max])%list /\
    tunables w' zfs_arc_meta_limit = Some meta /\
    if second then r = Ok tt /\ tunables w' zfs_arc_max = Some max
    else r = Raise OSError /\ tunables w' zfs_arc_max = tunables w zfs_arc_max
  else
    trace w' = (trace w ++ [said; EvWrite zfs_arc_meta_limit meta])%list /\
    r = Raise OSError /\
    (forall t, tunables w' t = tunables w t).
Proof.
  cbv zeta. rewrite adjust_eq. cbv zeta.
  destruct (write_succeeds (world m) (S (now (world m))) zfs_arc_meta_limit _);
    [destruct (write_succeeds (world m) (S (S (now (world m)))) zfs_arc_max _) |];
    cbn; rewrite <- !app_assoc; repeat split.
Qed.

(** C6, as stated, fails when the first write fails: a limit of 1 GB gives
    a meta limit of -1073741824, a kernel that takes only unsigned numbers
    refuses it, and the write to [zfs_arc_max] is never attempted. *)
Lemma C6_second_write_not_attempted :
  let after := adjust 95.31 1 GtMax Sample.strict_machine in
  trace (world Sample.strict_machine) = [] /\
  fst after = Raise OSError /\
  attempted zfs_arc_meta_limit (trace (world (snd after))) /\
  ~ attempted zfs_arc_max (trace (world (snd after))).
Proof.
  cbv zeta. split; [reflexivity|]. split; [reflexivity|]. split.
  - exists (-1073741824)%Z. vm_compute. right. left. reflexivity.
  - intros [v H]. vm_compute in H.
    destruct H as [H | [H | H]]; try discriminate; exact H.
Qed.

(* ================================================================== *)
(** ** The schema of [free] is never selected *)
(* ================================================================== *)

Lemma same_free_version_step : world_step same_free_version.
Proof.
  split; unfold same_free_version.
  - reflexivity.
  - intros a b c H1 H2. congruence.
  - intros m w _ _. reflexivity.
Qed.



Lemma sfv_refl m : same_free_version m m.
Proof. reflexivity. Qed.

Lemma sfv_trans a b c : same_free_version a b -> same_free_version b c -> same_free_version a c.
Proof. unfold same_free_version. congruence. Qed.

Lemma sfvf_refl f : same_free_version_in_frame f f.
Proof. reflexivity. Qed.

Lemma sfvf_trans a b c : same_free_version_in_frame a b -> same_free_version_in_frame b c -> same_free_version_in_frame a c.
Proof. unfold same_free_version_in_frame, same_free_version. congruence. Qed.

Lemma respects_lift_free_version {A} (mc : M Machine A) :
  respects same_free_version mc -> respects same_free_version_in_frame (lift mc).
Proof.
  intros H f. unfold lift. specialize (H (mach f)).
  destruct (mc (mach f)) as [r m']. exact H.
Qed.

Ltac known :=
  first [ apply respects_adjust | apply respects_time_sleep
        | apply respects_print | apply respects_set_primarycache
        | apply respects_drop_caches | apply respects_restart_crashplan
        | apply respects_get_ram_total | apply respects_get_ram_used
        | apply respects_logger_error | apply respects_limit_init
        | apply respects_emit | apply respects_store
        | apply respects_set_lock_file ];
  exact same_free_version_step.

Ltac machine_steps :=
  repeat match goal with
    | |- respects _ (bind _ _) => apply (respects_bind same_free_version sfv_trans); [| intro]
    | |- respects _ (ret _) => apply (respects_ret same_free_version sfv_refl)
    | |- respects _ (raise _) => apply (respects_raise same_free_version sfv_refl)
    | |- respects _ (exit _) => apply (respects_raise same_free_version sfv_refl)
    | |- respects _ (gets _) => apply (respects_gets same_free_version sfv_refl)
    | |- respects _ (of_option _ _) => apply (respects_of_option same_free_version sfv_refl)
    | |- respects _ (try_except _ _) =>
        apply (respects_try_except same_free_version sfv_trans); [| intro]
    | |- respects _ (modify _) => intro; reflexivity
    | |- respects _ (if ?b then _ else _) => destruct b
    | |- respects _ _ => known
    end.

Ltac frame_steps :=
  repeat match goal with
    | |- respects _ (bind _ _) => apply (respects_bind same_free_version_in_frame sfvf_trans); [| intro]
    | |- respects _ (ret _) => apply (respects_ret same_free_version_in_frame sfvf_refl)
    | |- respects _ (raise _) => apply (respects_raise same_free_version_in_frame sfvf_refl)
    | |- respects _ (gets _) => apply (respects_gets same_free_version_in_frame sfvf_refl)
    | |- respects _ (of_option _ _) => apply (respects_of_option same_free_version_in_frame sfvf_refl)
    | |- respects _ (bound _) => apply (respects_of_option same_free_version_in_frame sfvf_refl)
    | |- respects _ (modify _) => intro; reflexivity
    | |- respects _ (lift _) => apply respects_lift_free_version; machine_steps
    | |- respects _ (if ?b then _ else _) => destruct b
    end.

Lemma respects_rule_body_fv r p : respects same_free_version_in_frame (rule_body r p).
Proof.
  destruct r; simpl;
    [ unfold on_panic | unfold on_above_max | unfold on_below_min
    | unfold on_above_good | unfold on_below_good
    | unfold on_steady, relative_goodness_of ];
    frame_steps.
Qed.

Lemma respects_iteration_fv : respects same_free_version_in_frame iteration.
Proof.
  unfold iteration. apply (respects_try_except same_free_version_in_frame sfvf_trans).
  - unfold loop_body, reading, act, percent_of. frame_steps.
    apply respects_rule_body_fv.
  - intro e. destruct e; simpl; frame_steps.
Qed.

Lemma respects_loop_fv n : respects same_free_version_in_frame (loop n).
Proof.
  induction n as [| n IH]; simpl.
  - intro f. reflexivity.
  - apply (respects_bind same_free_version_in_frame sfvf_trans); [apply respects_iteration_fv | intro; exact IH].
Qed.

Lemma respects_run_fv n : respects same_free_version (run n).
Proof.
  unfold run. apply (respects_bind same_free_version sfv_trans); [known|].
  intros l m. pose proof (respects_loop_fv n (enter l m)) as H.
  destruct (loop n (enter l m)) as [r f]. exact H.
Qed.

Lemma respects_auto_limits_fv : respects same_free_version auto_limits.
Proof. unfold auto_limits. machine_steps. Qed.

Lemma respects_main_fv n args : respects same_free_version (main n args).
Proof.
  unfold main, logging_init, path_exists.
  machine_steps; try apply respects_auto_limits_fv.
  intro m. unfold try_finally.
  assert (A : respects same_free_version (acquire_and_run n)).
  { unfold acquire_and_run, open_lock, flock, logger_error. machine_steps.
    apply respects_run_fv. }
  assert (C : respects same_free_version (got <- gets got_lock;; (if got : bool then remove_lock else ret tt))).
  { unfold remove_lock. machine_steps. }
  specialize (A m).
  destruct (acquire_and_run n m) as [[[] | e |] m1]; simpl in *; try exact A;
    specialize (C m1);
    match goal with |- context [match ?x with pair _ _ => _ end] =>
      destruct x as [[[] | e' |] m2] end;
    simpl in *; eapply sfv_trans; eassumption.
Qed.


(** C7: the code does not do what the claim says.  [detect_free_version]
    leaves the global [free_version] as it found it, and nothing in the
    script assigns it: it is still unset after any run of the script.
    [get_ram_used] therefore always reads the fields of the newer schema.
    On the output of procps 3.3.9 (no "available" column) it returns total
    minus cached, 64000 - 20000 = 44000, where the branch written for that
    schema returns the 40500 of the "-/+ buffers/cache" line. *)
Theorem C7_schema_detection_has_no_effect :
  (forall m, free_version (snd (detect_free_version m)) = free_version m) /\
  (forall fuel args w,
     free_version (snd (main fuel args (boot args w))) = None) /\
  (let old := boot Sample.default_args (Sample.fresh (Sample.calm Sample.free_old) 0 0) in
   Py.contains "available" (List.hd "" Sample.free_old) = false /\
   fst (get_ram_total old) = Ok 64000%Z /\
   fst (get_ram_used old) = Ok 44000%Z /\
   fst (get_ram_used
          (mkMachine (cfg old) (Some "3.3.9") (got_lock old) (world old))) = Ok 40500%Z).
Proof.
  split; [| split].
  - intro m. apply (respects_detect_free_version _ same_free_version_step m).
  - intros fuel args w. apply (respects_main_fv fuel args (boot args w)).
  - vm_compute. repeat split.
Qed.

(* ================================================================== *)
(** ** A second process *)
(* ================================================================== *)

Lemma startup_only_refl m : startup_only m m.
Proof.
  repeat split. exists []. split; [now rewrite app_nil_r | constructor].
Qed.

Lemma startup_only_trans a b c :
  startup_only a b -> startup_only b c -> startup_only a c.
Proof.
  intros (O1 & T1 & L1 & n1 & E1 & F1) (O2 & T2 & L2 & n2 & E2 & F2).
  repeat split; try congruence.
  exists (n1 ++ n2)%list. split.
  - rewrite E2, E1. now rewrite app_assoc.
  - apply Forall_app. split; assumption.
Qed.

Lemma harmless_ret {A} (a : A) : harmless (ret a).
Proof. intro m. split; [apply startup_only_refl | split; discriminate]. Qed.

Lemma harmless_raise {A} e : e <> SystemExit 0 -> harmless (@raise Machine A e).
Proof.
  intros H m. split; [apply startup_only_refl | split; [discriminate | simpl; congruence]].
Qed.

Lemma harmless_gets {A} (f : Machine -> A) : harmless (gets f).
Proof. intro m. split; [apply startup_only_refl | split; discriminate]. Qed.

Lemma harmless_of_option {A} (o : option A) e :
  e <> SystemExit 0 -> harmless (of_option o e).
Proof. intro H. destruct o; [apply harmless_ret | now apply harmless_raise]. Qed.

Lemma harmless_bind {A B} (mc : M Machine A) (k : A -> M Machine B) :
  harmless mc -> (forall a, harmless (k a)) -> harmless (bind mc k).
Proof.
  intros Hm Hk m. unfold bind. destruct (Hm m) as (S1 & N1 & N2).
  destruct (mc m) as [[a | e |] m1]; simpl in *.
  - destruct (Hk a m1) as (S2 & N3 & N4).
    split; [eapply startup_only_trans; eassumption | split; assumption].
  - split; [exact S1 | split; [discriminate | congruence]].
  - congruence.
Qed.

Lemma harmless_emit e : startup_event e -> harmless (emit e).
Proof.
  intros He m. split; [| split; discriminate].
  repeat split. exists [e]. split; [reflexivity | now constructor].
Qed.

Lemma harmless_modify (f : Machine -> Machine) :
  (forall m, world (f m) = world m) -> harmless (modify f).
Proof.
  intros Hf m. split; [| split; discriminate].
  simpl. unfold startup_only. rewrite Hf. apply startup_only_refl.
Qed.

Ltac harmless_steps :=
  repeat match goal with
    | |- harmless (bind _ _) => apply harmless_bind; [| intro]
    | |- harmless (ret _) => apply harmless_ret
    | |- harmless (gets _) => apply harmless_gets
    | |- harmless (raise _) => apply harmless_raise; discriminate
    | |- harmless (of_option _ _) => apply harmless_of_option; discriminate
    | |- harmless (emit _) => apply harmless_emit; exact I
    | |- harmless (print _) => unfold print
    | |- harmless (modify _) => apply harmless_modify; reflexivity
    | |- harmless (if ?b then _ else _) => destruct b
    | |- harmless (match ?o with Some _ => _ | None => _ end) => destruct o
    end.

Lemma harmless_get_ram_total : harmless get_ram_total.
Proof.
  unfold get_ram_total, get_ram, popen, command_failed, item, py_int.
  harmless_steps.
Qed.

Lemma harmless_auto_limits : harmless auto_limits.
Proof.
  unfold auto_limits. harmless_steps. apply harmless_get_ram_total.
Qed.

Lemma harmless_path_exists t : harmless (path_exists t).
Proof. unfold path_exists. harmless_steps. Qed.

Lemma harmless_exit {A} : harmless (@exit A 1).
Proof. unfold exit. harmless_steps. Qed.

(** With the lock held by another process, the attempt to take it ends the
    script with status 1 and [run] is not entered. *)
Lemma acquire_when_held fuel m :
  lock_held_elsewhere (world m) = true ->
  startup_only m (snd (acquire_and_run fuel m)) /\
  got_lock (snd (acquire_and_run fuel m)) = got_lock m /\
  (fst (acquire_and_run fuel m) = Raise (SystemExit 1) \/
   fst (acquire_and_run fuel m) = Raise OSError).
Proof.
  intro Hheld.
  destruct m as [c fv gl [o tr tn lh lf]]. cbn in Hheld. subst lh.
  unfold acquire_and_run, open_lock, flock, try_except, logger_error, exit, emit, now.
  cbv beta iota delta [bind gets modify raise ret set_world log set_lock_file
                       set_got_lock world oracle trace tunables cfg got_lock
                       free_version lock_held_elsewhere lock_file_exists].
  destruct (open_lock_ok o (List.length tr)); [destruct (verbose c) |];
    cbv beta iota delta [fst snd startup_only world oracle trace tunables
                         lock_held_elsewhere got_lock];
    (split; [| split; [reflexivity | auto]]);
    repeat split; rewrite <- ?app_assoc;
    eexists; (split; [reflexivity |]); repeat constructor.
Qed.

(** C8.  A second controller started while another process holds the lock
    ends with a status other than 0, whatever else the outside answers: it
    never sleeps, so it runs no iteration of the loop, it never reads or
    writes a sysfs file, and the files keep their content.  All it does is
    run [free] once, test that the two files exist, open the lock file, fail
    to lock it and log. *)
Theorem C8_second_process_exits (fuel : nat) (args : Cfg) (w : World) :
  lock_held_elsewhere w = true ->
  let r := fst (main fuel args (boot args w)) in
  let w' := world (snd (main fuel args (boot args w))) in
  failed r /\
  tunables w' = tunables w /\
  exists new,
    trace w' = (trace w ++ new)%list /\
    Forall startup_event new /\
    (forall t v, ~ In (EvWrite t v) new) /\
    (forall s, ~ In (EvSleep s) new) /\
    (forall t, ~ In (EvRead t) new).
Proof.
  intros Hheld.
  assert (G : wp (main fuel args)
                (fun r m' => startup_only (boot args w) m' /\ failed r)
                (boot args w)).
  { set (m0 := boot args w).
    pose (Post := fun (r : result unit) m' => startup_only m0 m' /\ failed r).
    assert (step : forall {A} (mc : M Machine A) (k : A -> M Machine unit) m,
               startup_only m0 m -> harmless mc ->
               (forall a m', startup_only m0 m' -> wp (k a) Post m') ->
               wp (bind mc k) Post m).
    { intros A mc k m Hm Hh Hk. apply wp_bind. unfold wp.
      destruct (Hh m) as (S1 & N1 & N2).
      assert (S2 : startup_only m0 (snd (mc m)))
        by (eapply startup_only_trans; eassumption).
      destruct (fst (mc m)) as [a | e |]; simpl.
      - apply Hk, S2.
      - split; [exact S2|]. destruct e; try (exists 1%Z; split; [reflexivity | lia]).
        + exists code. split; [reflexivity|]. intro; subst; congruence.
        + exists 130%Z. split; [reflexivity | lia].
      - congruence. }
    unfold main. fold Post.
    apply step; [apply startup_only_refl | apply harmless_modify; reflexivity |].
    intros _ m1 S1.
    apply step; [exact S1 | apply harmless_ret |]. intros _ m2 S2.
    apply step; [exact S2 | apply harmless_auto_limits |]. intros _ m3 S3.
    apply step; [exact S3 | apply harmless_path_exists |]. intros e1 m4 S4.
    apply step; [exact S4 | destruct (negb e1); harmless_steps |]. intros _ m5 S5.
    apply step; [exact S5 | apply harmless_path_exists |]. intros e2 m6 S6.
    apply step; [exact S6 | destruct (negb e2); harmless_steps |]. intros _ m7 S7.
    apply step; [exact S7 | destruct (negb e1 || negb e2);
                             [apply harmless_exit | apply harmless_ret] |].
    intros _ m8 S8.
    apply wp_bind, wp_modify; simpl.
    unfold wp, try_finally.
    assert (H8 : lock_held_elsewhere (world (set_got_lock false m8)) = true).
    { destruct S8 as (_ & _ & L & _). simpl. rewrite L. exact Hheld. }
    destruct (acquire_when_held fuel (set_got_lock false m8) H8) as (S9 & GL & R9).
    assert (S9' : startup_only m0 (snd (acquire_and_run fuel (set_got_lock false m8)))).
    { eapply startup_only_trans; [exact S8|]. exact S9. }
    destruct (acquire_and_run fuel (set_got_lock false m8)) as [r9 m9].
    simpl in *. unfold bind, gets. rewrite GL.
    destruct R9 as [-> | ->]; simpl; (split; [exact S9'|]);
      exists 1%Z; split; try reflexivity; lia. }
  unfold wp in G. destruct G as [(_ & T & _ & new & E & F) Hf].
  split; [exact Hf|]. split; [exact T|].
  exists new. split; [exact E|]. split; [exact F|].
  rewrite Forall_forall in F.
  repeat split; intros; intro Hin; apply F in Hin; exact Hin.
Qed.

Lemma C8_second_process_exits_witness :
  lock_held_elsewhere Sample.second_process = true /\
  failed (fst (main 5 Sample.default_args
                 (boot Sample.default_args Sample.second_process))) /\
  fst (main 5 Sample.default_args
         (boot Sample.default_args Sample.second_process)) = Raise (SystemExit 1).
Proof.
  split; [reflexivity|]. split; [| vm_compute; reflexivity].
  apply (C8_second_process_exits 5 Sample.default_args Sample.second_process).
  reflexivity.
Defined.

(* ================================================================== *)
(** ** An override of 0 *)
(* ================================================================== *)

(** [get_ram_total] neither reads nor writes [cfg]. *)
Lemma get_ram_total_set_cfg c m :
  get_ram_total (set_cfg c m) =
    (fst (get_ram_total m), set_cfg c (snd (get_ram_total m))).
Proof.
  destruct m as [c0 fv gl w].
  unfold get_ram_total, get_ram, popen, command_failed, emit, item, py_int.
  cbv beta iota delta [bind gets modify raise ret of_option set_cfg set_world
                       world cfg free_version got_lock fst snd].
  destruct (run_result (oracle (log (EvRun CmdFree) w)) (now w) CmdFree) as [ram |];
    [| reflexivity].
  destruct (option_string_eqb fv "3.3.9");
    (destruct (nth_error ram 1) as [l |]; [| reflexivity]);
    (destruct (nth_error (Py.split l) 1) as [tok |]; [| reflexivity]);
    destruct (Py.int_of_token tok); reflexivity.
Qed.


Lemma auto_limits_eq m :
  auto_limits m =
    match get_ram_total m with
    | (Ok total, m1) => (Ok tt, set_cfg (fill total (cfg m1)) m1)
    | (Raise e, m1) => (Raise e, m1)
    | (OutOfFuel, m1) => (OutOfFuel, m1)
    end.
Proof.
  unfold auto_limits, bind.
  destruct (get_ram_total m) as [[total | e |] [c fv gl w]]; try reflexivity.
  unfold fill, fill_max_good_gb, fill_min_good_gb, fill_max_gb, fill_min_gb,
    derived_gb, derived_min_gb, gets, modify, ret.
  cbn [cfg set_cfg].
  destruct (falsy (min_gb c));
    cbn [cfg set_cfg min_gb max_gb min_good_gb max_good_gb
         set_min_gb set_max_gb set_min_good_gb set_max_good_gb
         min_percent max_percent min_good_percent max_good_percent];
  destruct (falsy (max_gb c));
    cbn [cfg set_cfg min_gb max_gb min_good_gb max_good_gb
         set_min_gb set_max_gb set_min_good_gb set_max_good_gb
         min_percent max_percent min_good_percent max_good_percent];
  destruct (falsy (min_good_gb c));
    cbn [cfg set_cfg min_gb max_gb min_good_gb max_good_gb
         set_min_gb set_max_gb set_min_good_gb set_max_good_gb
         min_percent max_percent min_good_percent max_good_percent];
  destruct (falsy (max_good_gb c)); reflexivity.
Qed.

Section ZeroOverride.
Variables (z : Q) (total : Z).
Hypothesis Hz : z == 0.

Ltac by_cases f :=
  intros; unfold f;
  match goal with |- context [falsy ?o] =>
    let o' := eval cbn in o in change o with o'; destruct (falsy o')
  end; reflexivity.

Lemma fill_min_gb_max x c :
  fill_min_gb total (set_max_gb x c) = set_max_gb x (fill_min_gb total c).
Proof. by_cases fill_min_gb. Qed.

Lemma fill_min_gb_min_good x c :
  fill_min_gb total (set_min_good_gb x c) = set_min_good_gb x (fill_min_gb total c).
Proof. by_cases fill_min_gb. Qed.

Lemma fill_min_gb_max_good x c :
  fill_min_gb total (set_max_good_gb x c) = set_max_good_gb x (fill_min_gb total c).
Proof. by_cases fill_min_gb. Qed.

Lemma fill_max_gb_min_good x c :
  fill_max_gb total (set_min_good_gb x c) = set_min_good_gb x (fill_max_gb total c).
Proof. by_cases fill_max_gb. Qed.

Lemma fill_max_gb_max_good x c :
  fill_max_gb total (set_max_good_gb x c) = set_max_good_gb x (fill_max_gb total c).
Proof. by_cases fill_max_gb. Qed.

Lemma fill_min_good_gb_max_good x c :
  fill_min_good_gb total (set_max_good_gb x c) =
  set_max_good_gb x (fill_min_good_gb total c).
Proof. by_cases fill_min_good_gb. Qed.

(** Each statement keeps the three bounds it does not assign and the
    percentages. *)
Lemma fill_max_gb_keeps c :
  min_gb (fill_max_gb total c) = min_gb c.
Proof. by_cases fill_max_gb. Qed.

Lemma fill_min_good_gb_keeps c :
  min_gb (fill_min_good_gb total c) = min_gb c /\
  max_gb (fill_min_good_gb total c) = max_gb c.
Proof. split; by_cases fill_min_good_gb. Qed.

Lemma fill_max_good_gb_keeps c :
  min_gb (fill_max_good_gb total c) = min_gb c /\
  max_gb (fill_max_good_gb total c) = max_gb c /\
  min_good_gb (fill_max_good_gb total c) = min_good_gb c.
Proof. repeat split; by_cases fill_max_good_gb. Qed.

Lemma fill_min_gb_percents c :
  max_percent (fill_min_gb total c) = max_percent c /\
  min_good_percent (fill_min_gb total c) = min_good_percent c /\
  max_good_percent (fill_min_gb total c) = max_good_percent c.
Proof. repeat split; by_cases fill_min_gb. Qed.

Lemma fill_max_gb_percents c :
  min_good_percent (fill_max_gb total c) = min_good_percent c /\
  max_good_percent (fill_max_gb total c) = max_good_percent c.
Proof. repeat split; by_cases fill_max_gb. Qed.

Lemma fill_min_good_gb_percents c :
  max_good_percent (fill_min_good_gb total c) = max_good_percent c.
Proof. by_cases fill_min_good_gb. Qed.

Lemma falsy_zero : falsy (Some z) = true.
Proof. simpl. now apply Qeq_bool_iff. Qed.

Lemma fill_zero_min_gb c :
  fill total (set_min_gb (Some z) c) = fill total (set_min_gb None c) /\
  min_gb (fill total (set_min_gb (Some z) c)) =
    Some (inject_Z (derived_min_gb total (min_percent c))).
Proof.
  assert (E : fill_min_gb total (set_min_gb (Some z) c) =
              fill_min_gb total (set_min_gb None c)).
  { unfold fill_min_gb. change (min_gb (set_min_gb ?x c)) with x.
    rewrite falsy_zero. reflexivity. }
  unfold fill. rewrite E. split; [reflexivity|].
  destruct (fill_max_good_gb_keeps
              (fill_min_good_gb total (fill_max_gb total
                 (fill_min_gb total (set_min_gb None c))))) as (-> & _).
  destruct (fill_min_good_gb_keeps
              (fill_max_gb total (fill_min_gb total (set_min_gb None c)))) as (-> & _).
  rewrite fill_max_gb_keeps. reflexivity.
Qed.

Lemma fill_zero_max_gb c :
  fill total (set_max_gb (Some z) c) = fill total (set_max_gb None c) /\
  max_gb (fill total (set_max_gb (Some z) c)) =
    Some (inject_Z (derived_gb total (max_percent c))).
Proof.
  assert (E : forall c', fill_max_gb total (set_max_gb (Some z) c') =
                         fill_max_gb total (set_max_gb None c')).
  { intro c'. unfold fill_max_gb. change (max_gb (set_max_gb ?x c')) with x.
    rewrite falsy_zero. reflexivity. }
  unfold fill. rewrite !fill_min_gb_max, E. split; [reflexivity|].
  destruct (fill_max_good_gb_keeps
              (fill_min_good_gb total (fill_max_gb total
                 (set_max_gb None (fill_min_gb total c))))) as (_ & -> & _).
  destruct (fill_min_good_gb_keeps
              (fill_max_gb total (set_max_gb None (fill_min_gb total c)))) as (_ & ->).
  unfold fill_max_gb. cbn [max_gb set_max_gb falsy max_percent].
  destruct (fill_min_gb_percents c) as (-> & _). reflexivity.
Qed.

Lemma fill_zero_min_good_gb c :
  fill total (set_min_good_gb (Some z) c) = fill total (set_min_good_gb None c) /\
  min_good_gb (fill total (set_min_good_gb (Some z) c)) =
    Some (inject_Z (derived_gb total (min_good_percent c))).
Proof.
  assert (E : forall c', fill_min_good_gb total (set_min_good_gb (Some z) c') =
                         fill_min_good_gb total (set_min_good_gb None c')).
  { intro c'. unfold fill_min_good_gb.
    change (min_good_gb (set_min_good_gb ?x c')) with x.
    rewrite falsy_zero. reflexivity. }
  unfold fill. rewrite !fill_min_gb_min_good, !fill_max_gb_min_good, E.
  split; [reflexivity|].
  destruct (fill_max_good_gb_keeps
              (fill_min_good_gb total (set_min_good_gb None
                 (fill_max_gb total (fill_min_gb total c))))) as (_ & _ & ->).
  unfold fill_min_good_gb. cbn [min_good_gb set_min_good_gb falsy min_good_percent].
  destruct (fill_max_gb_percents (fill_min_gb total c)) as (-> & _).
  destruct (fill_min_gb_percents c) as (_ & -> & _). reflexivity.
Qed.

Lemma fill_zero_max_good_gb c :
  fill total (set_max_good_gb (Some z) c) = fill total (set_max_good_gb None c) /\
  max_good_gb (fill total (set_max_good_gb (Some z) c)) =
    Some (inject_Z (derived_gb total (max_good_percent c))).
Proof.
  assert (E : forall c', fill_max_good_gb total (set_max_good_gb (Some z) c') =
                         fill_max_good_gb total (set_max_good_gb None c')).
  { intro c'. unfold fill_max_good_gb.
    change (max_good_gb (set_max_good_gb ?x c')) with x.
    rewrite falsy_zero. reflexivity. }
  unfold fill.
  rewrite !fill_min_gb_max_good, !fill_max_gb_max_good, !fill_min_good_gb_max_good, E.
  split; [reflexivity|].
  unfold fill_max_good_gb. cbn [max_good_gb set_max_good_gb falsy max_good_percent].
  rewrite fill_min_good_gb_percents.
  destruct (fill_max_gb_percents (fill_min_gb total c)) as (_ & ->).
  destruct (fill_min_gb_percents c) as (_ & _ & ->). reflexivity.
Qed.

End ZeroOverride.

(** The derived bounds are truncations of float products: on 102400 MB, 58
    percent give 57 GB and 57 percent give 56 GB, where the exact products
    are 58 and 57; on 64000 MB the defaults give 12, 58, 55 and 58 GB. *)
Lemma derived_bounds_of_products :
  inject_Z 102400 / 1024 * (58 / 100) == 58 /\
  derived_gb 102400 58 = 57%Z /\
  derived_gb 102400 57 = 56%Z /\
  derived_min_gb 64000 80 = 12%Z /\
  derived_gb 64000 94 = 58%Z /\
  derived_gb 64000 89 = 55%Z /\
  derived_gb 64000 93 = 58%Z.
Proof. repeat split; vm_compute; reflexivity. Qed.

(** C9.  For each of the four bounds, [auto_limits] run with the bound given
    as 0 on the command line ends exactly as [auto_limits] run with the
    bound not given, and the bound it leaves is the one derived from the
    total memory and the percentage of that bound,
    [int(total/1024 * (percent / 100))] in floating point, divided by 4 for
    [min_gb] only: a 0 is not kept. *)
Theorem C9_zero_override_is_no_override (m m1 : Machine) (z : Q) (total : Z) :
  z == 0 ->
  get_ram_total m = (Ok total, m1) ->
  let c := cfg m in
  let after (c' : Cfg) := auto_limits (started_with c' m) in
  (after (set_min_gb (Some z) c) = after (set_min_gb None c) /\
   min_gb (cfg (snd (after (set_min_gb (Some z) c)))) =
     Some (inject_Z (derived_min_gb total (min_percent c)))) /\
  (after (set_max_gb (Some z) c) = after (set_max_gb None c) /\
   max_gb (cfg (snd (after (set_max_gb (Some z) c)))) =
     Some (inject_Z (derived_gb total (max_percent c)))) /\
  (after (set_min_good_gb (Some z) c) = after (set_min_good_gb None c) /\
   min_good_gb (cfg (snd (after (set_min_good_gb (Some z) c)))) =
     Some (inject_Z (derived_gb total (min_good_percent c)))) /\
  (after (set_max_good_gb (Some z) c) = after (set_max_good_gb None c) /\
   max_good_gb (cfg (snd (after (set_max_good_gb (Some z) c)))) =
     Some (inject_Z (derived_gb total (max_good_percent c)))).
Proof.
  intros Hz Ht c after. subst after. unfold started_with. cbv beta.
  rewrite !auto_limits_eq, !get_ram_total_set_cfg, Ht. cbn [fst snd cfg set_cfg].
  destruct (fill_zero_min_gb z total Hz c) as [A1 A2].
  destruct (fill_zero_max_gb z total Hz c) as [B1 B2].
  destruct (fill_zero_min_good_gb z total Hz c) as [C1 C2].
  destruct (fill_zero_max_good_gb z total Hz c) as [D1 D2].
  rewrite A1, B1, C1, D1, <- A1, <- B1, <- C1, <- D1.
  repeat split; assumption.
Qed.

Lemma C9_zero_override_is_no_override_witness :
  let m := Scenario.machine_100g in
  max_percent (cfg m) == 58 /\
  inject_Z 102400 / 1024 * (58 / 100) == 58 /\
  auto_limits (started_with (set_max_gb (Some 0) (cfg m)) m) =
    auto_limits (started_with (set_max_gb None (cfg m)) m) /\
  max_gb (cfg (snd (auto_limits
    (started_with (set_max_gb (Some 0) (cfg m)) m)))) = Some 57.
Proof.
  cbv zeta.
  destruct (C9_zero_override_is_no_override Scenario.machine_100g
              (snd (get_ram_total Scenario.machine_100g)) 0 102400)
    as (_ & (E & H) & _).
  - reflexivity.
  - vm_compute. reflexivity.
  - split; [reflexivity|]. split; [vm_compute; reflexivity|].
    split; [exact E|].
    etransitivity; [exact H | vm_compute; reflexivity].
Defined.

(* ================================================================== *)
(** ** The percentage is rounded before it is compared *)
(* ================================================================== *)

(** The percentage is a number of two decimals, as close to one as a double
    gets, and that number is within 0.005, and the rounding of the division,
    of the exact ratio. *)
Lemma percentage_two_decimals (used total : Z) :
  exists k : Z,
    percentage used total = Num.float (inject_Z k / 100) /\
    Qabs (inject_Z k / 100 - inject_Z (100 * used) / inject_Z total)
      <= (1 # 200)
         + Qabs (inject_Z (100 * used) / inject_Z total) * Num.unit_roundoff.
Proof.
  unfold percentage, Num.fdiv.
  set (x := inject_Z (100 * used) / inject_Z total).
  destruct (round2_cases (Num.float x)) as (k & E & D).
  exists k. split; [exact E|].
  pose proof (float_error x) as F.
  change (1 # 9007199254740992) with Num.unit_roundoff in F.
  apply Qabs_bound in D. apply Qabs_bound in F. apply Qabs_bound. lra.
Qed.

(** C10.  The percentage every comparison of the chain sees is
    [round(100*used/total, 2)], in the loop and in [limit_init] alike: a
    number of two decimals within 0.005 of the ratio.  So the rule can
    differ from the one the exact ratio selects: 23501 of 25000 MB is 94.004
    percent exactly, above [max_percent = 94], and 94 after rounding, which
    is not above it; the loop applies the rule above the good band instead
    of the rule above the maximum. *)
Theorem C10_rounded_percent_decides :
  (forall (used total : Z),
     exists k : Z,
       percentage used total = Num.float (inject_Z k / 100) /\
       Qabs (inject_Z k / 100 - inject_Z (100 * used) / inject_Z total)
         <= (1 # 200)
            + Qabs (inject_Z (100 * used) / inject_Z total) * Num.unit_roundoff) /\
  (forall (f : Frame) (total used : Z),
     act total used f =
       if (total =? 0)%Z then (Raise ZeroDivisionError, f)
       else
         let percent := percentage used total in
         rule_body (select_rule (cfg (mach f)) percent) percent f) /\
  (forall (m : Machine) (total used : Z),
     percent_of used total m =
       if (total =? 0)%Z then (Raise ZeroDivisionError, m)
       else (Ok (percentage used total), m)) /\
  (let c := Sample.default_args in
   let exact := inject_Z (100 * 23501) / inject_Z 25000 in
   exact == 94.004 /\
   percentage 23501 25000 == 94 /\
   select_rule c exact = AboveMax /\
   select_rule c (percentage 23501 25000) = AboveGood /\
   forall f, cfg (mach f) = c ->
     act 25000 23501 f = rule_body AboveGood (percentage 23501 25000) f).
Proof.
  split; [exact percentage_two_decimals|].
  split; [| split].
  - intros f total used. unfold act, percent_of.
    destruct (total =? 0)%Z; reflexivity.
  - intros m total used. unfold percent_of.
    destruct (total =? 0)%Z; reflexivity.
  - cbv zeta.
    assert (R : select_rule Sample.default_args (percentage 23501 25000) = AboveGood)
      by (vm_compute; reflexivity).
    split; [vm_compute; reflexivity|]. split; [vm_compute; reflexivity|].
    split; [vm_compute; reflexivity|]. split; [exact R|].
    intros f Hc. rewrite act_runs_selected by discriminate.
    rewrite Hc, R. reflexivity.
Qed.

(* ================================================================== *)
(** ** Further properties: the bounds derived at startup *)
(* ================================================================== *)

Lemma int_nonneg (x : Q) : 0 <= x -> Num.int x = Qfloor x.
Proof.
  intro H. destruct x as [n d]. unfold Num.int, Qfloor. cbn [Qnum Qden].
  apply Z.quot_div_nonneg; [| reflexivity].
  unfold Qle in H. cbn in H. lia.
Qed.

Lemma int_monotone (x y : Q) : 0 <= x -> x <= y -> (Num.int x <= Num.int y)%Z.
Proof.
  intros Hx Hxy. rewrite !int_nonneg by lra. now apply Qfloor_resp_le.
Qed.

Lemma fill_min_gb_others total c :
  max_gb (fill_min_gb total c) = max_gb c /\
  min_good_gb (fill_min_gb total c) = min_good_gb c /\
  max_good_gb (fill_min_gb total c) = max_good_gb c.
Proof. unfold fill_min_gb. destruct (falsy (min_gb c)); repeat split. Qed.

Lemma fill_max_gb_others total c :
  min_good_gb (fill_max_gb total c) = min_good_gb c /\
  max_good_gb (fill_max_gb total c) = max_good_gb c.
Proof. unfold fill_max_gb. destruct (falsy (max_gb c)); repeat split. Qed.

Lemma fill_min_good_gb_others total c :
  max_good_gb (fill_min_good_gb total c) = max_good_gb c.
Proof. unfold fill_min_good_gb. destruct (falsy (min_good_gb c)); repeat split. Qed.

Lemma fill_fields total c :
  min_gb (fill total c) =
    kept_or_derived (min_gb c)
      (inject_Z (derived_min_gb total (min_percent c))) /\
  max_gb (fill total c) =
    kept_or_derived (max_gb c)
      (inject_Z (derived_gb total (max_percent c))) /\
  min_good_gb (fill total c) =
    kept_or_derived (min_good_gb c)
      (inject_Z (derived_gb total (min_good_percent c))) /\
  max_good_gb (fill total c) =
    kept_or_derived (max_good_gb c)
      (inject_Z (derived_gb total (max_good_percent c))).
Proof.
  unfold fill, kept_or_derived.
  destruct (fill_max_good_gb_keeps total
              (fill_min_good_gb total (fill_max_gb total (fill_min_gb total c))))
    as (K1 & K2 & K3).
  destruct (fill_min_good_gb_keeps total (fill_max_gb total (fill_min_gb total c)))
    as (K4 & K5).
  pose proof (fill_max_gb_keeps total (fill_min_gb total c)) as K6.
  destruct (fill_min_gb_others total c) as (O1 & O2 & O3).
  destruct (fill_max_gb_others total (fill_min_gb total c)) as (O4 & O5).
  pose proof (fill_min_good_gb_others total (fill_max_gb total (fill_min_gb total c))) as O6.
  destruct (fill_min_gb_percents total c) as (P1 & P2 & P3).
  destruct (fill_max_gb_percents total (fill_min_gb total c)) as (P4 & P5).
  pose proof (fill_min_good_gb_percents total (fill_max_gb total (fill_min_gb total c))) as P6.
  split; [| split; [| split]].
  - rewrite K1, K4, K6. unfold fill_min_gb.
    destruct (falsy (min_gb c)); reflexivity.
  - rewrite K2, K5. unfold fill_max_gb at 1. rewrite O1, P1.
    destruct (falsy (max_gb c)); [reflexivity | exact O1].
  - rewrite K3. unfold fill_min_good_gb at 1. rewrite O4, O2, P4, P2.
    destruct (falsy (min_good_gb c)); [reflexivity | congruence].
  - unfold fill_max_good_gb at 1. rewrite O6, O5, O3, P6, P5, P3.
    destruct (falsy (max_good_gb c)); [reflexivity | congruence].
Qed.

Lemma get_ram_total_keeps_cfg m : cfg (snd (get_ram_total m)) = cfg m.
Proof. apply (respects_get_ram_total same_cfg same_cfg_step m). Qed.

Lemma kept_or_derived_set (before : option Q) (d : Q) :
  exists v, kept_or_derived before d = Some v.
Proof.
  unfold kept_or_derived. destruct before as [v |]; simpl.
  - destruct (Qeq_bool v 0); eauto.
  - eauto.
Qed.

Lemma kept_or_derived_given (v d : Q) :
  ~ v == 0 -> kept_or_derived (Some v) d = Some v.
Proof.
  intro H. unfold kept_or_derived. simpl.
  destruct (Qeq_bool v 0) eqn:E; [apply Qeq_bool_iff in E; contradiction | reflexivity].
Qed.

(** X1.  When [auto_limits] returns, each of the four bounds is set: a bound
    given on the command line and different from 0 is kept as given, and every
    other one is the value derived from the total memory that [free] reported
    and the percentage of that bound, [int(total/1024 * (percent / 100))]
    computed in floating point, divided by 4 for [min_gb]. *)
Theorem X1_auto_limits_sets_every_bound (m m' : Machine) :
  auto_limits m = (Ok tt, m') ->
  exists total lo glo ghi hi,
    fst (get_ram_total m) = Ok total /\
    min_gb (cfg m') = Some lo /\ min_good_gb (cfg m') = Some glo /\
    max_good_gb (cfg m') = Some ghi /\ max_gb (cfg m') = Some hi /\
    Some lo = kept_or_derived (min_gb (cfg m))
      (inject_Z (derived_min_gb total (min_percent (cfg m)))) /\
    Some hi = kept_or_derived (max_gb (cfg m))
      (inject_Z (derived_gb total (max_percent (cfg m)))) /\
    Some glo = kept_or_derived (min_good_gb (cfg m))
      (inject_Z (derived_gb total (min_good_percent (cfg m)))) /\
    Some ghi = kept_or_derived (max_good_gb (cfg m))
      (inject_Z (derived_gb total (max_good_percent (cfg m)))) /\
    (forall v, min_gb (cfg m) = Some v -> ~ v == 0 -> lo = v) /\
    (forall v, max_gb (cfg m) = Some v -> ~ v == 0 -> hi = v) /\
    (forall v, min_good_gb (cfg m) = Some v -> ~ v == 0 -> glo = v) /\
    (forall v, max_good_gb (cfg m) = Some v -> ~ v == 0 -> ghi = v).
Proof.
  intro H. rewrite auto_limits_eq in H.
  pose proof (get_ram_total_keeps_cfg m) as Hc.
  destruct (get_ram_total m) as [[total | e |] m1]; try discriminate.
  injection H as <-. cbn [snd] in Hc. cbn [cfg set_cfg fst].
  rewrite Hc.
  destruct (fill_fields total (cfg m)) as (F1 & F2 & F3 & F4).
  destruct (kept_or_derived_set (min_gb (cfg m))
    (inject_Z (derived_min_gb total (min_percent (cfg m)))))
    as [lo Elo].
  destruct (kept_or_derived_set (max_gb (cfg m))
    (inject_Z (derived_gb total (max_percent (cfg m)))))
    as [hi Ehi].
  destruct (kept_or_derived_set (min_good_gb (cfg m))
    (inject_Z (derived_gb total (min_good_percent (cfg m)))))
    as [glo Eglo].
  destruct (kept_or_derived_set (max_good_gb (cfg m))
    (inject_Z (derived_gb total (max_good_percent (cfg m)))))
    as [ghi Eghi].
  exists total, lo, glo, ghi, hi.
  rewrite F1, F2, F3, F4.
  repeat split; try congruence.
  - intros v Hv Hnz. rewrite Hv, kept_or_derived_given in Elo by exact Hnz. congruence.
  - intros v Hv Hnz. rewrite Hv, kept_or_derived_given in Ehi by exact Hnz. congruence.
  - intros v Hv Hnz. rewrite Hv, kept_or_derived_given in Eglo by exact Hnz. congruence.
  - intros v Hv Hnz. rewrite Hv, kept_or_derived_given in Eghi by exact Hnz. congruence.
Qed.

Lemma X1_auto_limits_sets_every_bound_witness :
  exists lo hi,
    min_gb (cfg (snd (auto_limits Scenario.machine_100g))) = Some lo /\
    max_gb (cfg (snd (auto_limits Scenario.machine_100g))) = Some hi /\
    lo = 2 /\ hi = 57 /\
    inject_Z 102400 / 1024 * (58 / 100) == 58.
Proof.
  destruct (X1_auto_limits_sets_every_bound Scenario.machine_100g
              (snd (auto_limits Scenario.machine_100g)))
    as (total & lo & glo & ghi & hi & T & H1 & _ & _ & H4 & _ & D & _ & _ & K & _).
  - vm_compute. reflexivity.
  - exists lo, hi. split; [exact H1|]. split; [exact H4|].
    assert (total = 102400%Z) as ->.
    { revert T. vm_compute. intro T. injection T as <-. reflexivity. }
    split; [apply K; [reflexivity | vm_compute; discriminate]|].
    split; [| vm_compute; reflexivity].
    revert D. vm_compute. intro D. injection D as ->. reflexivity.
Defined.

Lemma scaled_order (a x y : Q) : 0 <= a -> 0 <= x -> x <= y -> 0 <= a * x /\ a * x <= a * y.
Proof.
  intros Ha Hx Hxy. split.
  - apply Qmult_le_0_compat; assumption.
  - rewrite (Qmult_comm a x), (Qmult_comm a y). apply Qmult_le_compat_r; assumption.
Qed.

Lemma int_inject_Z (n : Z) : Num.int (inject_Z n) = n.
Proof. unfold Num.int. cbn [Qnum Qden inject_Z]. apply Z.quot_1_r. Qed.

Lemma int_0_le (x : Q) : 0 <= x -> (0 <= Num.int x)%Z.
Proof.
  intro H. rewrite <- (int_inject_Z 0). apply int_monotone; [apply Qle_refl | exact H].
Qed.

(** The float product [total/1024 * (percent / 100)] grows with the
    percentage. *)
Lemma product_monotone (total : Z) (p q : Q) :
  (0 <= total)%Z -> 0 <= p -> p <= q ->
  0 <= Num.fmul (Num.fdiv (inject_Z total) 1024) (Num.fdiv p 100) /\
  Num.fmul (Num.fdiv (inject_Z total) 1024) (Num.fdiv p 100)
    <= Num.fmul (Num.fdiv (inject_Z total) 1024) (Num.fdiv q 100).
Proof.
  intros Ht Hp Hpq. unfold Num.fmul, Num.fdiv.
  assert (Ha : 0 <= Num.float (inject_Z total / 1024)).
  { apply float_nonneg. apply Qle_shift_div_l; [reflexivity|].
    rewrite Qmult_0_l. change 0 with (inject_Z 0). now rewrite <- Zle_Qle. }
  assert (P : 0 <= Num.float (p / 100)).
  { apply float_nonneg. unfold Qdiv. change (/ 100) with (1 # 100). lra. }
  assert (PQ : Num.float (p / 100) <= Num.float (q / 100)).
  { apply float_monotone. unfold Qdiv. change (/ 100) with (1 # 100). lra. }
  destruct (scaled_order _ _ _ Ha P PQ) as [A1 A2].
  split; [apply float_nonneg, A1 | apply float_monotone, A2].
Qed.

Lemma derived_gb_monotone (total : Z) (p q : Q) :
  (0 <= total)%Z -> 0 <= p -> p <= q ->
  (0 <= derived_gb total p <= derived_gb total q)%Z.
Proof.
  intros Ht Hp Hpq. destruct (product_monotone total p q Ht Hp Hpq) as [A1 A2].
  unfold derived_gb. split; [apply int_0_le, A1 | apply int_monotone; assumption].
Qed.

Lemma derived_min_gb_below (total : Z) (p : Q) :
  (0 <= total)%Z -> 0 <= p ->
  (0 <= derived_min_gb total p <= derived_gb total p)%Z.
Proof.
  intros Ht Hp. destruct (product_monotone total p p Ht Hp (Qle_refl p)) as [A1 _].
  unfold derived_min_gb, derived_gb.
  set (x := Num.fmul _ _) in *.
  assert (Q4 : 0 <= x / 4 /\ x / 4 <= x).
  { unfold Qdiv. change (/ 4) with (1 # 4). split; lra. }
  assert (F : Num.fdiv x 4 <= x).
  { unfold Num.fdiv. apply Qle_trans with (Num.float x).
    - apply float_monotone, Q4.
    - subst x. unfold Num.fmul. rewrite float_idempotent. apply Qle_refl. }
  split.
  - apply int_0_le. unfold Num.fdiv. apply float_nonneg, Q4.
  - apply int_monotone; [unfold Num.fdiv; apply float_nonneg, Q4 | exact F].
Qed.

Lemma derived_order (total : Z) (c : Cfg) :
  (0 <= total)%Z -> thresholds_ordered c ->
  (0 <= derived_min_gb total (min_percent c) <=
     derived_gb total (min_good_percent c))%Z /\
  (0 <= derived_gb total (min_good_percent c) <=
     derived_gb total (max_good_percent c))%Z /\
  (derived_gb total (max_good_percent c) <= derived_gb total (max_percent c))%Z.
Proof.
  intros Ht (H0 & H1 & H2 & H3).
  destruct (derived_min_gb_below total (min_percent c) Ht H0) as [A1 A2].
  destruct (derived_gb_monotone total _ _ Ht H0 H1) as [B1 B2].
  destruct (derived_gb_monotone total (min_good_percent c) (max_good_percent c) Ht)
    as [C1 C2]; [lra | exact H2 |].
  destruct (derived_gb_monotone total (max_good_percent c) (max_percent c) Ht)
    as [D1 D2]; [lra | exact H3 |].
  lia.
Qed.

(** A machine with less than 2^63 MB and a percentage of at most 100 give a
    bound of at most 2^53 GB. *)
Lemma derived_gb_bound (total : Z) (p : Q) :
  (0 <= total < 2 ^ 63)%Z -> 0 <= p <= 100 ->
  (derived_gb total p <= 2 ^ 53)%Z.
Proof.
  intros [T0 T1] [P0 P1]. unfold derived_gb, Num.fmul, Num.fdiv.
  assert (F53 : Num.float (inject_Z (2 ^ 53)) == inject_Z (2 ^ 53)).
  { apply float_Z. vm_compute. discriminate. }
  assert (A0 : 0 <= Num.float (inject_Z total / 1024)).
  { apply float_nonneg. apply Qle_shift_div_l; [reflexivity|].
    rewrite Qmult_0_l. change 0 with (inject_Z 0). now rewrite <- Zle_Qle. }
  assert (A1 : Num.float (inject_Z total / 1024) <= inject_Z (2 ^ 53)).
  { rewrite <- F53. apply float_monotone.
    apply Qle_shift_div_r; [reflexivity|].
    apply Qle_trans with (inject_Z (2 ^ 53 * 1024)).
    - rewrite <- Zle_Qle. change (2 ^ 63)%Z with (2 ^ 53 * 1024)%Z in T1. lia.
    - rewrite inject_Z_mult. apply Qle_refl. }
  assert (B0 : 0 <= Num.float (p / 100)).
  { apply float_nonneg. unfold Qdiv. change (/ 100) with (1 # 100). lra. }
  assert (B1 : Num.float (p / 100) <= 1).
  { rewrite <- float_1. apply float_monotone.
    unfold Qdiv. change (/ 100) with (1 # 100). lra. }
  set (a := Num.float (inject_Z total / 1024)) in *.
  set (b := Num.float (p / 100)) in *.
  assert (AB : 0 <= a * b /\ a * b <= inject_Z (2 ^ 53)).
  { split; [apply Qmult_le_0_compat; assumption|].
    set (k := inject_Z (2 ^ 53)) in *. nra. }
  assert (F : Num.float (a * b) <= inject_Z (2 ^ 53)).
  { rewrite <- F53. apply float_monotone, AB. }
  rewrite <- (int_inject_Z (2 ^ 53)).
  apply int_monotone; [apply float_nonneg, AB | exact F].
Qed.

Lemma kept_or_derived_absent (d : Q) : kept_or_derived None d = Some d.
Proof. reflexivity. Qed.

Lemma derived_bounds_values (m m1 : Machine) (total : Z) :
  no_overrides (cfg m) ->
  thresholds_ordered (cfg m) ->
  get_ram_total m = (Ok total, m1) ->
  (0 <= total)%Z ->
  fst (auto_limits m) = Ok tt /\
  ordered_bounds (cfg (snd (auto_limits m)))
    (inject_Z (derived_min_gb total (min_percent (cfg m))))
    (inject_Z (derived_gb total (min_good_percent (cfg m))))
    (inject_Z (derived_gb total (max_good_percent (cfg m))))
    (inject_Z (derived_gb total (max_percent (cfg m)))).
Proof.
  intros (N1 & N2 & N3 & N4) Hth Hram Ht.
  pose proof (get_ram_total_keeps_cfg m) as Hc.
  rewrite auto_limits_eq, Hram. rewrite Hram in Hc. cbn [fst snd cfg set_cfg] in *.
  split; [reflexivity|]. rewrite Hc.
  destruct (fill_fields total (cfg m)) as (F1 & F2 & F3 & F4).
  rewrite N1, N2, N3, N4, !kept_or_derived_absent in *.
  destruct (derived_order total (cfg m) Ht Hth) as (O1 & O2 & O3).
  repeat split; try assumption; rewrite <- Zle_Qle; lia.
Qed.

Lemma derived_bounds_ordered (m m1 : Machine) (total : Z) :
  no_overrides (cfg m) ->
  thresholds_ordered (cfg m) ->
  get_ram_total m = (Ok total, m1) ->
  (0 <= total)%Z ->
  fst (auto_limits m) = Ok tt /\
  exists lo glo ghi hi : Z,
    ordered_bounds (cfg (snd (auto_limits m)))
      (inject_Z lo) (inject_Z glo) (inject_Z ghi) (inject_Z hi) /\
    Num.centi (inject_Z glo) /\ Num.centi (inject_Z ghi).
Proof.
  intros Hno Hth Hram Ht.
  destruct (derived_bounds_values m m1 total Hno Hth Hram Ht) as [R O].
  split; [exact R|].
  eexists _, _, _, _. split; [exact O|]. split; apply centi_inject.
Qed.


(** X2.  With no bound given on the command line, percentages that are
    non-negative and in their documented order, and a total that [free]
    reports as non-negative, [auto_limits] returns and the four bounds it
    derives are integers in the order [min_gb <= min_good_gb <= max_good_gb
    <= max_gb]. *)
Theorem X2_derived_bounds_are_ordered (m m1 : Machine) (total : Z) :
  no_overrides (cfg m) ->
  thresholds_ordered (cfg m) ->
  get_ram_total m = (Ok total, m1) ->
  (0 <= total)%Z ->
  fst (auto_limits m) = Ok tt /\
  exists lo glo ghi hi : Z,
    ordered_bounds (cfg (snd (auto_limits m)))
      (inject_Z lo) (inject_Z glo) (inject_Z ghi) (inject_Z hi) /\
    Num.centi (inject_Z glo) /\ Num.centi (inject_Z ghi).
Proof. apply derived_bounds_ordered. Qed.

Lemma X2_derived_bounds_are_ordered_witness :
  ordered_bounds
    (cfg (snd (auto_limits (boot Sample.default_args Sample.second_process))))
    12 55 58 58.
Proof.
  destruct (X2_derived_bounds_are_ordered
              (boot Sample.default_args Sample.second_process)
              (snd (get_ram_total (boot Sample.default_args Sample.second_process)))
              64000) as (_ & lo & glo & ghi & hi & _ & _ & _).
  - repeat split.
  - repeat split; vm_compute; discriminate.
  - vm_compute. reflexivity.
  - lia.
  - repeat split; try reflexivity; vm_compute; discriminate.
Defined.

(** The two ends of a good band of integers up to 2^53 are doubles, and the
    steady branch rounds them to themselves. *)
Lemma integer_band_fits (glo ghi : Z) :
  (0 <= glo <= ghi)%Z -> (ghi <= 2 ^ 53)%Z ->
  Num.round2 (Num.float (inject_Z glo)) == inject_Z glo /\
  Num.round2 (Num.fadd (inject_Z glo) (Num.fsub (inject_Z ghi) (inject_Z glo)))
    == inject_Z ghi.
Proof.
  intros [G0 G1] G2.
  change (2 ^ 53)%Z with 9007199254740992%Z in G2.
  assert (F : forall n, (0 <= n <= ghi)%Z ->
                Num.float (inject_Z n) == inject_Z n /\
                Num.round2 (inject_Z n) == inject_Z n).
  { intros n Hn. split; [apply float_Z | apply round2_Z]; lia. }
  split.
  - destruct (F glo) as [E1 E2]; [lia|]. rewrite E1. exact E2.
  - unfold Num.fadd, Num.fsub.
    assert (D : inject_Z ghi - inject_Z glo == inject_Z (ghi - glo)).
    { unfold Z.sub. rewrite inject_Z_plus, inject_Z_opp. reflexivity. }
    destruct (F (ghi - glo)%Z) as [E1 _]; [lia|].
    rewrite D, E1.
    assert (S : inject_Z glo + inject_Z (ghi - glo) == inject_Z ghi).
    { rewrite <- inject_Z_plus. replace (glo + (ghi - glo))%Z with ghi by lia.
      reflexivity. }
    rewrite S.
    destruct (F ghi) as [E3 E4]; [lia|]. rewrite E3. exact E4.
Qed.

(** X3.  Started without overrides on a machine whose total memory reads as
    non-negative, with percentages in their documented order and a derived
    [max_good_gb] of at most 2^53 GB (as on every machine with less than
    2^63 MB and a [max_good_percent] of at most 100), the script keeps the
    limit within the bounds it derived: the limit [limit_init] returns and
    the limit after any number of iterations of the loop lie in [[min_gb,
    max_gb]], whatever the measurements and whichever commands or writes
    fail. *)
Theorem X3_default_startup_keeps_limit_in_bounds
    (m m1 m2 m3 : Machine) (total : Z) (l : Q) (n : nat) :
  no_overrides (cfg m) ->
  thresholds_ordered (cfg m) ->
  get_ram_total m = (Ok total, m1) ->
  (0 <= total)%Z ->
  (derived_gb total (max_good_percent (cfg m)) <= 2 ^ 53)%Z ->
  auto_limits m = (Ok tt, m2) ->
  limit_init m2 = (Ok l, m3) ->
  within_limits (cfg m2) l /\
  within_limits (cfg m2) (limit_gb (snd (loop n (enter l m3)))).
Proof.
  intros Hno Hth Hram Ht Hbig Hauto Hinit.
  destruct (derived_bounds_values m m1 total Hno Hth Hram Ht) as (_ & Hord).
  rewrite Hauto in Hord. cbn [snd] in Hord.
  destruct (derived_order total (cfg m) Ht Hth) as (O1 & O2 & O3).
  destruct (integer_band_fits _ _ O2 Hbig) as [Hglo Hghi].
  set (lo := derived_min_gb total (min_percent (cfg m))) in *.
  set (glo := derived_gb total (min_good_percent (cfg m))) in *.
  set (ghi := derived_gb total (max_good_percent (cfg m))) in *.
  set (hi := derived_gb total (max_percent (cfg m))) in *.
  assert (Hlo : min_gb (cfg m2) = Some (inject_Z lo)) by apply Hord.
  assert (Hhi : max_gb (cfg m2) = Some (inject_Z hi)) by apply Hord.
  pose proof (limit_init_within (cfg m2) _ _ _ _ Hord m2 eq_refl) as W.
  unfold wp in W. rewrite Hinit in W. cbn [fst snd] in W. destruct W as [Hc3 Hl].
  split.
  - exists (inject_Z lo), (inject_Z hi). repeat split; try assumption; apply Hl.
  - destruct (keeps_loop (cfg m2) (inject_Z lo) (inject_Z glo) (inject_Z ghi)
                (inject_Z hi) Hord) with (n := n) (f := enter l m3) as [_ K].
    + rewrite Hglo, <- Zle_Qle. lia.
    + rewrite Hghi, <- Zle_Qle. lia.
    + split; [exact Hc3 | exact Hl].
    + exists (inject_Z lo), (inject_Z hi). repeat split; try assumption; apply K.
Qed.

Lemma X3_default_startup_keeps_limit_in_bounds_witness :
  let m := boot Sample.default_args
             (Sample.fresh (Sample.calm (Sample.free_new Sample.mem_95))
                3221225472 5368709121) in
  let m2 := snd (auto_limits m) in
  let m3 := snd (limit_init m2) in
  within_limits (cfg m2) (limit_gb (snd (loop 2 (enter 12 m3)))).
Proof.
  cbv zeta.
  apply (X3_default_startup_keeps_limit_in_bounds
           (boot Sample.default_args
              (Sample.fresh (Sample.calm (Sample.free_new Sample.mem_95))
                 3221225472 5368709121))
           (snd (get_ram_total
              (boot Sample.default_args
                 (Sample.fresh (Sample.calm (Sample.free_new Sample.mem_95))
                    3221225472 5368709121))))
           _ _ 64000 12 2).
  - repeat split.
  - repeat split; vm_compute; discriminate.
  - vm_compute. reflexivity.
  - lia.
  - vm_compute. discriminate.
  - vm_compute. reflexivity.
  - vm_compute. reflexivity.
Defined.

(** Beyond that size the doubles are too coarse for the interpolation.  With
    [-m 0.01 -g 0.01 -G 94] on a machine of 36448043830541766656 MB the
    derived [max_good_gb] and [max_gb] are both 33458165235067636, above
    2^53; a measurement of 0.01 percent, the lower end of the good band,
    interpolates to [min_good_gb + (max_good_gb - min_good_gb)] in floating
    point, which is 33458165235067640, above [max_gb]. *)
Lemma coarse_doubles_leave_the_bounds :
  let m := Scenario.huge_machine in
  let m2 := snd (auto_limits m) in
  let l := Num.float 33458165235067636 in
  no_overrides (cfg m) /\
  thresholds_ordered (cfg m) /\
  fst (get_ram_total m) = Ok 36448043830541766656%Z /\
  fst (auto_limits m) = Ok tt /\
  ordered_bounds (cfg m2) 889844820081 3559379280326
    33458165235067636 33458165235067636 /\
  (2 ^ 53 < derived_gb 36448043830541766656 (max_good_percent (cfg m)))%Z /\
  within_limits (cfg m2) l /\
  limit_gb (snd (loop 1 (enter l m2))) == 33458165235067640 /\
  ~ within_limits (cfg m2) (limit_gb (snd (loop 1 (enter l m2)))).
Proof.
  cbv zeta.
  split; [repeat split|].
  split; [repeat split; vm_compute; discriminate|].
  split; [vm_compute; reflexivity|].
  split; [vm_compute; reflexivity|].
  split; [repeat split; vm_compute; try reflexivity; discriminate|].
  split; [vm_compute; reflexivity|].
  split.
  { exists 889844820081, 33458165235067636.
    repeat split; vm_compute; try reflexivity; discriminate. }
  split; [vm_compute; reflexivity|].
  intros (lo & hi & _ & Hhi & _ & Hl).
  assert (E : max_gb (cfg (snd (auto_limits Scenario.huge_machine)))
              = Some 33458165235067636) by (vm_compute; reflexivity).
  rewrite E in Hhi. injection Hhi as <-.
  revert Hl. vm_compute. intro H. exact (H eq_refl).
Qed.

(* ================================================================== *)
(** ** Further properties: what [adjust] writes *)
(* ================================================================== *)







(* ================================================================== *)
(** ** Further properties: the steps of the limit *)
(* ================================================================== *)

Lemma same_run_state_refl f : same_run_state f f.
Proof. repeat split. Qed.

Lemma same_run_state_trans a b c :
  same_run_state a b -> same_run_state b c -> same_run_state a c.
Proof. intros (A1 & A2 & A3) (B1 & B2 & B3). repeat split; congruence. Qed.

Lemma respects_lift_run_state {A} (mc : M Machine A) :
  respects same_cfg mc -> respects same_run_state (lift mc).
Proof.
  intros H f. unfold lift. specialize (H (mach f)).
  destruct (mc (mach f)) as [r m']. repeat split. exact H.
Qed.

Ltac run_state :=
  repeat match goal with
    | |- respects _ (bind _ _) =>
        apply (respects_bind same_run_state same_run_state_trans); [| intro]
    | |- respects _ (lift _) =>
        apply respects_lift_run_state;
        first [ apply respects_adjust | apply respects_time_sleep
              | apply respects_print | apply respects_set_primarycache
              | apply respects_drop_caches | apply respects_restart_crashplan
              | apply respects_get_ram_total | apply respects_get_ram_used
              | apply respects_logger_error ];
        exact same_cfg_step
    | |- respects _ (ret _) => apply (respects_ret same_run_state same_run_state_refl)
    | |- respects _ (raise _) => apply (respects_raise same_run_state same_run_state_refl)
    | |- respects _ (gets _) => apply (respects_gets same_run_state same_run_state_refl)
    | |- respects _ (of_option _ _) =>
        apply (respects_of_option same_run_state same_run_state_refl)
    end.

(** The limit and the configuration after the branch above the maximum. *)
Lemma on_above_max_step p f lo :
  min_gb (cfg (mach f)) = Some lo ->
  limit_gb (snd (on_above_max p f)) =
    (if limit_gb f >? lo
     then if limit_gb f - 1 <? lo then lo else limit_gb f - 1
     else limit_gb f) /\
  primarycache (snd (on_above_max p f)) = primarycache f /\
  cfg (mach (snd (on_above_max p f))) = cfg (mach f).
Proof.
  intro Hlo.
  assert (G : exists f0 (tail : M Frame unit),
             respects same_run_state tail /\
             snd (on_above_max p f) = snd (tail f0) /\
             limit_gb f0 =
               (if limit_gb f >? lo
                then if limit_gb f - 1 <? lo then lo else limit_gb f - 1
                else limit_gb f) /\
             primarycache f0 = primarycache f /\
             cfg (mach f0) = cfg (mach f)).
  { unfold on_above_max.
    unfold bind at 1. unfold gets at 1.
    unfold bind at 1. unfold gets at 1.
    rewrite Hlo. unfold bound, of_option. unfold bind at 1. unfold ret at 1.
    destruct (limit_gb f >? lo).
    - unfold bind at 1. unfold modify at 1.
      unfold bind at 1. unfold gets at 1. cbn [limit_gb set_limit_gb].
      unfold bind at 1.
      destruct (limit_gb f - 1 <? lo).
      + unfold modify at 1. unfold bind at 1. unfold gets at 1.
        cbn [limit_gb set_limit_gb]. cbv beta.
        eexists _, _. split; [| split; [reflexivity | repeat split]]. run_state.
      + unfold ret at 1. unfold bind at 1. unfold gets at 1.
        cbn [limit_gb set_limit_gb]. cbv beta.
        eexists _, _. split; [| split; [reflexivity | repeat split]]. run_state.
    - cbv beta.
      eexists _, _. split; [| split; [reflexivity | repeat split]]. run_state. }
  destruct G as (f0 & tail & R & -> & E1 & E2 & E3).
  destruct (R f0) as (-> & -> & ->). repeat split; assumption.
Qed.

Lemma above_max_value (l lo : Q) :
  lo <= l ->
  let l' := if l >? lo then if l - 1 <? lo then lo else l - 1 else l in
  lo <= l' /\ (lo <= l - 1 -> l' == l - 1) /\ (l - 1 <= lo -> l' == lo).
Proof.
  intro H. cbv zeta.
  destruct (l >? lo) eqn:E1.
  - apply gtb_true in E1. destruct (l - 1 <? lo) eqn:E2.
    + apply ltb_true in E2. repeat split; intros; lra.
    + apply ltb_false in E2. repeat split; intros; lra.
  - apply gtb_false in E1. repeat split; intros; lra.
Qed.

(** X5.  The branch above the maximum lowers the limit by one GB, stopping
    at [min_gb]: from a limit not below [min_gb], after the branch has run [n]
    times the limit is [limit - n] while that is at least [min_gb] and is
    [min_gb] from then on, whether or not the writes of [adjust] succeed on
    the way. *)
Theorem X5_above_max_descends_to_the_floor (f : Frame) (lo : Q) (ps : list Q) :
  min_gb (cfg (mach f)) = Some lo ->
  lo <= limit_gb f ->
  let n := inject_Z (Z.of_nat (List.length ps)) in
  let after := limit_gb (repeated on_above_max ps f) in
  lo <= after /\
  (lo <= limit_gb f - n -> after == limit_gb f - n) /\
  (limit_gb f - n <= lo -> after == lo).
Proof.
  revert f. induction ps as [| p ps IH]; intros f Hlo Hl; cbv zeta.
  - cbn [repeated List.length Z.of_nat]. change (inject_Z 0) with 0.
    repeat split; intros; lra.
  - cbn [repeated List.length].
    destruct (on_above_max_step p f lo Hlo) as (E & _ & Ec).
    destruct (above_max_value (limit_gb f) lo Hl) as (V1 & V2 & V3).
    rewrite <- E in V1, V2, V3.
    assert (Hlo' : min_gb (cfg (mach (snd (on_above_max p f)))) = Some lo)
      by (rewrite Ec; exact Hlo).
    destruct (IH _ Hlo' V1) as (I1 & I2 & I3).
    rewrite Nat2Z.inj_succ, <- Z.add_1_r, inject_Z_plus.
    change (inject_Z 1) with 1.
    set (n := inject_Z (Z.of_nat (List.length ps))) in *.
    assert (Hn : 0 <= n).
    { subst n. change 0 with (inject_Z 0). rewrite <- Zle_Qle. lia. }
    split; [exact I1|]. split.
    + intro H. rewrite I2; [rewrite V2; lra | rewrite V2; lra].
    + intro H.
      destruct (Qlt_le_dec (limit_gb f - 1) lo) as [C | C].
      * rewrite I3; [reflexivity | rewrite V3; lra].
      * rewrite I3; [reflexivity | rewrite V2; lra].
Qed.

Lemma X5_above_max_descends_to_the_floor_witness :
  limit_gb (repeated on_above_max [95; 95; 96] Sample.frame_fine) == 12 /\
  limit_gb (repeated on_above_max [95; 95; 96; 95; 95; 95] Sample.frame_fine)
    == Num.float 10.004.
Proof.
  assert (L : Num.float 10.004 <= limit_gb Sample.frame_fine)
    by (vm_compute; discriminate).
  split.
  - destruct (X5_above_max_descends_to_the_floor Sample.frame_fine (Num.float 10.004)
                [95; 95; 96] eq_refl L) as (_ & H & _).
    rewrite H; [reflexivity | vm_compute; discriminate].
  - destruct (X5_above_max_descends_to_the_floor Sample.frame_fine (Num.float 10.004)
                [95; 95; 96; 95; 95; 95] eq_refl L) as (_ & _ & H).
    rewrite H; [reflexivity | vm_compute; discriminate].
Defined.

(** The second half of the branch below the minimum. *)
Local Abbreviation raise_limit p c :=
  (l <- gets limit_gb;;
   hi0 <- bound (max_gb c);;
   (if l <? hi0
    then
      modify (set_limit_gb (l + 1));;
      l0 <- gets limit_gb;;
      (if l0 >? hi0 then modify (set_limit_gb hi0) else ret tt);;
      l1 <- gets limit_gb;; lift (adjust p l1 LtMin)
    else lift (print (LineTooHigh p l));; lift (time_sleep sleep_time_idle))).




(* ================================================================== *)
(** ** Further properties: how computations end *)
(* ================================================================== *)

Section Tame.
Context {S : Type} (ora : S -> Oracle).

Lemma tame_ret {A} (a : A) : tame ora (ret a).
Proof. intro s. repeat split; discriminate. Qed.

Lemma tame_raise {A} e : e <> KeyboardInterrupt -> tame ora (@raise S A e).
Proof. intros H s. repeat split; [discriminate | simpl; congruence]. Qed.

Lemma tame_gets {A} (f : S -> A) : tame ora (gets f).
Proof. intro s. repeat split; discriminate. Qed.

Lemma tame_modify (f : S -> S) : (forall s, ora (f s) = ora s) -> tame ora (modify f).
Proof. intros H s. repeat split; [apply H | discriminate | discriminate]. Qed.

Lemma tame_of_option {A} (o : option A) e :
  e <> KeyboardInterrupt -> tame ora (of_option o e).
Proof. intro H. destruct o; [apply tame_ret | now apply tame_raise]. Qed.

Lemma tame_bind {A B} (m : M S A) (k : A -> M S B) :
  tame ora m -> (forall a, tame ora (k a)) -> tame ora (bind m k).
Proof.
  intros Hm Hk s. unfold bind. destruct (Hm s) as (O1 & N1 & K1).
  destruct (m s) as [[a | e |] s1]; cbn [fst snd] in *.
  - destruct (Hk a s1) as (O2 & N2 & K2).
    repeat split; [congruence | exact N2 |].
    intro H. apply K2. rewrite O1. exact H.
  - repeat split; [exact O1 | discriminate |].
    intros H E. apply (K1 H). congruence.
  - congruence.
Qed.

Lemma tame_mapM {A B} (f : A -> M S B) (l : list A) :
  (forall a, tame ora (f a)) -> tame ora (mapM f l).
Proof.
  intro Hf. induction l as [| a l IH]; simpl.
  - apply tame_ret.
  - apply tame_bind; [apply Hf|]. intro b.
    apply tame_bind; [exact IH|]. intro bs. apply tame_ret.
Qed.

Lemma tame_for_each {A} (l : list A) (body : A -> M S unit) :
  (forall a, tame ora (body a)) -> tame ora (for_each l body).
Proof.
  intro Hb. induction l as [| a l IH]; simpl.
  - apply tame_ret.
  - apply tame_bind; [apply Hb | intros _; exact IH].
Qed.

End Tame.

Lemma tame_lift {A} (mc : M Machine A) :
  tame machine_oracle mc -> tame frame_oracle (lift mc).
Proof.
  intros H f. unfold lift, frame_oracle. specialize (H (mach f)).
  unfold machine_oracle in H.
  destruct (mc (mach f)) as [r m']. exact H.
Qed.

Lemma tame_time_sleep n : tame machine_oracle (time_sleep n).
Proof.
  intro m. unfold time_sleep, emit, machine_oracle.
  cbv beta iota delta [bind gets modify fst snd].
  cbn [world set_world log oracle].
  destruct (interrupted (oracle (world m)) (now (world m))) eqn:E; cbn.
  - repeat split; [discriminate|]. intro H. rewrite H in E. discriminate.
  - repeat split; discriminate.
Qed.

Ltac tame_steps :=
  repeat match goal with
    | |- tame _ (bind _ _) => apply tame_bind; [| intro]
    | |- tame _ (ret _) => apply tame_ret
    | |- tame _ (gets _) => apply tame_gets
    | |- tame _ (raise _) => apply tame_raise; discriminate
    | |- tame _ command_failed => apply tame_raise; discriminate
    | |- tame _ (of_option _ _) => apply tame_of_option; discriminate
    | |- tame _ (bound _) => apply tame_of_option; discriminate
    | |- tame _ (item _ _) => apply tame_of_option; discriminate
    | |- tame _ (py_int _) => apply tame_of_option; discriminate
    | |- tame _ (modify _) => apply tame_modify; reflexivity
    | |- tame _ (emit _) => apply tame_modify; reflexivity
    | |- tame _ (print _) => apply tame_modify; reflexivity
    | |- tame _ logger_error => apply tame_modify; reflexivity
    | |- tame _ (time_sleep _) => apply tame_time_sleep
    | |- tame _ (mapM _ _) => apply tame_mapM; intro
    | |- tame _ (for_each _ _) => apply tame_for_each; intro
    | |- tame _ (let _ := _ in _) => cbv zeta
    | |- tame _ (if ?b then _ else _) => destruct b
    | |- tame _ (match ?o with Some _ => _ | None => _ end) => destruct o
    | |- tame _ (match ?l with [] => _ | _ :: _ => _ end) => destruct l
    end.

Lemma tame_popen c : tame machine_oracle (popen c).
Proof. unfold popen. tame_steps. Qed.

Lemma tame_get_ram : tame machine_oracle get_ram.
Proof. unfold get_ram. tame_steps. apply tame_popen. Qed.

Lemma tame_get_ram_total : tame machine_oracle get_ram_total.
Proof. unfold get_ram_total. tame_steps; apply tame_get_ram. Qed.

Lemma tame_get_ram_used : tame machine_oracle get_ram_used.
Proof. unfold get_ram_used. tame_steps; apply tame_get_ram. Qed.

Lemma tame_get_pools : tame machine_oracle get_pools.
Proof. unfold get_pools. tame_steps. apply tame_popen. Qed.

Lemma tame_active_pools : tame machine_oracle active_pools.
Proof. unfold active_pools. tame_steps. apply tame_get_pools. Qed.

Lemma tame_drop_caches : tame machine_oracle drop_caches.
Proof. unfold drop_caches. tame_steps. apply tame_popen. Qed.

Lemma tame_restart_crashplan : tame machine_oracle restart_crashplan.
Proof. unfold restart_crashplan. tame_steps. apply tame_popen. Qed.

Lemma tame_set_primarycache v : tame machine_oracle (set_primarycache v).
Proof.
  unfold set_primarycache. tame_steps; [apply tame_active_pools | apply tame_popen].
Qed.

Lemma tame_write_tunable t v : tame machine_oracle (write_tunable t v).
Proof. unfold write_tunable. tame_steps. Qed.

Lemma tame_read_tunable t : tame machine_oracle (read_tunable t).
Proof. unfold read_tunable. tame_steps. Qed.

Lemma tame_adjust p l msg : tame machine_oracle (adjust p l msg).
Proof. unfold adjust. tame_steps; apply tame_write_tunable. Qed.

Lemma tame_percent_of {S} (ora : S -> Oracle) used total :
  tame ora (percent_of used total).
Proof. unfold percent_of. tame_steps. Qed.

Lemma tame_limit_init : tame machine_oracle limit_init.
Proof.
  unfold limit_init. tame_steps;
    first [ apply tame_read_tunable | apply tame_get_ram_total
          | apply tame_get_ram_used | apply tame_percent_of | apply tame_adjust ].
Qed.

Ltac tame_frame :=
  repeat match goal with
    | |- tame _ (lift _) =>
        apply tame_lift;
        first [ apply tame_adjust | apply tame_set_primarycache
              | apply tame_drop_caches | apply tame_restart_crashplan
              | apply tame_get_ram_total | apply tame_get_ram_used
              | apply tame_time_sleep
              | apply tame_modify; reflexivity ]
    | |- tame _ (percent_of _ _) => apply tame_percent_of
    | |- tame _ (relative_goodness_of _ _) => unfold relative_goodness_of
    | |- _ => progress tame_steps
    end.

Lemma tame_rule_body r p : tame frame_oracle (rule_body r p).
Proof.
  destruct r; simpl;
    [ unfold on_panic | unfold on_above_max | unfold on_below_min
    | unfold on_above_good | unfold on_below_good | unfold on_steady ];
    tame_frame.
Qed.

Lemma tame_loop_body : tame frame_oracle loop_body.
Proof.
  unfold loop_body, reading, act. tame_frame. apply tame_rule_body.
Qed.




(* ================================================================== *)
(** ** Further properties: what ends the loop *)
(* ================================================================== *)

Lemma exn_eq_KeyboardInterrupt (e : exn) :
  e = KeyboardInterrupt \/ e <> KeyboardInterrupt.
Proof. destruct e; first [left; reflexivity | right; discriminate]. Qed.

Lemma handler_outcome e f :
  e <> KeyboardInterrupt ->
  let t := trace (world (mach f)) in
  trace (world (mach (snd (loop_handler e f)))) = (t ++ [EvLogError; EvSleep 30])%list /\
  same_run_state f (snd (loop_handler e f)) /\
  frame_oracle (snd (loop_handler e f)) = frame_oracle f /\
  fst (loop_handler e f) =
    if interrupted (frame_oracle f) (S (List.length t))
    then Raise KeyboardInterrupt else Ok tt.
Proof.
  intros He t.
  assert (E : loop_handler e f = lift (logger_error;; time_sleep 30) f)
    by (destruct e; try reflexivity; congruence).
  rewrite E. clear E.
  destruct f as [l pc [c fv gl [o tr tn lh lf]]]. subst t.
  unfold lift, logger_error, time_sleep, emit, now, frame_oracle.
  cbv beta iota delta [bind gets modify fst snd mach world set_world log oracle
                       trace tunables lock_held_elsewhere lock_file_exists
                       cfg free_version got_lock].
  rewrite length_app. cbn [List.length]. rewrite Nat.add_1_r.
  destruct (interrupted o (S (List.length tr)));
    cbn; rewrite <- app_assoc; repeat split.
Qed.

Lemma tame_iteration : tame frame_oracle iteration.
Proof.
  intro f. unfold iteration, try_except.
  destruct (tame_loop_body f) as (O1 & N1 & K1).
  destruct (loop_body f) as [[[] | e |] f1]; cbn [fst snd] in *.
  - repeat split; [exact O1 | discriminate | discriminate].
  - destruct (exn_eq_KeyboardInterrupt e) as [-> | Ne].
    + cbn. repeat split; [exact O1 | discriminate | exact K1].
    + destruct (handler_outcome e f1 Ne) as (_ & _ & O2 & R2).
      repeat split; [congruence | rewrite R2; destruct (interrupted _ _); discriminate |].
      intro H. rewrite R2. rewrite O1, H. discriminate.
  - congruence.
Qed.

Lemma iteration_outcome f :
  fst (iteration f) = Ok tt \/ fst (iteration f) = Raise KeyboardInterrupt.
Proof.
  unfold iteration, try_except.
  destruct (tame_loop_body f) as (_ & N1 & _).
  destruct (loop_body f) as [[[] | e |] f1]; cbn [fst snd] in *.
  - left. reflexivity.
  - destruct (exn_eq_KeyboardInterrupt e) as [-> | Ne].
    + right. reflexivity.
    + destruct (handler_outcome e f1 Ne) as (_ & _ & _ & R2).
      rewrite R2. destruct (interrupted _ _); auto.
  - congruence.
Qed.

(** X7.  An iteration of the loop lets no exception out but
    [KeyboardInterrupt]: it ends normally or in [KeyboardInterrupt].  A
    [KeyboardInterrupt] of its body goes through as it is; when the body
    raises anything else, the iteration logs one error and sleeps 30
    seconds, leaving the limit, the cache mode and the configuration as the
    body left them. *)
Theorem X7_iteration_survives_failures (f : Frame) :
  (fst (iteration f) = Ok tt \/ fst (iteration f) = Raise KeyboardInterrupt) /\
  (fst (loop_body f) = Raise KeyboardInterrupt ->
     iteration f = (Raise KeyboardInterrupt, snd (loop_body f))) /\
  (forall e, fst (loop_body f) = Raise e -> e <> KeyboardInterrupt ->
     trace (world (mach (snd (iteration f)))) =
       (trace (world (mach (snd (loop_body f)))) ++ [EvLogError; EvSleep 30])%list /\
     same_run_state (snd (loop_body f)) (snd (iteration f))).
Proof.
  split; [apply iteration_outcome|]. split.
  - intro H. unfold iteration, try_except.
    destruct (loop_body f) as [r f1]. cbn [fst snd] in *. subst r. reflexivity.
  - intros e He Ne. unfold iteration, try_except.
    destruct (loop_body f) as [r f1]. cbn [fst snd] in *. subst r.
    destruct (handler_outcome e f1 Ne) as (T & S & _). split; assumption.
Qed.

Lemma loop_outcome n : forall f,
  fst (loop n f) = OutOfFuel \/ fst (loop n f) = Raise KeyboardInterrupt.
Proof.
  induction n as [| n IH]; intro f.
  - left. reflexivity.
  - cbn [loop]. unfold bind.
    destruct (iteration_outcome f) as [E | E];
      destruct (iteration f) as [r f1]; cbn [fst snd] in *; subst r.
    + apply IH.
    + right. reflexivity.
Qed.

(** X8.  [run] does not return.  When [limit_init] raises, [run] raises the
    same exception at once: nothing retries the initialisation.  Once
    [limit_init] has returned, the only way out of the loop is
    [KeyboardInterrupt]: after any number of iterations the loop is still
    running or has ended in [KeyboardInterrupt], whatever commands, readings
    or writes fail. *)
Theorem X8_run_ends_only_by_interrupt (n : nat) (m : Machine) :
  (forall e, fst (limit_init m) = Raise e ->
     run n m = (Raise e, snd (limit_init m))) /\
  (forall l, fst (limit_init m) = Ok l ->
     fst (run n m) = OutOfFuel \/ fst (run n m) = Raise KeyboardInterrupt).
Proof.
  unfold run, bind.
  destruct (limit_init m) as [r m1]. cbn [fst snd] in *.
  split.
  - intros e ->. reflexivity.
  - intros l ->.
    pose proof (loop_outcome n (enter l m1)) as L1.
    destruct (loop n (enter l m1)) as [r f]. cbn [fst snd] in *.
    exact L1.
Qed.

(* ================================================================== *)
(** ** Further properties: what [run] does to the world *)
(* ================================================================== *)

Section RunSteps.
Variable R : Machine -> Machine -> Prop.
Hypothesis R_refl : forall m, R m m.
Hypothesis R_trans : forall a b c, R a b -> R b c -> R a c.
Hypothesis R_emit : forall e, run_event e -> respects R (emit e).
Hypothesis R_write : forall t v, respects R (write_tunable t v).

Lemma in_frame_refl f : in_frame R f f.
Proof. apply R_refl. Qed.

Lemma in_frame_trans a b c : in_frame R a b -> in_frame R b c -> in_frame R a c.
Proof. apply R_trans. Qed.

Lemma respects_lift_in_frame {A} (mc : M Machine A) :
  respects R mc -> respects (in_frame R) (lift mc).
Proof.
  intros H f. unfold lift, in_frame. specialize (H (mach f)).
  destruct (mc (mach f)) as [r m']. exact H.
Qed.

Ltac steps :=
  repeat match goal with
    | |- respects _ (bind _ _) =>
        first [ apply (respects_bind R R_trans)
              | apply (respects_bind (in_frame R) in_frame_trans) ]; [| intro]
    | |- respects (in_frame R) (ret _) => apply (respects_ret _ in_frame_refl)
    | |- respects (in_frame R) (raise _) => apply (respects_raise _ in_frame_refl)
    | |- respects (in_frame R) (gets _) => apply (respects_gets _ in_frame_refl)
    | |- respects (in_frame R) (of_option _ _) =>
        apply (respects_of_option _ in_frame_refl)
    | |- respects (in_frame R) (bound _) => apply (respects_of_option _ in_frame_refl)
    | |- respects (in_frame R) (percent_of _ _) => unfold percent_of
    | |- respects (in_frame R) (relative_goodness_of _ _) => unfold relative_goodness_of
    | |- respects (in_frame R) (modify _) => intro; apply R_refl
    | |- respects (in_frame R) (lift _) => apply respects_lift_in_frame
    | |- respects R (ret _) => apply (respects_ret R R_refl)
    | |- respects R (raise _) => apply (respects_raise R R_refl)
    | |- respects R command_failed => apply (respects_raise R R_refl)
    | |- respects R (gets _) => apply (respects_gets R R_refl)
    | |- respects R (of_option _ _) => apply (respects_of_option R R_refl)
    | |- respects R (bound _) => apply (respects_of_option R R_refl)
    | |- respects R (item _ _) => apply (respects_of_option R R_refl)
    | |- respects R (py_int _) => apply (respects_of_option R R_refl)
    | |- respects R (percent_of _ _) => unfold percent_of
    | |- respects R (emit _) => apply R_emit; exact I
    | |- respects R (print _) => apply R_emit; exact I
    | |- respects R logger_error => apply R_emit; exact I
    | |- respects R (write_tunable _ _) => apply R_write
    | |- respects R (mapM _ _) => apply (respects_mapM R R_refl R_trans); intro
    | |- respects R (for_each _ _) => apply (respects_for_each R R_refl R_trans); intro
    | |- respects _ (let _ := _ in _) => cbv zeta
    | |- respects _ (if ?b then _ else _) => destruct b
    | |- respects _ (match ?o with Some _ => _ | None => _ end) => destruct o
    | |- respects _ (match ?l with [] => _ | _ :: _ => _ end) => destruct l
    | |- respects R (time_sleep _) => unfold time_sleep
    | |- respects R (popen _) => unfold popen
    | |- respects R (read_tunable _) => unfold read_tunable
    | |- respects R get_ram => unfold get_ram
    | |- respects R get_pools => unfold get_pools
    | |- respects R active_pools => unfold active_pools
    | |- respects R get_ram_total => unfold get_ram_total
    | |- respects R get_ram_used => unfold get_ram_used
    | |- respects R drop_caches => unfold drop_caches
    | |- respects R restart_crashplan => unfold restart_crashplan
    | |- respects R (set_primarycache _) => unfold set_primarycache
    | |- respects R (adjust _ _ _) => unfold adjust
    end.

Lemma run_steps_limit_init : respects R limit_init.
Proof. unfold limit_init. steps. Qed.

Lemma run_steps_rule_body r p : respects (in_frame R) (rule_body r p).
Proof.
  destruct r; simpl;
    [ unfold on_panic | unfold on_above_max | unfold on_below_min
    | unfold on_above_good | unfold on_below_good | unfold on_steady ];
    steps.
Qed.

Lemma run_steps_iteration : respects (in_frame R) iteration.
Proof.
  unfold iteration. apply (respects_try_except _ in_frame_trans).
  - unfold loop_body, reading, act. steps. apply run_steps_rule_body.
  - intro e. destruct e; simpl; steps.
Qed.

Lemma run_steps_loop n : respects (in_frame R) (loop n).
Proof.
  induction n as [| n IH]; simpl.
  - intro f. apply R_refl.
  - apply (respects_bind _ in_frame_trans);
      [apply run_steps_iteration | intro; exact IH].
Qed.

Lemma run_steps_run n : respects R (run n).
Proof.
  unfold run. apply (respects_bind R R_trans); [apply run_steps_limit_init|].
  intros l m. pose proof (run_steps_loop n (enter l m)) as H.
  destruct (loop n (enter l m)) as [r f]. exact H.
Qed.

End RunSteps.

Lemma footprint_refl P m : footprint P m m.
Proof.
  repeat split. exists []. split; [now rewrite app_nil_r | constructor].
Qed.

Lemma footprint_trans P a b c : footprint P a b -> footprint P b c -> footprint P a c.
Proof.
  intros (O1 & H1 & (n1 & E1 & F1) & T1 & L1) (O2 & H2 & (n2 & E2 & F2) & T2 & L2).
  split; [congruence|]. split; [congruence|]. split; [| split].
  - exists (n1 ++ n2)%list. split.
    + rewrite E2, E1. now rewrite app_assoc.
    + apply Forall_app. split; assumption.
  - intro H. rewrite T2, T1 by exact H. reflexivity.
  - intros A B. rewrite L2, L1 by assumption. reflexivity.
Qed.

Lemma footprint_emit P e : P e -> respects (footprint P) (emit e).
Proof.
  intros He m. cbn. repeat split.
  exists [e]. split; [reflexivity | now constructor].
Qed.

Lemma footprint_write P t v :
  P (EvWrite t v) -> respects (footprint P) (write_tunable t v).
Proof.
  intros He m. rewrite write_tunable_eq.
  destruct (write_succeeds (world m) (now (world m)) t v); cbn.
  - split; [reflexivity|]. split; [reflexivity|]. split; [| split].
    + exists [EvWrite t v]. split; [reflexivity | now constructor].
    + intro H. exfalso. exact (H t v He).
    + reflexivity.
  - repeat split. exists [EvWrite t v]. split; [reflexivity | now constructor].
Qed.

Lemma footprint_modify P (f : Machine -> Machine) :
  (forall m, world (f m) = world m) -> respects (footprint P) (modify f).
Proof.
  intros Hf m. cbn. unfold footprint. rewrite Hf. apply footprint_refl.
Qed.

Lemma footprint_weaken (P P' : event -> Prop) m m' :
  (forall e, P e -> P' e) -> footprint P m m' -> footprint P' m m'.
Proof.
  intros Hsub (O & H & (new & E & F) & T & L).
  split; [exact O|]. split; [exact H|]. split; [| split].
  - exists new. split; [exact E|]. eapply Forall_impl; [| exact F]. exact Hsub.
  - intro N. apply T. intros t v Pe. exact (N t v (Hsub _ Pe)).
  - intros A B. apply L; intro Pe; [apply A | apply B]; exact (Hsub _ Pe).
Qed.

(** [run] only does what [run_event] lists. *)
Lemma run_footprint n : respects (footprint run_event) (run n).
Proof.
  apply run_steps_run.
  - apply footprint_refl.
  - apply footprint_trans.
  - intros e He. apply footprint_emit. exact He.
  - intros t v. apply footprint_write. exact I.
Qed.

Lemma same_got_lock_run n : respects same_got_lock (run n).
Proof.
  apply run_steps_run; unfold same_got_lock.
  - reflexivity.
  - intros a b c H1 H2. congruence.
  - intros e _ m. reflexivity.
  - intros t v m. rewrite write_tunable_eq.
    destruct (write_succeeds (world m) (now (world m)) t v); reflexivity.
Qed.

Ltac fp_steps :=
  repeat match goal with
    | |- respects (footprint ?P) (bind _ _) =>
        apply (respects_bind _ (footprint_trans P)); [| intro]
    | |- respects (in_frame (footprint ?P)) (bind _ _) =>
        apply (respects_bind _ (in_frame_trans _ (footprint_trans P))); [| intro]
    | |- respects (in_frame (footprint ?P)) (ret _) =>
        apply (respects_ret _ (in_frame_refl _ (footprint_refl P)))
    | |- respects (in_frame (footprint ?P)) (raise _) =>
        apply (respects_raise _ (in_frame_refl _ (footprint_refl P)))
    | |- respects (in_frame (footprint ?P)) (gets _) =>
        apply (respects_gets _ (in_frame_refl _ (footprint_refl P)))
    | |- respects (in_frame (footprint ?P)) (of_option _ _) =>
        apply (respects_of_option _ (in_frame_refl _ (footprint_refl P)))
    | |- respects (in_frame (footprint ?P)) (bound _) =>
        apply (respects_of_option _ (in_frame_refl _ (footprint_refl P)))
    | |- respects (in_frame (footprint ?P)) (modify _) =>
        intro; apply footprint_refl
    | |- respects (in_frame (footprint ?P)) (lift _) =>
        apply respects_lift_in_frame
    | |- respects (footprint ?P) (ret _) => apply (respects_ret _ (footprint_refl P))
    | |- respects (footprint ?P) (raise _) => apply (respects_raise _ (footprint_refl P))
    | |- respects (footprint ?P) command_failed =>
        apply (respects_raise _ (footprint_refl P))
    | |- respects (footprint ?P) (exit _) => apply (respects_raise _ (footprint_refl P))
    | |- respects (footprint ?P) (gets _) => apply (respects_gets _ (footprint_refl P))
    | |- respects (footprint ?P) (of_option _ _) =>
        apply (respects_of_option _ (footprint_refl P))
    | |- respects (footprint ?P) (item _ _) =>
        apply (respects_of_option _ (footprint_refl P))
    | |- respects (footprint ?P) (py_int _) =>
        apply (respects_of_option _ (footprint_refl P))
    | |- respects (footprint ?P) (emit _) => apply footprint_emit; exact I
    | |- respects (footprint ?P) (print _) => apply footprint_emit; exact I
    | |- respects (footprint ?P) logger_error => apply footprint_emit; exact I
    | |- respects (footprint ?P) (write_tunable _ _) => apply footprint_write; exact I
    | |- respects (footprint ?P) (modify _) => apply footprint_modify; reflexivity
    | |- respects (footprint ?P) (mapM _ _) =>
        apply (respects_mapM _ (footprint_refl P) (footprint_trans P)); intro
    | |- respects (footprint ?P) (for_each _ _) =>
        apply (respects_for_each _ (footprint_refl P) (footprint_trans P)); intro
    | |- respects _ (let _ := _ in _) => cbv zeta
    | |- respects _ (if ?b then _ else _) => destruct b
    | |- respects _ (match ?o with Some _ => _ | None => _ end) => destruct o
    | |- respects _ (match ?l with [] => _ | _ :: _ => _ end) => destruct l
    | |- respects (footprint _) (time_sleep _) => unfold time_sleep
    | |- respects (footprint _) (popen _) => unfold popen
    | |- respects (footprint _) (path_exists _) => unfold path_exists
    | |- respects (footprint _) get_ram => unfold get_ram
    | |- respects (footprint _) get_pools => unfold get_pools
    | |- respects (footprint _) active_pools => unfold active_pools
    | |- respects (footprint _) get_ram_total => unfold get_ram_total
    | |- respects (footprint _) drop_caches => unfold drop_caches
    | |- respects (footprint _) restart_crashplan => unfold restart_crashplan
    | |- respects (footprint _) (set_primarycache _) => unfold set_primarycache
    | |- respects (footprint _) auto_limits => unfold auto_limits
    | |- respects (footprint _) logging_init => unfold logging_init
    end.

Lemma on_panic_footprint p : respects (in_frame (footprint panic_event)) (on_panic p).
Proof. unfold on_panic. fp_steps. Qed.

Lemma on_panic_limit p f : limit_gb (snd (on_panic p f)) = limit_gb f.
Proof.
  unfold on_panic. unfold bind at 1. unfold gets at 1. unfold bind at 1.
  destruct (option_string_eqb (primarycache f) "metadata");
    unfold modify at 1;
    match goal with |- limit_gb (snd (?m ?s)) = _ =>
      assert (R : respects same_locals m) by locals;
      destruct (R s) as [-> _] end;
    reflexivity.
Qed.

(** X9.  The panic branch never touches the limit nor the sysfs files: it
    leaves [limit_gb] and both files as they were and writes to neither.  All
    it does is print its line, run [sysctl] to drop the caches, list the
    pools when none is configured, run [zfs set] and restart the service, and
    it starts with the print. *)
Theorem X9_panic_leaves_limit_and_tunables (f : Frame) (p : Q) :
  let after := snd (on_panic p f) in
  limit_gb after = limit_gb f /\
  tunables (world (mach after)) = tunables (world (mach f)) /\
  exists rest,
    trace (world (mach after)) =
      (trace (world (mach f))
       ++ EvPrint (LinePanic p (toggled (primarycache f))) :: rest)%list /\
    Forall panic_event rest /\
    (forall t v, ~ In (EvWrite t v) rest).
Proof.
  cbv zeta. split; [apply on_panic_limit|].
  destruct (on_panic_footprint p f) as (_ & _ & _ & T & _).
  split; [apply T; intros t v H; exact H|].
  assert (G : exists f0 (tail : M Frame unit),
             respects (in_frame (footprint panic_event)) tail /\
             snd (on_panic p f) = snd (tail f0) /\
             trace (world (mach f0)) =
               (trace (world (mach f))
                ++ [EvPrint (LinePanic p (toggled (primarycache f)))])%list).
  { unfold on_panic, toggled.
    unfold bind at 1. unfold gets at 1. unfold bind at 1.
    destruct (option_string_eqb (primarycache f) "metadata");
      unfold modify at 1; unfold bind at 1; unfold gets at 1;
      cbn [primarycache set_primarycache_var]; unfold of_option;
      unfold bind at 1; unfold ret at 1; unfold bind at 1;
      unfold lift at 1, print, emit, modify; cbn [mach set_primarycache_var fst snd];
      eexists _, _; (split; [| split; [reflexivity | reflexivity]]); fp_steps. }
  destruct G as (f0 & tail & R & -> & E0).
  destruct (R f0) as (_ & _ & (rest & E & F) & _).
  exists rest. split; [rewrite E, E0, <- app_assoc; reflexivity|].
  split; [exact F|].
  intros t v Hin. rewrite Forall_forall in F. exact (F _ Hin).
Qed.

(* ================================================================== *)
(** ** Further properties: the cache mode of the pools *)
(* ================================================================== *)

Local Abbreviation zfs_set v :=
  (fun pool : string =>
     out <- popen (CmdZfsSet v pool);;
     match out with
     | Some _ => ret tt
     | None => command_failed
     end).





(* ================================================================== *)
(** ** Further properties: startup and the lock file *)
(* ================================================================== *)

Lemma auto_limits_footprint : respects (footprint check_event) auto_limits.
Proof. fp_steps. Qed.

Lemma same_got_lock_trans a b c :
  same_got_lock a b -> same_got_lock b c -> same_got_lock a c.
Proof. unfold same_got_lock. congruence. Qed.

Lemma same_got_lock_step : world_step same_got_lock.
Proof.
  split.
  - reflexivity.
  - exact same_got_lock_trans.
  - intros m w _ _. reflexivity.
Qed.

Lemma same_got_lock_auto_limits : respects same_got_lock auto_limits.
Proof.
  unfold auto_limits.
  repeat match goal with
    | |- respects _ (bind _ _) =>
        apply (respects_bind same_got_lock same_got_lock_trans); [| intro]
    | |- respects _ get_ram_total =>
        apply (respects_get_ram_total _ same_got_lock_step)
    | |- respects _ (gets _) => intro; reflexivity
    | |- respects _ (modify _) => intro; reflexivity
    | |- respects _ (ret _) => intro; reflexivity
    | |- respects _ (if ?b then _ else _) => destruct b
    end.
Qed.

(** The checks of [main] between [auto_limits] and the lock, followed by
    the rest [k] of the script. *)
Local Abbreviation checks k :=
  (meta_there <- path_exists zfs_arc_meta_limit;;
   (if negb meta_there then print (LineMissing zfs_arc_meta_limit) else ret tt);;
   max_there <- path_exists zfs_arc_max;;
   (if negb max_there then print (LineMissing zfs_arc_max) else ret tt);;
   (if negb meta_there || negb max_there then exit 1 else ret tt);;
   k).

Lemma checks_missing (k : M Machine unit) (m : Machine) :
  tunables (world m) zfs_arc_meta_limit = None \/
  tunables (world m) zfs_arc_max = None ->
  fst (checks k m) = Raise (SystemExit 1) /\
  footprint check_event m (snd (checks k m)) /\
  got_lock (snd (checks k m)) = got_lock m /\
  forall t, tunables (world m) t = None ->
            In (EvPrint (LineMissing t)) (trace (world (snd (checks k m)))).
Proof.
  intro Hmiss.
  destruct m as [c fv gl [o tr tu lh lf]]. cbn in Hmiss.
  unfold path_exists, print, exit, emit, bind, gets, modify, raise, ret.
  cbn.
  destruct (tu zfs_arc_meta_limit) as [v1 |] eqn:E1;
    destruct (tu zfs_arc_max) as [v2 |] eqn:E2;
    try (exfalso; destruct Hmiss; discriminate);
    cbn; rewrite ?E1, ?E2; cbn;
    (split; [reflexivity|]);
    (split; [| split; [reflexivity|]]).
  all: match goal with
       | |- footprint _ _ _ =>
           unfold footprint; cbn; repeat split; eexists;
           (split; [rewrite <- ?app_assoc; reflexivity|]); repeat constructor
       | |- _ =>
           intros [] Ht; try congruence; rewrite <- ?app_assoc;
           apply in_or_app; right; cbn; tauto
       end.
Qed.

(** What [main] does once the arguments are parsed and the limits set. *)
Local Abbreviation locked_run fuel :=
  (modify (set_got_lock false);;
   try_finally
     (acquire_and_run fuel)
     (got <- gets got_lock;;
      if got : bool then remove_lock else ret tt)).

Lemma main_eq fuel args w :
  main fuel args (boot args w) =
    match auto_limits (boot args w) with
    | (Ok _, m2) => checks (locked_run fuel) m2
    | (Raise e, m2) => (Raise e, m2)
    | (OutOfFuel, m2) => (OutOfFuel, m2)
    end.
Proof.
  unfold main, logging_init.
  unfold bind at 1. unfold modify at 1.
  unfold bind at 1. unfold ret at 1.
  unfold bind at 1.
  change (set_cfg args (boot args w)) with (boot args w).
  destruct (auto_limits (boot args w)) as [[[] | e |] m2]; reflexivity.
Qed.

(** X11.  When a tunable file of the module is missing, the script stops
    before it touches the lock: it ends with a status other than 0, and all
    it has done is run [free] for [auto_limits], test the two files and
    print.  So it opens no lock file, reads and writes no tunable and never
    sleeps.  Once [auto_limits] has succeeded the status is that of
    [exit(1)], and every missing file has been reported, not only the
    first. *)
Theorem X11_missing_file_stops_before_the_lock (fuel : nat) (args : Cfg) (w : World) :
  tunables w zfs_arc_meta_limit = None \/ tunables w zfs_arc_max = None ->
  let r := fst (main fuel args (boot args w)) in
  let m' := snd (main fuel args (boot args w)) in
  failed r /\
  footprint check_event (boot args w) m' /\
  got_lock m' = false /\
  (fst (auto_limits (boot args w)) = Ok tt ->
   r = Raise (SystemExit 1) /\
   forall t, tunables w t = None -> In (EvPrint (LineMissing t)) (trace (world m'))).
Proof.
  intros Hmiss.
  cbv zeta. rewrite main_eq.
  pose proof (auto_limits_footprint (boot args w)) as F.
  destruct (harmless_auto_limits (boot args w)) as (_ & N1 & N2).
  assert (G : got_lock (snd (auto_limits (boot args w))) = false).
  { exact (same_got_lock_auto_limits (boot args w)). }
  destruct (auto_limits (boot args w)) as [[[] | e |] m2]; cbn in F, N1, N2, G.
  - assert (T : tunables (world m2) = tunables w).
    { destruct F as (_ & _ & _ & T & _). apply T. intros t v H. exact H. }
    destruct (checks_missing (locked_run fuel) m2) as (R & F2 & G2 & P).
    { rewrite T. exact Hmiss. }
    split; [| split; [| split]].
    + rewrite R. exists 1%Z. split; [reflexivity | lia].
    + eapply footprint_trans; [exact F | exact F2].
    + rewrite G2. exact G.
    + intros _. split; [exact R|]. intros t Ht. apply P. rewrite T. exact Ht.
  - cbn. split; [| split; [exact F | split; [exact G | discriminate]]].
    destruct e; try (exists 1%Z; split; [reflexivity | lia]).
    + exists code. split; [reflexivity|]. intro; subst; congruence.
    + exists 130%Z. split; [reflexivity | lia].
  - congruence.
Qed.

Lemma X11_missing_file_stops_before_the_lock_witness :
  fst (main 5 Sample.default_args (boot Sample.default_args Scenario.no_module)) =
    Raise (SystemExit 1) /\
  In (EvPrint (LineMissing zfs_arc_max))
     (trace (world (snd (main 5 Sample.default_args
                           (boot Sample.default_args Scenario.no_module))))).
Proof.
  destruct (X11_missing_file_stops_before_the_lock
              5 Sample.default_args Scenario.no_module (or_introl eq_refl))
    as (_ & _ & _ & H).
  destruct H as (R & P); [vm_compute; reflexivity|].
  split; [exact R | apply P; reflexivity].
Defined.

Lemma checks_cases (k : M Machine unit) (m : Machine) :
  exists mid,
    footprint check_event m mid /\
    got_lock mid = got_lock m /\
    (checks k m = (Raise (SystemExit 1), mid) \/ checks k m = k mid).
Proof.
  destruct m as [c fv gl [o tr tu lh lf]].
  unfold path_exists, print, exit, emit, bind, gets, modify, raise, ret.
  cbn.
  destruct (tu zfs_arc_meta_limit) as [v1 |] eqn:E1;
    destruct (tu zfs_arc_max) as [v2 |] eqn:E2;
    cbn; rewrite ?E1, ?E2; cbn;
    eexists; (split; [| split]).
  all: match goal with
       | |- _ \/ _ => (left; reflexivity) || (right; reflexivity)
       | |- _ => idtac
       end.
  all: match goal with
       | |- footprint _ _ _ =>
           unfold footprint; cbn; repeat split; eexists;
           (split; [rewrite <- ?app_assoc; reflexivity|]); repeat constructor
       | |- _ => reflexivity
       end.
Qed.

Lemma acquire_cases fuel (m : Machine) :
  got_lock m = false ->
  let r1 := fst (acquire_and_run fuel m) in
  let m1 := snd (acquire_and_run fuel m) in
  oracle (world m1) = oracle (world m) /\
  (got_lock m1 = false /\
   r1 <> OutOfFuel /\ r1 <> Ok tt /\
   (lock_file_exists (world m) = true -> lock_file_exists (world m1) = true) /\
   (exists new,
     trace (world m1) = (trace (world m) ++ new)%list /\ Forall not_removal new)
   \/
   got_lock m1 = true /\
   lock_held_elsewhere (world m) = false /\
   lock_file_exists (world m1) = true /\
   exists during,
     trace (world m1) =
       (trace (world m) ++ EvOpenLock :: EvFlock :: during)%list /\
     Forall run_event during).
Proof.
  intro Hgl.
  destruct m as [c fv gl [o tr tn lh lf]]. cbn in Hgl. subst gl.
  unfold acquire_and_run, open_lock, flock, try_except, logger_error, exit, emit, now.
  cbv beta iota delta [bind gets modify raise ret set_world log set_lock_file
                       set_got_lock world oracle trace tunables cfg got_lock
                       free_version lock_held_elsewhere lock_file_exists].
  destruct (open_lock_ok o (List.length tr)); [destruct lh; [destruct (verbose c) |] |].
  1, 2, 4: cbn; (split; [reflexivity|]); left;
    (split; [reflexivity|]); (split; [discriminate|]); (split; [discriminate|]);
    (split; [auto|]); eexists;
    (split; [rewrite <- ?app_assoc; reflexivity|]); repeat constructor.
  match goal with |- context [run fuel ?s] =>
    pose proof (run_footprint fuel s) as F;
    pose proof (same_got_lock_run fuel s) as G;
    destruct (run fuel s) as [r2 m2]
  end.
  unfold same_got_lock in G.
  destruct F as (O & H & (during & E & D) & _ & L).
  cbn in O, H, E, G, L |- *.
  split; [exact O|]. right.
  split; [exact G|]. split; [reflexivity|]. split.
  - apply L; intro X; exact X.
  - exists during. split; [| exact D].
    eapply eq_trans; [exact E|]. rewrite <- !app_assoc. reflexivity.
Qed.

Lemma check_event_not_removal l : Forall check_event l -> ~ In EvRemoveLock l.
Proof.
  intros F Hin. rewrite Forall_forall in F. exact (F _ Hin).
Qed.

Lemma not_removal_not_in l : Forall not_removal l -> ~ In EvRemoveLock l.
Proof.
  intros F Hin. rewrite Forall_forall in F. exact (F _ Hin).
Qed.

Lemma locked_run_eq fuel (m : Machine) :
  locked_run fuel m =
    match acquire_and_run fuel (set_got_lock false m) with
    | (OutOfFuel, m1) => (OutOfFuel, m1)
    | (r, m1) =>
        if got_lock m1 then
          match remove_lock m1 with
          | (Ok _, m2) => (r, m2)
          | (Raise e, m2) => (Raise e, m2)
          | (OutOfFuel, m2) => (OutOfFuel, m2)
          end
        else (r, m1)
    end.
Proof.
  unfold bind at 1. unfold modify at 1. unfold try_finally.
  destruct (acquire_and_run fuel (set_got_lock false m)) as [[[] | e |] m1];
    try reflexivity; unfold bind, gets; destruct (got_lock m1); reflexivity.
Qed.

Lemma remove_lock_eq (m : Machine) :
  lock_file_exists (world m) = true ->
  remove_lock m =
    (Ok tt, set_world (set_lock_file false (log EvRemoveLock (world m))) m).
Proof.
  destruct m as [c fv gl [o tr tu lh lf]]. cbn. intros ->. reflexivity.
Qed.

(** [locked_run] from a state reached by the checks. *)
Lemma locked_run_cases fuel (m : Machine) :
  let r := fst (locked_run fuel m) in
  let m' := snd (locked_run fuel m) in
  r <> OutOfFuel ->
  exists new,
    trace (world m') = (trace (world m) ++ new)%list /\
    if got_lock m' then
      lock_held_elsewhere (world m) = false /\
      lock_file_exists (world m') = false /\
      exists during,
        new = (EvOpenLock :: EvFlock :: during ++ [EvRemoveLock])%list /\
        Forall run_event during
    else
      ~ In EvRemoveLock new /\
      (lock_file_exists (world m) = true -> lock_file_exists (world m') = true).
Proof.
  cbv zeta. rewrite locked_run_eq.
  destruct (acquire_cases fuel (set_got_lock false m) eq_refl) as (O & C).
  cbv zeta in O, C.
  destruct (acquire_and_run fuel (set_got_lock false m)) as [r1 m1].
  cbn [fst snd] in O, C.
  replace (world (set_got_lock false m)) with (world m) in O, C
    by (destruct m; reflexivity).
  destruct C as [(G & N1 & N2 & L & new & E & F) | (G & H & L & during & E & F)].
  - rewrite G.
    destruct r1 as [[] | e |]; try congruence.
    cbn [fst snd]. intros _. exists new. split; [exact E|]. rewrite G.
    split; [apply not_removal_not_in, F | exact L].
  - rewrite G, (remove_lock_eq m1 L).
    destruct r1 as [[] | e |]; cbn [fst snd]; try congruence.
    all: intros _; destruct m1 as [c1 fv1 gl1 [o1 tr1 tu1 lh1 lf1]];
      cbn in G, L, E |- *; subst gl1 lf1 tr1;
      eexists; (split; [rewrite <- app_assoc; reflexivity|]);
      (split; [exact H|]); (split; [reflexivity|]);
      exists during; (split; [reflexivity | exact F]).
Qed.

(** X12.  Whenever [main] returns or raises, it has removed the lock file
    exactly when this process had locked it.  With the lock taken
    ([got_lock]), all the script did was: the startup checks, opening and
    locking the file, what [run] does, and, as the last thing, removing the
    file; this happens whichever exception ended [run], and only if nobody
    else held the lock.  Without the lock the script never removes the file,
    so the lock file of a running controller stays in place.  A process that
    a signal kills outright neither returns nor raises: its [finally] does
    not run, and the statement does not speak of it. *)
Theorem X12_lock_file_removed_by_its_owner (fuel : nat) (args : Cfg) (w : World) :
  let r := fst (main fuel args (boot args w)) in
  let m' := snd (main fuel args (boot args w)) in
  r <> OutOfFuel ->
  exists new,
    trace (world m') = (trace w ++ new)%list /\
    if got_lock m' then
      lock_held_elsewhere w = false /\
      lock_file_exists (world m') = false /\
      exists before during,
        new = (before ++ EvOpenLock :: EvFlock :: during ++ [EvRemoveLock])%list /\
        Forall check_event before /\
        Forall run_event during
    else
      ~ In EvRemoveLock new /\
      (lock_file_exists w = true -> lock_file_exists (world m') = true).
Proof.
  cbv zeta. rewrite main_eq.
  pose proof (auto_limits_footprint (boot args w)) as F.
  pose proof (same_got_lock_auto_limits (boot args w)) as G.
  unfold same_got_lock in G.
  destruct (auto_limits (boot args w)) as [[[] | e |] m2]; cbn [fst snd] in F, G |- *.
  - destruct (checks_cases (locked_run fuel) m2) as (mid & F2 & G2 & [Eq | Eq]);
      rewrite Eq; clear Eq.
    + cbn [fst snd]. intros _.
      pose proof (footprint_trans _ _ _ _ F F2) as (_ & _ & (new & E & Fn) & _ & L).
      exists new. split; [exact E|].
      rewrite G2, G. cbn [got_lock boot]. split.
      * apply check_event_not_removal, Fn.
      * intro Hl. rewrite L; [exact Hl | |]; intro X; exact X.
    + intro Hr. destruct (locked_run_cases fuel mid Hr) as (new2 & E2 & C).
      pose proof (footprint_trans _ _ _ _ F F2) as (_ & Hh & (new & E & Fn) & _ & L).
      cbn [world boot] in E, L, Hh.
      exists (new ++ new2)%list. split.
      { rewrite E2, E, app_assoc. reflexivity. }
      destruct (got_lock (snd (locked_run fuel mid))).
      * destruct C as (C1 & C2 & during & C3 & C4).
        split; [congruence|]. split; [exact C2|].
        exists new, during. subst new2. auto.
      * destruct C as (C1 & C2). split.
        { intro Hin. apply in_app_or in Hin. destruct Hin as [Hin | Hin].
          - exact (check_event_not_removal _ Fn Hin).
          - exact (C1 Hin). }
        { intro Hl. apply C2. rewrite L; [exact Hl | |]; intro X; exact X. }
  - intros _. destruct F as (_ & _ & (new & E & Fn) & _ & L).
    exists new. split; [exact E|].
    rewrite G. cbn [got_lock boot]. split.
    + apply check_event_not_removal, Fn.
    + intro Hl. cbn [world boot] in L. rewrite L; [exact Hl | |]; intro X; exact X.
  - congruence.
Qed.

Lemma X12_lock_file_removed_by_its_owner_witness :
  got_lock (snd (main 5 Sample.default_args
                   (boot Sample.default_args Scenario.short_session))) = true /\
  exists before during,
    trace (world (snd (main 5 Sample.default_args
                         (boot Sample.default_args Scenario.short_session)))) =
      (before ++ EvOpenLock :: EvFlock :: during ++ [EvRemoveLock])%list.
Proof.
  assert (G : got_lock (snd (main 5 Sample.default_args
                (boot Sample.default_args Scenario.short_session))) = true)
    by (vm_compute; reflexivity).
  split; [exact G|].
  destruct (X12_lock_file_removed_by_its_owner
              5 Sample.default_args Scenario.short_session) as (new & E & C).
  - vm_compute. discriminate.
  - rewrite G in C. destruct C as (_ & _ & before & during & C & _).
    exists before, during. rewrite E, C. reflexivity.
Defined.

(* ================================================================== *)
(** ** Further properties: how the script ends *)
(* ================================================================== *)

Section RaisesOnly.
Context {S : Type} (P : exn -> Prop).

Lemma raises_only_ret {A} (a : A) : raises_only P (@ret S A a).
Proof. intros s e H. discriminate. Qed.

Lemma raises_only_raise {A} e : P e -> raises_only P (@raise S A e).
Proof. intros H s e' E. cbn in E. congruence. Qed.

Lemma raises_only_gets {A} (f : S -> A) : raises_only P (gets f).
Proof. intros s e H. discriminate. Qed.

Lemma raises_only_modify (f : S -> S) : raises_only P (modify f).
Proof. intros s e H. discriminate. Qed.

Lemma raises_only_of_option {A} (o : option A) e :
  P e -> raises_only P (@of_option S A o e).
Proof. intro H. destruct o; [apply raises_only_ret | now apply raises_only_raise]. Qed.

Lemma raises_only_bind {A B} (m : M S A) (k : A -> M S B) :
  raises_only P m -> (forall a, raises_only P (k a)) -> raises_only P (bind m k).
Proof.
  intros Hm Hk s e. unfold bind. specialize (Hm s).
  destruct (m s) as [[a | e1 |] s1]; cbn [fst snd] in *.
  - apply Hk.
  - intro E. apply Hm. congruence.
  - discriminate.
Qed.

Lemma raises_only_mapM {A B} (f : A -> M S B) (l : list A) :
  (forall a, raises_only P (f a)) -> raises_only P (mapM f l).
Proof.
  intro Hf. induction l as [| a l IH]; simpl.
  - apply raises_only_ret.
  - apply raises_only_bind; [apply Hf|]. intro b.
    apply raises_only_bind; [exact IH|]. intro bs. apply raises_only_ret.
Qed.

End RaisesOnly.

Ltac raises_steps :=
  repeat match goal with
    | |- raises_only _ (bind _ _) => apply raises_only_bind; [| intro]
    | |- raises_only _ (ret _) => apply raises_only_ret
    | |- raises_only _ (gets _) => apply raises_only_gets
    | |- raises_only _ (modify _) => apply raises_only_modify
    | |- raises_only _ (emit _) => apply raises_only_modify
    | |- raises_only _ (print _) => apply raises_only_modify
    | |- raises_only _ (raise _) => apply raises_only_raise; exact I
    | |- raises_only _ command_failed => apply raises_only_raise; exact I
    | |- raises_only _ (of_option _ _) => apply raises_only_of_option; exact I
    | |- raises_only _ (bound _) => apply raises_only_of_option; exact I
    | |- raises_only _ (item _ _) => apply raises_only_of_option; exact I
    | |- raises_only _ (py_int _) => apply raises_only_of_option; exact I
    | |- raises_only _ (mapM _ _) => apply raises_only_mapM; intro
    | |- raises_only _ (let _ := _ in _) => cbv zeta
    | |- raises_only _ (if ?b then _ else _) => destruct b
    | |- raises_only _ (match ?o with Some _ => _ | None => _ end) => destruct o
    | |- raises_only _ (popen _) => unfold popen
    | |- raises_only _ get_ram => unfold get_ram
    | |- raises_only _ get_ram_total => unfold get_ram_total
    | |- raises_only _ get_ram_used => unfold get_ram_used
    | |- raises_only _ (read_tunable _) => unfold read_tunable
    | |- raises_only _ (write_tunable _ _) => unfold write_tunable
    | |- raises_only _ (percent_of _ _) => unfold percent_of
    | |- raises_only _ (adjust _ _ _) => unfold adjust
    end.

Lemma auto_limits_no_exit : raises_only not_an_exit auto_limits.
Proof. unfold auto_limits. raises_steps. Qed.

Lemma limit_init_no_exit : raises_only not_an_exit limit_init.
Proof. unfold limit_init. raises_steps. Qed.

(** [run] never returns and never asks to exit. *)
Lemma run_outcome n m :
  fst (run n m) = OutOfFuel \/
  exists e, fst (run n m) = Raise e /\ not_an_exit e.
Proof.
  unfold run, bind.
  pose proof (limit_init_no_exit m) as Hl.
  destruct (tame_limit_init m) as (_ & N & _).
  destruct (limit_init m) as [[l | e |] m1]; cbn [fst snd] in *.
  - destruct (loop_outcome n (enter l m1)) as [L | L];
      destruct (loop n (enter l m1)) as [r f]; cbn [fst snd] in *; subst r.
    + left. reflexivity.
    + right. exists KeyboardInterrupt. split; [reflexivity | exact I].
  - right. exists e. split; [reflexivity | apply Hl; reflexivity].
  - congruence.
Qed.

Lemma acquire_outcome fuel (m : Machine) :
  got_lock m = false ->
  let r1 := fst (acquire_and_run fuel m) in
  let m1 := snd (acquire_and_run fuel m) in
  r1 <> Ok tt /\
  (forall code, r1 = Raise (SystemExit code) -> code = 1%Z) /\
  (r1 = OutOfFuel -> got_lock m1 = true).
Proof.
  intro Hgl.
  destruct m as [c fv gl [o tr tn lh lf]]. cbn in Hgl. subst gl.
  unfold acquire_and_run, open_lock, flock, try_except, logger_error, exit, emit, now.
  cbv beta iota delta [bind gets modify raise ret set_world log set_lock_file
                       set_got_lock world oracle trace tunables cfg got_lock
                       free_version lock_held_elsewhere lock_file_exists].
  destruct (open_lock_ok o (List.length tr)); [destruct lh; [destruct (verbose c) |] |].
  1, 2, 4: cbn; (split; [discriminate|]);
    (split; [intros code E; congruence | discriminate]).
  match goal with |- context [run fuel ?s] =>
    pose proof (run_outcome fuel s) as R;
    pose proof (same_got_lock_run fuel s) as G;
    destruct (run fuel s) as [r2 m2]
  end.
  unfold same_got_lock in G. cbn in R, G |- *.
  destruct R as [-> | (e & -> & Ne)].
  - split; [discriminate|]. split; [discriminate|]. intros _. exact G.
  - split; [discriminate|]. split; [| discriminate].
    intros code E. injection E as ->. destruct Ne.
Qed.

(** X13.  The script never ends in success.  [main] does not return
    normally, and the only exit it ever asks for is [exit(1)]: it ends in an
    exception, or it is still in the loop, and then it holds the lock. *)
Theorem X13_main_never_ends_in_success (fuel : nat) (args : Cfg) (w : World) :
  let r := fst (main fuel args (boot args w)) in
  let m' := snd (main fuel args (boot args w)) in
  r <> Ok tt /\
  (forall code, r = Raise (SystemExit code) -> code = 1%Z) /\
  (r = OutOfFuel -> got_lock m' = true).
Proof.
  cbv zeta. rewrite main_eq.
  pose proof (auto_limits_no_exit (boot args w)) as Ha.
  destruct (harmless_auto_limits (boot args w)) as (_ & N & _).
  destruct (auto_limits (boot args w)) as [[[] | e |] m2]; cbn [fst snd] in *.
  - destruct (checks_cases (locked_run fuel) m2) as (mid & _ & _ & [Eq | Eq]);
      rewrite Eq; clear Eq.
    + cbn. split; [discriminate|]. split; [| discriminate].
      intros code E. congruence.
    + rewrite locked_run_eq.
      destruct (acquire_outcome fuel (set_got_lock false mid) eq_refl) as (A1 & A2 & A3).
      cbv zeta in A1, A2, A3.
      destruct (acquire_and_run fuel (set_got_lock false mid)) as [r1 m1].
      cbn [fst snd] in A1, A2, A3.
      assert (C : forall (r : result unit) m3,
                 r <> Ok tt ->
                 (forall code, r = Raise (SystemExit code) -> code = 1%Z) ->
                 r <> OutOfFuel ->
                 let out :=
                   if got_lock m3 then
                     match remove_lock m3 with
                     | (Ok _, m4) => (r, m4)
                     | (Raise e, m4) => (Raise e, m4)
                     | (OutOfFuel, m4) => (OutOfFuel, m4)
                     end
                   else (r, m3) in
                 fst out <> Ok tt /\
                 (forall code, fst out = Raise (SystemExit code) -> code = 1%Z) /\
                 (fst out = OutOfFuel -> got_lock (snd out) = true)).
      { intros r m3 H1 H2 H3. cbv zeta.
        destruct (got_lock m3);
          [| cbn [fst snd]; split; [exact H1|]; split; [exact H2|]; intro; congruence].
        destruct m3 as [c3 fv3 gl3 [o3 tr3 tu3 lh3 lf3]].
        unfold remove_lock, emit.
        cbv beta iota delta [bind gets modify raise ret set_world log set_lock_file
                             world lock_file_exists].
        destruct lf3; cbn [fst snd].
        - split; [exact H1|]. split; [exact H2|]. intro; congruence.
        - split; [discriminate|]. split; discriminate. }
      destruct r1 as [[] | e |].
      * congruence.
      * apply C; [discriminate | exact A2 | discriminate].
      * cbn [fst snd]. split; [discriminate|]. split; [discriminate|]. exact A3.
  - split; [discriminate|]. split; [| discriminate].
    intros code E. injection E as ->. destruct (Ha _ eq_refl).
  - congruence.
Qed.

(* ================================================================== *)
(** ** Further properties: the files follow the limit *)
(* ================================================================== *)

(** A computation that writes no tunable. *)
Local Abbreviation silent mc := (respects (footprint not_a_write) mc).

Lemma quiet_writable m m' :
  footprint not_a_write m m' -> writable (world m) -> writable (world m').
Proof.
  intros (O & _ & _ & T & _) [W1 W2].
  unfold writable. rewrite (T (fun t v H => H)), O. split; assumption.
Qed.

Lemma quiet_synced {A} (mc : M Machine A) f :
  silent mc -> synced f ->
  synced (mkFrame (limit_gb f) (primarycache f) (snd (mc (mach f)))).
Proof.
  intros Hq [W [F1 F2]]. specialize (Hq (mach f)).
  split; [exact (quiet_writable _ _ Hq W)|].
  destruct Hq as (_ & _ & _ & T & _).
  unfold files_follow. cbn [mach limit_gb world].
  rewrite (T (fun t v H => H)). split; assumption.
Qed.

Lemma writable_succeeds w n t v : writable w -> write_succeeds w n t v = true.
Proof.
  intros [W1 W2]. unfold write_succeeds.
  destruct (tunables w t) eqn:E; [apply W1 | exfalso; exact (W2 t E)].
Qed.

(** On a machine that takes every write, [adjust] returns and leaves in the
    two files what it derived from the limit. *)
Lemma adjust_syncs p l msg m :
  writable (world m) ->
  fst (adjust p l msg m) = Ok tt /\
  writable (world (snd (adjust p l msg m))) /\
  tunables (world (snd (adjust p l msg m))) zfs_arc_max =
    Some (Num.int (l * 1024 * 1024 * 1024)) /\
  tunables (world (snd (adjust p l msg m))) zfs_arc_meta_limit =
    Some (Num.int ((l - 2) * 1024 * 1024 * 1024)).
Proof.
  intro W. pose proof (adjust_eq p l msg m) as E. cbv zeta in E.
  rewrite !(writable_succeeds _ _ _ _ W) in E. rewrite E. clear E.
  destruct W as [W1 W2].
  destruct m as [c fv gl [o tr tu lh lf]]. cbn in W1, W2 |- *.
  split; [reflexivity|]. split; [| split; reflexivity].
  split; [exact W1|]. intros [] H; cbn in H; try discriminate.
Qed.

Ltac quiet_steps := fp_steps.

Lemma quiet_time_sleep n : silent (time_sleep n).
Proof. quiet_steps. Qed.

Lemma quiet_print l : silent (print l).
Proof. quiet_steps. Qed.

Lemma quiet_get_ram_total : silent get_ram_total.
Proof. quiet_steps. Qed.

Lemma quiet_get_ram_used : silent get_ram_used.
Proof. unfold get_ram_used. quiet_steps. Qed.

Lemma quiet_drop_caches : silent drop_caches.
Proof. quiet_steps. Qed.

Lemma quiet_restart_crashplan : silent restart_crashplan.
Proof. quiet_steps. Qed.

Lemma quiet_set_primarycache v : silent (set_primarycache v).
Proof. quiet_steps. Qed.

Lemma quiet_read_tunable t : silent (read_tunable t).
Proof. unfold read_tunable. quiet_steps. Qed.

Lemma quiet_handler : silent (logger_error;; time_sleep 30).
Proof. quiet_steps. Qed.

Local Abbreviation stays := (fun (_ : result unit) (f : Frame) => synced f).

Lemma wp_quiet_then {A B} (mc : M Machine A) (k : A -> M Frame B)
    (Q : result B -> Frame -> Prop) f :
  synced f -> silent mc ->
  (forall f', synced f' -> (forall e, Q (Raise e) f') /\ Q OutOfFuel f') ->
  (forall a f', synced f' -> wp (k a) Q f') ->
  wp (lift mc) (then_wp k Q) f.
Proof.
  intros Hs Hq HQ Hk. apply wp_lift. unfold wp.
  pose proof (quiet_synced mc f Hq Hs) as S'.
  destruct (fst (mc (mach f))) as [a | e |]; simpl.
  - apply Hk, S'.
  - apply HQ, S'.
  - apply HQ, S'.
Qed.

Lemma wp_quiet_last {A} (mc : M Machine A) f :
  synced f -> silent mc -> wp (lift mc) (fun _ f' => synced f') f.
Proof.
  intros Hs Hq. apply wp_lift. unfold wp. exact (quiet_synced mc f Hq Hs).
Qed.

Lemma wp_adjust_last p l msg f :
  writable (world (mach f)) -> l = limit_gb f ->
  wp (lift (adjust p l msg)) stays f.
Proof.
  intros W ->. apply wp_lift. unfold wp.
  destruct (adjust_syncs p (limit_gb f) msg (mach f) W) as (_ & W' & T1 & T2).
  split; [exact W' | split; assumption].
Qed.

Lemma wp_adjust_then p l msg (k : unit -> M Frame unit) f :
  writable (world (mach f)) -> l = limit_gb f ->
  (forall f', synced f' -> wp (k tt) stays f') ->
  wp (lift (adjust p l msg)) (then_wp k stays) f.
Proof.
  intros W -> Hk. apply wp_lift. unfold wp.
  destruct (adjust_syncs p (limit_gb f) msg (mach f) W) as (R & W' & T1 & T2).
  rewrite R. simpl. apply Hk. split; [exact W' | split; assumption].
Qed.

Ltac lenient_stays :=
  let f := fresh "f" in let H := fresh "H" in
  intros f H; split; [intro|]; exact H.

Lemma stays_on_panic p f : synced f -> wp (on_panic p) stays f.
Proof.
  intro Hi. unfold on_panic.
  apply wp_bind, wp_gets; simpl.
  apply wp_bind.
  assert (G : forall v, wp
    (pc <- gets primarycache;;
     value <- of_option pc TypeError;;
     lift (print (LinePanic p value));;
     lift drop_caches;; lift (set_primarycache value);; lift restart_crashplan)
    stays (set_primarycache_var v f)).
  { intro v. apply wp_bind, wp_gets; simpl.
    apply wp_bind, wp_ret; simpl.
    apply wp_bind, wp_quiet_then;
      [exact Hi | apply quiet_print | lenient_stays |]. intros _ f1 I1.
    apply wp_bind, wp_quiet_then;
      [exact I1 | apply quiet_drop_caches | lenient_stays |]. intros _ f2 I2.
    apply wp_bind, wp_quiet_then;
      [exact I2 | apply quiet_set_primarycache | lenient_stays |]. intros _ f3 I3.
    apply wp_quiet_last; [exact I3 | apply quiet_restart_crashplan]. }
  destruct (option_string_eqb (primarycache f) "metadata");
    apply wp_modify; simpl; apply G.
Qed.

Lemma stays_on_above_max p f : synced f -> wp (on_above_max p) stays f.
Proof.
  intros Hi. pose proof Hi as [W _].
  unfold on_above_max, bound.
  apply wp_bind, wp_gets; simpl.
  apply wp_bind, wp_gets; simpl.
  apply wp_bind.
  destruct (min_gb (cfg (mach f))) as [lo |]; [| apply wp_raise; exact Hi].
  apply wp_ret; simpl.
  destruct (limit_gb f >? lo).
  - apply wp_bind, wp_modify; simpl.
    apply wp_bind, wp_gets; simpl.
    apply wp_bind.
    destruct (limit_gb f - 1 <? lo).
    + apply wp_modify; simpl. apply wp_bind, wp_gets; simpl.
      apply wp_adjust_last; [exact W | reflexivity].
    + apply wp_ret; simpl. apply wp_bind, wp_gets; simpl.
      apply wp_adjust_last; [exact W | reflexivity].
  - apply wp_bind, wp_quiet_then;
      [exact Hi | apply quiet_print | lenient_stays |]. intros _ f1 I1.
    apply wp_quiet_last; [exact I1 | apply quiet_time_sleep].
Qed.

Lemma stays_on_below_min p f : synced f -> wp (on_below_min p) stays f.
Proof.
  intros Hi.
  unfold on_below_min, bound.
  apply wp_bind, wp_gets; simpl.
  apply wp_bind, wp_gets; simpl.
  assert (G : forall f1, synced f1 -> wp
    (l <- gets limit_gb;;
     hi0 <- of_option (max_gb (cfg (mach f))) TypeError;;
     (if l <? hi0
      then
       modify (set_limit_gb (l + 1));;
       l0 <- gets limit_gb;;
       (if l0 >? hi0 then modify (set_limit_gb hi0) else ret tt);;
       l1 <- gets limit_gb;; lift (adjust p l1 LtMin)
      else lift (print (LineTooHigh p l));; lift (time_sleep sleep_time_idle)))
    stays f1).
  { intros f1 I1. pose proof I1 as [W1 _].
    apply wp_bind, wp_gets; simpl.
    apply wp_bind.
    destruct (max_gb (cfg (mach f))) as [hi |]; [| apply wp_raise; exact I1].
    apply wp_ret; simpl.
    destruct (limit_gb f1 <? hi).
    - apply wp_bind, wp_modify; simpl.
      apply wp_bind, wp_gets; simpl.
      apply wp_bind.
      destruct (limit_gb f1 + 1 >? hi).
      + apply wp_modify; simpl. apply wp_bind, wp_gets; simpl.
        apply wp_adjust_last; [exact W1 | reflexivity].
      + apply wp_ret; simpl. apply wp_bind, wp_gets; simpl.
        apply wp_adjust_last; [exact W1 | reflexivity].
    - apply wp_bind, wp_quiet_then;
        [exact I1 | apply quiet_print | lenient_stays |]. intros _ f2 I2.
      apply wp_quiet_last; [exact I2 | apply quiet_time_sleep]. }
  apply wp_bind.
  destruct (negb (option_string_eqb (primarycache f) "all")).
  - apply wp_bind, wp_quiet_then;
      [exact Hi | apply quiet_print | lenient_stays |]. intros _ f1 I1.
    apply wp_bind, wp_quiet_then;
      [exact I1 | apply quiet_set_primarycache | lenient_stays |]. intros _ f2 I2.
    apply wp_modify; simpl. apply G. exact I2.
  - apply wp_ret; simpl. apply G. exact Hi.
Qed.

Lemma stays_snap p (b : option Q) msg f :
  synced f ->
  wp (x <- bound b;;
      modify (set_limit_gb x);;
      l <- gets limit_gb;;
      lift (adjust p l msg);;
      lift (time_sleep sleep_time_idle)) stays f.
Proof.
  intros Hi. pose proof Hi as [W _]. unfold bound.
  apply wp_bind.
  destruct b as [v |]; [| apply wp_raise; exact Hi].
  apply wp_ret; simpl.
  apply wp_bind, wp_modify; simpl.
  apply wp_bind, wp_gets; simpl.
  apply wp_bind, wp_adjust_then; [exact W | reflexivity |]. intros f1 I1.
  apply wp_quiet_last; [exact I1 | apply quiet_time_sleep].
Qed.

Lemma stays_on_steady p f : synced f -> wp (on_steady p) stays f.
Proof.
  intros Hi. pose proof Hi as [W _].
  unfold on_steady, relative_goodness_of, bound.
  apply wp_bind, wp_gets; simpl.
  apply wp_bind.
  destruct (Qeq_bool _ 0); [apply wp_raise; exact Hi|].
  apply wp_ret; simpl.
  apply wp_bind.
  destruct (min_good_gb (cfg (mach f))) as [lo |]; [| apply wp_raise; exact Hi].
  apply wp_ret; simpl.
  apply wp_bind.
  destruct (max_good_gb (cfg (mach f))) as [hi |]; [| apply wp_raise; exact Hi].
  apply wp_ret; simpl.
  apply wp_bind, wp_modify; simpl.
  apply wp_bind, wp_gets; simpl.
  apply wp_bind, wp_modify; simpl.
  apply wp_bind, wp_gets; simpl.
  apply wp_bind, wp_adjust_then; [exact W | reflexivity |]. intros f1 I1.
  apply wp_quiet_last; [exact I1 | apply quiet_time_sleep].
Qed.

Lemma stays_rule_body r p f : synced f -> wp (rule_body r p) stays f.
Proof.
  intros Hi. destruct r; simpl.
  - now apply stays_on_panic.
  - now apply stays_on_above_max.
  - now apply stays_on_below_min.
  - unfold on_above_good. apply wp_bind, wp_gets; simpl. now apply stays_snap.
  - unfold on_below_good. apply wp_bind, wp_gets; simpl. now apply stays_snap.
  - now apply stays_on_steady.
Qed.

Lemma stays_act total used f : synced f -> wp (act total used) stays f.
Proof.
  intro Hi. unfold act, percent_of.
  apply wp_bind.
  destruct (total =? 0)%Z.
  { apply wp_raise; simpl. exact Hi. }
  apply wp_ret; simpl.
  apply wp_bind, wp_gets; simpl.
  apply stays_rule_body. exact Hi.
Qed.

Lemma stays_reading f : synced f -> wp reading (fun _ f' => synced f') f.
Proof.
  intro Hi. unfold reading.
  apply wp_bind, wp_quiet_then;
    [exact Hi | apply quiet_time_sleep | lenient_stays |]. intros _ f1 I1.
  apply wp_bind, wp_quiet_then;
    [exact I1 | apply quiet_get_ram_total | lenient_stays |]. intros total f2 I2.
  apply wp_bind, wp_quiet_then;
    [exact I2 | apply quiet_get_ram_used | lenient_stays |]. intros used f3 I3.
  apply wp_ret. exact I3.
Qed.

Lemma stays_iteration f : synced f -> wp iteration stays f.
Proof.
  intro Hi. unfold iteration, loop_body.
  apply wp_try_except, wp_bind.
  eapply wp_mono; [apply stays_reading; exact Hi|].
  intros r f1 I1. destruct r as [[total used] | e |]; simpl.
  - eapply wp_mono; [apply stays_act; exact I1|].
    intros r f2 I2. destruct r as [| e |]; try exact I2.
    destruct e; simpl; try exact I2;
      (apply wp_quiet_last; [exact I2 | apply quiet_handler]).
  - destruct e; simpl; try exact I1;
      (apply wp_quiet_last; [exact I1 | apply quiet_handler]).
  - exact I1.
Qed.

Lemma stays_loop n : forall f, synced f -> synced (snd (loop n f)).
Proof.
  induction n as [| n IH]; intros f Hi; simpl.
  - exact Hi.
  - change (wp (iteration;; loop n) stays f). apply wp_bind.
    eapply wp_mono; [apply stays_iteration; exact Hi|].
    intros r f1 I1. destruct r; simpl; try exact I1.
    apply IH, I1.
Qed.

(** [limit_init] ends with [adjust] on the limit it returns. *)
Lemma limit_init_syncs m l m1 :
  writable (world m) -> limit_init m = (Ok l, m1) -> synced (enter l m1).
Proof.
  intros W E.
  assert (G : wp limit_init
                (fun r m' => match r with
                             | Ok l' => synced (enter l' m')
                             | _ => True
                             end) m).
  { assert (step : forall {A} (mc : M Machine A) (k : A -> M Machine Q) Post m2,
               writable (world m2) -> silent mc ->
               (forall e m3, Post (Raise e) m3) -> (forall m3, Post OutOfFuel m3) ->
               (forall a m3, writable (world m3) -> wp (k a) Post m3) ->
               wp (bind mc k) Post m2).
    { intros A mc k Post m2 W2 Hq P1 P2 Hk. apply wp_bind. unfold wp.
      pose proof (quiet_writable _ _ (Hq m2) W2) as W3.
      destruct (fst (mc m2)); simpl; auto. }
    assert (tail : forall l0 m0, writable (world m0) ->
      wp (total <- get_ram_total;;
          used <- get_ram_used;;
          percent <- percent_of used total;;
          adjust percent l0 BeforeInitialSettings;; ret l0)
         (fun r m' => match r with
                      | Ok l' => synced (enter l' m')
                      | _ => True
                      end) m0).
    { intros l0 m0 W0.
      apply step; [exact W0 | apply quiet_get_ram_total | auto | auto |].
      intros total m2 W2.
      apply step; [exact W2 | apply quiet_get_ram_used | auto | auto |].
      intros used m3 W3.
      apply wp_bind. unfold percent_of.
      destruct (total =? 0)%Z; [apply wp_raise; exact I|].
      apply wp_ret; simpl.
      apply wp_bind. unfold wp.
      match goal with |- context [adjust ?pp l0 BeforeInitialSettings m3] =>
        destruct (adjust_syncs pp l0 BeforeInitialSettings m3 W3)
          as (R & W' & T1 & T2)
      end.
      rewrite R. simpl. split; [exact W' | split; assumption]. }
    unfold limit_init, bound.
    apply step; [exact W | apply quiet_read_tunable | auto | auto |].
    intros old m2 W2. cbv zeta.
    apply wp_bind, wp_gets; simpl.
    apply wp_bind.
    destruct (min_gb (cfg m2)) as [lo |]; [| apply wp_raise; exact I].
    apply wp_ret; simpl.
    apply wp_bind.
    destruct (_ <? lo).
    - apply wp_ret; simpl. apply tail, W2.
    - apply wp_bind.
      destruct (max_gb (cfg m2)) as [hi |]; [| apply wp_raise; exact I].
      apply wp_ret; simpl.
      destruct (_ >? hi); apply wp_ret; simpl; apply tail, W2. }
  unfold wp in G. rewrite E in G. exact G.
Qed.

(** X14.  On a machine that accepts every write, the two files follow the
    limit of [run]: once [limit_init] has returned, and after any number of
    iterations of the loop, [zfs_arc_max] holds int(limit_gb * 1024^3) and
    [zfs_arc_meta_limit] holds int((limit_gb - 2) * 1024^3), whichever rule
    ran and whatever commands or readings failed on the way. *)
Theorem X14_files_follow_the_limit (m m1 : Machine) (l : Q) (n : nat) :
  writable (world m) ->
  limit_init m = (Ok l, m1) ->
  files_follow (enter l m1) /\
  files_follow (snd (loop n (enter l m1))).
Proof.
  intros W E. pose proof (limit_init_syncs m l m1 W E) as S0.
  split; [apply S0 | apply (stays_loop n), S0].
Qed.

Lemma X14_files_follow_the_limit_witness :
  writable (world Sample.machine_64g) /\
  files_follow (snd (loop 2 (enter 12 (snd (limit_init Sample.machine_64g))))).
Proof.
  assert (W : writable (world Sample.machine_64g)).
  { split; [intros; reflexivity | intros [] H; discriminate]. }
  split; [exact W|].
  apply (X14_files_follow_the_limit
           Sample.machine_64g (snd (limit_init Sample.machine_64g)) 12 2 W).
  vm_compute. reflexivity.
Defined.

(* ================================================================== *)
(** ** Further properties: reading the output of [free] *)
(* ================================================================== *)

Lemma mapM_py_int_ok {S} (toks : list string) : forall (ns : list Z) (s : S),
  map Py.int_of_token toks = map Some ns ->
  mapM py_int toks s = (Ok ns, s).
Proof.
  induction toks as [| tok toks IH]; intros [| n ns] s H; try discriminate.
  - reflexivity.
  - cbn [map] in H. injection H as H1 H2.
    cbn [mapM]. unfold bind at 1. unfold py_int at 1. rewrite H1.
    cbn [of_option]. unfold ret at 1.
    unfold bind at 1. rewrite (IH ns s H2). reflexivity.
Qed.

Lemma mapM_py_int_bad {S} (toks : list string) (s : S) :
  (exists tok, In tok toks /\ Py.int_of_token tok = None) ->
  mapM py_int toks s = (Raise ValueError, s).
Proof.
  induction toks as [| tok toks IH]; intros (bad & Hin & Hbad).
  - destruct Hin.
  - cbn [mapM]. unfold bind at 1. unfold py_int at 1.
    destruct (Py.int_of_token tok) as [n |] eqn:E.
    + cbn [of_option]. unfold ret at 1. unfold bind at 1.
      rewrite IH; [reflexivity|].
      destruct Hin as [-> | Hin]; [congruence|].
      exists bad. split; assumption.
    + reflexivity.
Qed.

(** [get_ram_used] once [free] has printed [lines], with the offsets of the
    newer schema. *)
Lemma get_ram_used_eq (m : Machine) (lines : list string) (line : string) :
  option_string_eqb (free_version m) "3.3.9" = false ->
  run_result (oracle (world m)) (now (world m)) CmdFree = Some lines ->
  nth_error lines 1 = Some line ->
  get_ram_used m =
    (let m' := set_world (log (EvRun CmdFree) (world m)) m in
     (split <- mapM py_int (List.tl (Py.split line));;
      a <- item split 0;;
      b <- item split 5;;
      ret (a - b)%Z) m').
Proof.
  intros Hv Hrun Hline.
  destruct m as [c fv gl [o tr tu lh lf]].
  cbn in Hv, Hrun.
  unfold now in Hrun. cbn in Hrun.
  unfold get_ram_used, get_ram, popen, emit, now.
  cbv beta iota zeta delta [bind gets modify ret world set_world log oracle
                            trace free_version command_failed].
  rewrite Hrun, Hv. unfold item at 1. rewrite Hline. reflexivity.
Qed.

Lemma get_ram_total_eq (m : Machine) (lines : list string) (line : string) :
  run_result (oracle (world m)) (now (world m)) CmdFree = Some lines ->
  nth_error lines 1 = Some line ->
  get_ram_total m =
    (let m' := set_world (log (EvRun CmdFree) (world m)) m in
     (token <- item (Py.split line) 1;; py_int token) m').
Proof.
  intros Hrun Hline.
  destruct m as [c fv gl [o tr tu lh lf]].
  cbn in Hrun.
  unfold now in Hrun. cbn in Hrun.
  unfold get_ram_total, get_ram, popen, emit, now.
  cbv beta iota zeta delta [bind gets modify ret world set_world log oracle
                            trace free_version command_failed].
  rewrite Hrun.
  destruct (option_string_eqb fv "3.3.9");
    unfold item at 1; rewrite Hline; reflexivity.
Qed.

(** X15.  What the two readings make of the [Mem:] line of [free], with the
    schema left undetected.  The line is cut at blanks; the first word is
    skipped.  When every other word is a number, [get_ram_total] returns the
    first number and [get_ram_used] the first minus the sixth, and
    [get_ram_used] raises [IndexError] when there are fewer than six.  When
    some word after the first is not a number, whichever it is,
    [get_ram_used] raises [ValueError]. *)
Theorem X15_readings_of_the_mem_line
    (m : Machine) (lines : list string) (line label : string)
    (words : list string) :
  option_string_eqb (free_version m) "3.3.9" = false ->
  run_result (oracle (world m)) (now (world m)) CmdFree = Some lines ->
  nth_error lines 1 = Some line ->
  Py.split line = label :: words ->
  (forall numbers,
     map Py.int_of_token words = map Some numbers ->
     (forall total, nth_error numbers 0 = Some total ->
        fst (get_ram_total m) = Ok total /\
        (forall available, nth_error numbers 5 = Some available ->
           fst (get_ram_used m) = Ok (total - available)%Z)) /\
     ((List.length numbers < 6)%nat -> fst (get_ram_used m) = Raise IndexError)) /\
  ((exists word, In word words /\ Py.int_of_token word = None) ->
   fst (get_ram_used m) = Raise ValueError).
Proof.
  intros Hv Hrun Hline Hsplit.
  rewrite (get_ram_used_eq m lines line Hv Hrun Hline).
  rewrite (get_ram_total_eq m lines line Hrun Hline).
  cbv zeta. rewrite Hsplit. cbn [List.tl].
  set (m' := set_world (log (EvRun CmdFree) (world m)) m).
  split.
  - intros numbers Hn. split.
    + intros total H0.
      destruct words as [| w0 ws]; destruct numbers as [| n0 ns]; try discriminate.
      cbn [map] in Hn. injection Hn as Hn0 Hns.
      cbn [nth_error] in H0. injection H0 as ->.
      split.
      * unfold bind, item, py_int, of_option, ret. cbn [nth_error fst snd].
        rewrite Hn0. reflexivity.
      * intros available H5.
        unfold bind at 1.
        rewrite (mapM_py_int_ok (w0 :: ws) (total :: ns) m')
          by (cbn [map]; congruence).
        unfold bind, item. cbn [nth_error of_option] in H5 |- *.
        rewrite H5. reflexivity.
    + intro Hlen. unfold bind at 1.
      rewrite (mapM_py_int_ok words numbers m' Hn).
      unfold bind, item.
      destruct numbers as [| n0 ns]; [reflexivity|].
      cbn [nth_error of_option ret fst].
      assert (E : nth_error (n0 :: ns) 5 = None)
        by (apply nth_error_None; lia).
      cbn [nth_error] in E. rewrite E. reflexivity.
  - intro Hbad. unfold bind at 1.
    rewrite (mapM_py_int_bad words m' Hbad). reflexivity.
Qed.

Lemma X15_readings_of_the_mem_line_witness :
  fst (get_ram_total Sample.machine_64g) = Ok 64000%Z /\
  fst (get_ram_used Sample.machine_64g) = Ok 61000%Z.
Proof.
  destruct (X15_readings_of_the_mem_line
              Sample.machine_64g (Sample.free_new Sample.mem_95) Sample.mem_95
              "Mem:" ["64000"; "30000"; "1000"; "100"; "33000"; "3000"]
              eq_refl eq_refl eq_refl eq_refl) as [H _].
  destruct (H [64000; 30000; 1000; 100; 33000; 3000]%Z eq_refl) as [H1 _].
  destruct (H1 64000%Z eq_refl) as [T U].
  split; [exact T | exact (U 3000%Z eq_refl)].
Defined.

(* ================================================================== *)
(** ** Further properties: how often the files are written *)
(* ================================================================== *)

Section Pace.
Variable t : tunable.

Local Abbreviation upto k := (respects (in_frame (wrote_at_most t k))).

Lemma writes_to_app l1 l2 :
  writes_to t (l1 ++ l2) = (writes_to t l1 + writes_to t l2)%nat.
Proof. unfold writes_to. rewrite filter_app, length_app. reflexivity. Qed.

Lemma wrote_refl k m : wrote_at_most t k m m.
Proof. exists []. split; [now rewrite app_nil_r | cbn; lia]. Qed.

Lemma wrote_trans a b m1 m2 m3 :
  wrote_at_most t a m1 m2 -> wrote_at_most t b m2 m3 ->
  wrote_at_most t (a + b) m1 m3.
Proof.
  intros (n1 & E1 & C1) (n2 & E2 & C2).
  exists (n1 ++ n2)%list. split.
  - rewrite E2, E1, app_assoc. reflexivity.
  - rewrite writes_to_app. lia.
Qed.

Lemma wrote_weaken a b m m' :
  (a <= b)%nat -> wrote_at_most t a m m' -> wrote_at_most t b m m'.
Proof. intros H (n & E & C). exists n. split; [exact E | lia]. Qed.

Lemma quiet_writes_nothing l : Forall not_a_write l -> writes_to t l = 0%nat.
Proof.
  induction 1 as [| e l He _ IH]; [reflexivity|].
  unfold writes_to in *. cbn [filter].
  destruct e; cbn [is_write_to]; try exact IH. destruct He.
Qed.

Lemma wrote_quiet k m m' : footprint not_a_write m m' -> wrote_at_most t k m m'.
Proof.
  intros (_ & _ & (new & E & F) & _). exists new. split; [exact E|].
  rewrite (quiet_writes_nothing _ F). lia.
Qed.

Lemma wrote_adjust p l msg : respects (wrote_at_most t 1) (adjust p l msg).
Proof.
  intro m. pose proof (adjust_eq p l msg m) as E. cbv zeta in E. rewrite E. clear E.
  destruct m as [c fv gl [o tr tu lh lf]].
  destruct (write_succeeds _ _ zfs_arc_meta_limit _);
    [destruct (write_succeeds _ _ zfs_arc_max _) |];
    unfold wrote_at_most;
    cbn [fst snd world set_world store log trace];
    eexists; (split; [rewrite <- ?app_assoc; reflexivity|]);
    unfold writes_to; destruct t;
    cbn [filter is_write_to tunable_eqb List.length app]; lia.
Qed.

Lemma upto_lift_quiet {A} k (mc : M Machine A) :
  respects (footprint not_a_write) mc -> upto k (lift mc).
Proof.
  intros H f. unfold lift, in_frame. specialize (H (mach f)).
  destruct (mc (mach f)) as [r m']. cbn [snd mach] in *. apply wrote_quiet, H.
Qed.

Lemma upto_lift_adjust p l msg : upto 1 (lift (adjust p l msg)).
Proof.
  intro f. unfold lift, in_frame. pose proof (wrote_adjust p l msg (mach f)) as H.
  destruct (adjust p l msg (mach f)) as [r m']. exact H.
Qed.

Lemma upto_ret {A} k (a : A) : upto k (ret a).
Proof. intro f. apply wrote_refl. Qed.

Lemma upto_raise {A} k e : upto k (@raise Frame A e).
Proof. intro f. apply wrote_refl. Qed.

Lemma upto_gets {A} k (g : Frame -> A) : upto k (gets g).
Proof. intro f. apply wrote_refl. Qed.

Lemma upto_of_option {A} k (o : option A) e : upto k (of_option o e).
Proof. destruct o; intro f; apply wrote_refl. Qed.

Lemma upto_modify k (g : Frame -> Frame) :
  (forall f, mach (g f) = mach f) -> upto k (modify g).
Proof. intros H f. unfold in_frame. cbn. rewrite H. apply wrote_refl. Qed.

Lemma upto_bind {A B} a b (m : M Frame A) (k : A -> M Frame B) :
  upto a m -> (forall x, upto b (k x)) -> upto (a + b) (bind m k).
Proof.
  intros Hm Hk f. unfold bind, in_frame. specialize (Hm f). unfold in_frame in Hm.
  destruct (m f) as [[x | e |] f1]; cbn [snd] in *.
  - eapply wrote_trans; [exact Hm | apply Hk].
  - eapply wrote_weaken; [| exact Hm]. lia.
  - eapply wrote_weaken; [| exact Hm]. lia.
Qed.

Lemma upto_after_quiet {A B} k (m : M Frame A) (c : A -> M Frame B) :
  upto 0 m -> (forall x, upto k (c x)) -> upto k (bind m c).
Proof. intros Hm Hc. exact (upto_bind 0 k m c Hm Hc). Qed.

Lemma upto_then_quiet {A B} k (m : M Frame A) (c : A -> M Frame B) :
  upto k m -> (forall x, upto 0 (c x)) -> upto k (bind m c).
Proof.
  intros Hm Hc. replace k with (k + 0)%nat by lia. exact (upto_bind k 0 m c Hm Hc).
Qed.

Lemma upto_try_except a b (body : M Frame unit) handler :
  upto a body -> (forall e, upto b (handler e)) ->
  upto (a + b) (try_except body handler).
Proof.
  intros Hb Hh f. unfold try_except, in_frame. specialize (Hb f). unfold in_frame in Hb.
  destruct (body f) as [[x | e |] f1]; cbn [snd] in *.
  - eapply wrote_weaken; [| exact Hb]. lia.
  - eapply wrote_trans; [exact Hb | apply Hh].
  - eapply wrote_weaken; [| exact Hb]. lia.
Qed.

Ltac pace :=
  repeat match goal with
    | |- upto _ (bind (lift (adjust _ _ _)) _) =>
        apply upto_then_quiet; [apply upto_lift_adjust | intro]
    | |- upto _ (bind _ _) => apply upto_after_quiet; [| intro]
    | |- upto _ (lift (adjust _ _ _)) => apply upto_lift_adjust
    | |- upto _ (lift _) =>
        apply upto_lift_quiet; first [apply quiet_get_ram_used | fp_steps]
    | |- upto _ (ret _) => apply upto_ret
    | |- upto _ (raise _) => apply upto_raise
    | |- upto _ (gets _) => apply upto_gets
    | |- upto _ (of_option _ _) => apply upto_of_option
    | |- upto _ (bound _) => apply upto_of_option
    | |- upto _ (modify _) => apply upto_modify; reflexivity
    | |- upto _ (percent_of _ _) => unfold percent_of
    | |- upto _ (relative_goodness_of _ _) => unfold relative_goodness_of
    | |- upto _ (if ?b then _ else _) => destruct b
    end.

Lemma upto_rule_body r p : upto 1 (rule_body r p).
Proof.
  destruct r; simpl;
    [ unfold on_panic | unfold on_above_max | unfold on_below_min
    | unfold on_above_good | unfold on_below_good | unfold on_steady ];
    pace.
Qed.

Lemma upto_act total used : upto 1 (act total used).
Proof. unfold act. pace. apply upto_rule_body. Qed.

Lemma upto_handler e : upto 0 (loop_handler e).
Proof. destruct e; simpl; pace. Qed.

(** An iteration once its first sleep has begun. *)
Local Abbreviation awake i :=
  (try_except
     (measured <- (lift (if i then raise KeyboardInterrupt else ret tt);;
                   total <- lift get_ram_total;;
                   used <- lift get_ram_used;;
                   ret (total, used));;
      act (fst measured) (snd measured))
     loop_handler).

Lemma iteration_awake f :
  iteration f =
    awake (interrupted (oracle (world (mach f))) (now (world (mach f))))
      (mkFrame (limit_gb f) (primarycache f)
         (set_world (log (EvSleep 3) (world (mach f))) (mach f))).
Proof.
  assert (E : forall B (k : unit -> M Frame B),
             (lift (time_sleep sleep_time_action);; k tt) f =
             (lift (if interrupted (oracle (world (mach f))) (now (world (mach f)))
                    then raise KeyboardInterrupt else ret tt);; k tt)
               (mkFrame (limit_gb f) (primarycache f)
                  (set_world (log (EvSleep 3) (world (mach f))) (mach f)))).
  { intros B k. destruct f as [l pc [c fv gl [o tr tn lh lf]]].
    unfold lift, time_sleep, emit, sleep_time_action, now.
    cbv beta iota delta [bind gets modify mach world set_world log oracle trace
                         limit_gb primarycache].
    destruct (interrupted o (List.length tr)); reflexivity. }
  assert (B : forall (m1 m2 : M Frame (Z * Z)) (k : Z * Z -> M Frame unit) f1 f2,
             m1 f1 = m2 f2 -> bind m1 k f1 = bind m2 k f2).
  { intros m1 m2 k f1 f2 H. unfold bind. rewrite H. reflexivity. }
  unfold iteration, loop_body, try_except.
  unfold reading.
  erewrite B; [reflexivity|].
  exact (E (Z * Z)%type (fun _ : unit => total <- lift get_ram_total;;
                                  used <- lift get_ram_used;;
                                  ret (total, used))).
Qed.

Lemma upto_awake (i : bool) : upto 1 (awake i).
Proof.
  change 1%nat with (1 + 0)%nat.
  apply upto_try_except; [| apply upto_handler].
  apply upto_after_quiet; [pace|]. intro. apply upto_act.
Qed.

(** An iteration begins with its sleep and then writes [t] at most once. *)
Lemma iteration_block f :
  exists rest,
    trace (world (mach (snd (iteration f)))) =
      (trace (world (mach f)) ++ EvSleep 3 :: rest)%list /\
    (writes_to t rest <= 1)%nat.
Proof.
  rewrite iteration_awake.
  match goal with |- context [awake ?i ?f0] =>
    destruct (upto_awake i f0) as (rest & E & C) end.
  exists rest. split; [| exact C].
  rewrite E. cbn [mach world set_world log trace].
  rewrite <- app_assoc. reflexivity.
Qed.

Lemma spaced_after_quiet l1 l2 :
  writes_to t l1 = 0%nat ->
  (forall b, spaced t b l2 = true) ->
  forall a, spaced t a (l1 ++ l2) = true.
Proof.
  intros H0 H2. induction l1 as [| e l1 IH]; intro a; [apply H2|].
  unfold writes_to in H0. cbn [filter] in H0.
  cbn [app spaced].
  destruct (is_write_to t e) eqn:W; [discriminate|].
  destruct e; try apply IH; exact H0.
Qed.

Lemma spaced_after_one l1 l2 :
  (writes_to t l1 <= 1)%nat ->
  (forall b, spaced t b l2 = true) ->
  spaced t true (l1 ++ l2) = true.
Proof.
  intros H1 H2. induction l1 as [| e l1 IH]; [apply H2|].
  unfold writes_to in H1. cbn [filter] in H1.
  cbn [app spaced].
  destruct (is_write_to t e) eqn:W.
  - cbn [List.length] in H1.
    assert (Z0 : writes_to t l1 = 0%nat) by (unfold writes_to; lia).
    destruct e; try discriminate W.
    cbn [andb]. apply spaced_after_quiet; assumption.
  - destruct e; apply IH; exact H1.
Qed.

Lemma loop_spaced n : forall f,
  exists new,
    trace (world (mach (snd (loop n f)))) = (trace (world (mach f)) ++ new)%list /\
    forall b, spaced t b new = true.
Proof.
  induction n as [| n IH]; intro f.
  - exists []. split; [cbn; now rewrite app_nil_r | reflexivity].
  - cbn [loop]. unfold bind.
    destruct (iteration_block f) as (rest & E & C).
    destruct (iteration f) as [[[] | e |] f1]; cbn [snd] in *.
    + destruct (IH f1) as (new & E1 & S1).
      exists (EvSleep 3 :: rest ++ new)%list. split.
      * rewrite E1, E, <- app_assoc. reflexivity.
      * intro b. cbn [spaced]. apply spaced_after_one; assumption.
    + exists (EvSleep 3 :: rest)%list. split; [exact E|].
      intro b. cbn [spaced]. rewrite <- (app_nil_r rest).
      apply spaced_after_one; [exact C | reflexivity].
    + exists (EvSleep 3 :: rest)%list. split; [exact E|].
      intro b. cbn [spaced]. rewrite <- (app_nil_r rest).
      apply spaced_after_one; [exact C | reflexivity].
Qed.

Lemma wrote_limit_init : respects (wrote_at_most t 1) limit_init.
Proof.
  intro m. unfold limit_init, bind at 1.
  pose proof (quiet_read_tunable zfs_arc_max m) as H0.
  destruct (read_tunable zfs_arc_max m) as [[old | e |] m1]; cbn [snd] in *;
    [| apply wrote_quiet, H0 ..].
  apply (wrote_trans 0 1 _ m1); [apply wrote_quiet, H0|].
  cbv zeta.
  assert (tail : forall l0 m0,
    wrote_at_most t 1 m0
      (snd ((total <- get_ram_total;;
             used <- get_ram_used;;
             percent <- percent_of used total;;
             adjust percent l0 BeforeInitialSettings;; ret l0) m0))).
  { intros l0 m0. unfold bind at 1.
    pose proof (quiet_get_ram_total m0) as H1.
    destruct (get_ram_total m0) as [[total | e |] m2]; cbn [snd] in *;
      [| apply wrote_quiet, H1 ..].
    apply (wrote_trans 0 1 _ m2); [apply wrote_quiet, H1|].
    unfold bind at 1.
    pose proof (quiet_get_ram_used m2) as H2.
    destruct (get_ram_used m2) as [[used | e |] m3]; cbn [snd] in *;
      [| apply wrote_quiet, H2 ..].
    apply (wrote_trans 0 1 _ m3); [apply wrote_quiet, H2|].
    unfold bind at 1, percent_of.
    destruct (total =? 0)%Z; [apply wrote_refl|].
    unfold ret at 1. unfold bind at 1.
    match goal with |- context [adjust ?pp l0 BeforeInitialSettings m3] =>
      pose proof (wrote_adjust pp l0 BeforeInitialSettings m3) as H3;
      destruct (adjust pp l0 BeforeInitialSettings m3) as [[[] | e |] m4]
    end; exact H3. }
  unfold bind at 1. unfold gets at 1.
  unfold bind at 1, bound.
  destruct (min_gb (cfg m1)) as [lo |]; [| apply wrote_refl].
  cbn [of_option]. unfold ret at 1.
  unfold bind at 1.
  destruct (_ <? lo).
  - unfold ret at 1. apply tail.
  - unfold bind at 1.
    destruct (max_gb (cfg m1)) as [hi |]; [| apply wrote_refl].
    cbn [of_option]. unfold ret at 1.
    destruct (_ >? hi); unfold ret at 1; apply tail.
Qed.

Lemma spaced_sound before : forall b v between v' rest,
  spaced t b (before ++ EvWrite t v :: between ++ EvWrite t v' :: rest) = true ->
  exists seconds, In (EvSleep seconds) between.
Proof.
  assert (T : tunable_eqb t t = true) by (destruct t; reflexivity).
  assert (second : forall between v' rest,
            spaced t false (between ++ EvWrite t v' :: rest) = true ->
            exists seconds, In (EvSleep seconds) between).
  { induction between as [| e between IH]; intros v' rest H.
    - cbn in H. rewrite T in H. discriminate.
    - destruct e as [seconds | c0 | t1 | t0 v0 | t2 | ln | | | |];
        cbn [app spaced is_write_to] in H;
        try (destruct (IH v' rest H) as (s & Hs); exists s; right; exact Hs).
      + exists seconds. left. reflexivity.
      + destruct (tunable_eqb t0 t); [discriminate|].
        destruct (IH v' rest H) as (s & Hs). exists s. right. exact Hs. }
  induction before as [| e before IH]; intros b v between v' rest H.
  - cbn [app spaced is_write_to] in H. rewrite T in H.
    apply andb_prop in H. destruct H as [_ H]. exact (second _ _ _ H).
  - destruct e as [seconds | c0 | t1 | t0 v0 | t2 | ln | | | |];
      cbn [app spaced is_write_to] in H;
      try (exact (IH _ _ _ _ _ H)).
    destruct (tunable_eqb t0 t).
    + apply andb_prop in H. destruct H as [_ H]. exact (IH _ _ _ _ _ H).
    + exact (IH _ _ _ _ _ H).
Qed.

Lemma run_spaced n m :
  exists new,
    trace (world (snd (run n m))) = (trace (world m) ++ new)%list /\
    spaced t true new = true.
Proof.
  unfold run, bind.
  destruct (wrote_limit_init m) as (new0 & E0 & C0).
  destruct (limit_init m) as [[l | e |] m1]; cbn [snd] in *.
  - destruct (loop_spaced n (enter l m1)) as (new & E & S).
    destruct (loop n (enter l m1)) as [r f]. cbn [snd enter mach] in *.
    exists (new0 ++ new)%list. split.
    + rewrite E, E0, app_assoc. reflexivity.
    + apply spaced_after_one; assumption.
  - exists new0. split; [exact E0|]. rewrite <- (app_nil_r new0).
    apply spaced_after_one; [exact C0 | reflexivity].
  - exists new0. split; [exact E0|]. rewrite <- (app_nil_r new0).
    apply spaced_after_one; [exact C0 | reflexivity].
Qed.

End Pace.

(** X16.  [run] never writes a tunable file twice without sleeping in
    between: between any two writes to the same file, from [limit_init] on
    and through any number of iterations, there is a sleep.  Every iteration
    begins with its sleep of 3 seconds and calls [adjust] at most once, so a
    file is written at most once every 3 seconds. *)
Theorem X16_a_sleep_between_two_writes (n : nat) (m : Machine) (t : tunable)
    (before between rest : list event) (v v' : Z) :
  trace (world (snd (run n m))) =
    (trace (world m)
     ++ before ++ EvWrite t v :: between ++ EvWrite t v' :: rest)%list ->
  exists seconds, In (EvSleep seconds) between.
Proof.
  intro H. destruct (run_spaced t n m) as (new & E & S).
  rewrite E in H. apply app_inv_head in H. subst new.
  exact (spaced_sound t before true v between v' rest S).
Qed.

Lemma X16_a_sleep_between_two_writes_witness :
  exists seconds,
    In (EvSleep seconds)
       (firstn 5 (skipn 6 (trace (world (snd (run 1 Scenario.steady_machine)))))).
Proof.
  apply (X16_a_sleep_between_two_writes 1 Scenario.steady_machine zfs_arc_max
           (firstn 5 (trace (world (snd (run 1 Scenario.steady_machine)))))
           (firstn 5 (skipn 6 (trace (world (snd (run 1 Scenario.steady_machine))))))
           (skipn 12 (trace (world (snd (run 1 Scenario.steady_machine)))))
           10737418240 21388937134).
  vm_compute. reflexivity.
Defined.

(* ================================================================== *)
(** ** Further properties: the pools found by [zpool list] *)
(* ================================================================== *)



